(** * maze_algo: weighted quick-union with path compression, and the
      Kruskal maze generator built on it.

    The development follows the Python sources
    [maze_algo/disjoint_set.py], [maze_algo/cell_dset.py] and
    [maze_algo/kruskal_gen.py].  Python integers are [Z], the
    dictionaries [parent_map], [sz_map] and [index_map] are [gmap Z Z],
    the numpy grid is a list of rows, and exceptions are the [Raise]
    results of a small error monad. *)

From stdpp Require Import base numbers list gmap fin_maps relations sorting.

Local Open Scope Z_scope.

(** ** Exceptions and results *)

Inductive error : Type :=
| KeyError          (* a missing dictionary key *)
| IndexError        (* a numpy index out of bounds *)
| ValueError        (* numpy.random called with an empty range *)
| IllegalHeight     (* Exception("illegal height because each wall's height is one.") *)
| IllegalWidth      (* Exception("illegal width because each wall's width is one.") *)
| NonTermination.   (* a [while] loop that never leaves a cycle of parents *)

Inductive result (A : Type) : Type :=
| Ok (a : A)
| Raise (e : error).

Arguments Ok {A} a.
Arguments Raise {A} e.

#[global] Instance error_eq_dec : EqDecision error.
Proof. solve_decision. Defined.

#[global] Instance result_eq_dec {A : Type} `{EqDecision A} : EqDecision (result A).
Proof. solve_decision. Defined.

#[global] Instance result_ret : MRet result := λ A a, Ok a.
#[global] Instance result_bind : MBind result := λ A B f m,
  match m with
  | Ok a => f a
  | Raise e => Raise e
  end.

#[global] Instance result_fmap : FMap result := λ A B f m,
  match m with
  | Ok a => Ok (f a)
  | Raise e => Raise e
  end.

(** [d[k]] on a Python dictionary. *)
Definition getitem (d : gmap Z Z) (k : Z) : result Z :=
  match d !! k with
  | Some v => Ok v
  | None => Raise KeyError
  end.

(** [range(n)] and [range(start, stop, 2)]. *)
Definition range (n : Z) : list Z := seqZ 0 n.

Definition range2 (start stop : Z) : list Z :=
  (λ i, start + 2 * i) <$> seqZ 0 ((stop - start + 1) `div` 2).

(** ** disjoint_set.py: class WeightQuickUnionDisjointSet *)

Module DSet.

Record t : Type := Build {
  _count : Z;
  parent_map : gmap Z Z;
  sz_map : gmap Z Z;
}.

(** [__init__]: the body of [for i in range(n)]. *)
Definition init_step (m : gmap Z Z * gmap Z Z) (i : Z) : gmap Z Z * gmap Z Z :=
  (<[i := i]> m.1, <[i := 1]> m.2).

Definition init (n : Z) : t :=
  let m := foldl init_step (∅, ∅) (range n) in
  {| _count := n; parent_map := m.1; sz_map := m.2 |}.

(** [find], first loop: [while q != self.parent_map[q]: q = self.parent_map[q]].
    The loop has no bound of its own; [fuel] counts its tests. *)
Fixpoint find_root (fuel : nat) (pm : gmap Z Z) (q : Z) : result Z :=
  match fuel with
  | O => Raise NonTermination
  | S fuel' =>
      q' ← getitem pm q;
      if bool_decide (q ≠ q') then find_root fuel' pm q' else Ok q
  end.

(** [find], second loop:
    [while p != self.parent_map[p]:
       p_last = p; p = self.parent_map[p];
       self.parent_map[p_last] = q; self.sz_map[p_last] = 2]. *)
Fixpoint compress (fuel : nat) (pm sz : gmap Z Z) (p q : Z)
  : result (gmap Z Z * gmap Z Z) :=
  match fuel with
  | O => Raise NonTermination
  | S fuel' =>
      p' ← getitem pm p;
      if bool_decide (p ≠ p')
      then compress fuel' (<[p := q]> pm) (<[p := 2]> sz) p' q
      else Ok (pm, sz)
  end.

(** A walk along parents that makes more tests than there are keys has
    entered a cycle, where the Python loop spins forever; so the number
    of keys plus one is fuel enough for every walk that ends. *)
Definition fuel_of (pm : gmap Z Z) : nat := S (size pm).

Definition find (s : t) (p : Z) : result (Z * t) :=
  q ← find_root (fuel_of (parent_map s)) (parent_map s) p;
  m ← compress (fuel_of (parent_map s)) (parent_map s) (sz_map s) p q;
  Ok (q, {| _count := _count s; parent_map := m.1; sz_map := m.2 |}).

Definition union (s : t) (p q : Z) : result t :=
  '(p_root, s1) ← find s p;
  '(q_root, s2) ← find s1 q;
  if bool_decide (q_root = p_root) then Ok s2
  else
    sz_p ← getitem (sz_map s2) p_root;
    sz_q ← getitem (sz_map s2) q_root;
    if bool_decide (sz_p < sz_q)
    then Ok {| _count := _count s2 - 1;
               parent_map := <[p_root := q_root]> (parent_map s2);
               sz_map := <[q_root := sz_p + sz_q]> (sz_map s2) |}
    else Ok {| _count := _count s2 - 1;
               parent_map := <[q_root := p_root]> (parent_map s2);
               sz_map := <[p_root := sz_p + sz_q]> (sz_map s2) |}.

Definition is_connected (s : t) (p q : Z) : result (bool * t) :=
  '(p_root, s1) ← find s p;
  '(q_root, s2) ← find s1 q;
  Ok (bool_decide (p_root = q_root), s2).

Definition count (s : t) : Z := _count s.

End DSet.

(** ** numpy: arrays indexed by integers, and the random module *)

(** A [for] loop whose body may raise. *)
Fixpoint for_each {A S : Type} (body : S → A → result S) (s : S) (l : list A)
  : result S :=
  match l with
  | [] => Ok s
  | a :: l' => s' ← body s a; for_each body s' l'
  end.

(** An index into an axis of length [len]: negative indices count from
    the end, anything else out of bounds raises. *)
Definition np_index (len : nat) (i : Z) : result nat :=
  let j := if bool_decide (i < 0) then i + Z.of_nat len else i in
  if bool_decide (0 ≤ j < Z.of_nat len) then Ok (Z.to_nat j) else Raise IndexError.

(** [numpy.ones((width, height))]: [width] rows of [height] ones. *)
Definition ones (width height : Z) : list (list Z) :=
  replicate (Z.to_nat width) (replicate (Z.to_nat height) 1).

(** [grid[x][y]] and [grid[x][y] = v]. *)
Definition grid_getitem (g : list (list Z)) (x y : Z) : result Z :=
  i ← np_index (length g) x;
  match g !! i with
  | None => Raise IndexError
  | Some row =>
      j ← np_index (length row) y;
      match row !! j with
      | None => Raise IndexError
      | Some v => Ok v
      end
  end.

Definition grid_setitem (g : list (list Z)) (x y v : Z) : result (list (list Z)) :=
  i ← np_index (length g) x;
  match g !! i with
  | None => Raise IndexError
  | Some row =>
      j ← np_index (length row) y;
      Ok (<[i := <[j := v]> row]> g)
  end.

(** [ls[i]] on a Python list. *)
Definition list_getitem {A : Type} (l : list A) (i : Z) : result A :=
  j ← np_index (length l) i;
  match l !! j with
  | None => Raise IndexError
  | Some a => Ok a
  end.

(** The three calls the generator makes to [numpy.random], each made
    once, as the answers of the generator in use.  [numpy_random] is
    what numpy documents about them: [shuffle] permutes its argument,
    [randint(low, high)] lies in the half-open interval [[low, high)],
    and [choice(a, size, False)] is [size] distinct elements of
    [arange(a)]. *)
Record RandomSource : Type := {
  rs_shuffle : list (Z * Z) → list (Z * Z);
  rs_randint : Z → Z → Z;
  rs_choice : Z → Z → list Z;
}.

Record numpy_random (rs : RandomSource) : Prop := {
  shuffle_perm : ∀ l, rs_shuffle rs l ≡ₚ l;
  randint_range : ∀ low high, low < high → low ≤ rs_randint rs low high < high;
  choice_length : ∀ a size, 0 ≤ size ≤ a → Z.of_nat (length (rs_choice rs a size)) = size;
  choice_NoDup : ∀ a size, 0 ≤ size ≤ a → NoDup (rs_choice rs a size);
  choice_range : ∀ a size i, 0 ≤ size ≤ a → i ∈ rs_choice rs a size → 0 ≤ i < a;
}.

(** [random.randint(low, high)] raises [ValueError] when [low >= high]. *)
Definition randint (rs : RandomSource) (low high : Z) : result Z :=
  if bool_decide (low < high) then Ok (rs_randint rs low high) else Raise ValueError.

(** [random.choice(a, size, False)] raises [ValueError] on an empty
    population and on a sample larger than the population. *)
Definition choice (rs : RandomSource) (a size : Z) : result (list Z) :=
  if bool_decide (0 < a ∧ 0 ≤ size ≤ a) then Ok (rs_choice rs a size) else Raise ValueError.

(** ** cell_dset.py: class MazeCellDSet *)

Module MazeCellDSet.

Record t : Type := Build {
  width : Z;
  height : Z;
  index_map : gmap Z Z;
  dset : DSet.t;
}.

(** [enumerate(point_ls)] *)
Definition enumerate {A : Type} (l : list A) : list (Z * A) :=
  zip (seqZ 0 (Z.of_nat (length l))) l.

Definition init_step (width : Z) (m : gmap Z Z) (ip : Z * (Z * Z)) : gmap Z Z :=
  let '(i, (x, y)) := ip in
  let index := x + y * width in
  <[index := i]> m.

Definition init (point_ls : list (Z * Z)) (width height : Z) : t :=
  {| width := width;
     height := height;
     index_map := foldl (init_step width) ∅ (enumerate point_ls);
     dset := DSet.init (Z.of_nat (length point_ls)) |}.

Definition with_dset (s : t) (d : DSet.t) : t :=
  {| width := width s; height := height s; index_map := index_map s; dset := d |}.

Definition _find (s : t) (x y : Z) : result (Z * t) :=
  let index := x + y * width s in
  i ← getitem (index_map s) index;
  '(r, d) ← DSet.find (dset s) i;
  Ok (r, with_dset s d).

Definition is_connected (s : t) (x1 y1 x2 y2 : Z) : result (bool * t) :=
  '(r1, s1) ← _find s x1 y1;
  '(r2, s2) ← _find s1 x2 y2;
  Ok (bool_decide (r1 = r2), s2).

Definition union (s : t) (x1 y1 x2 y2 : Z) : result t :=
  let index1 := x1 + y1 * width s in
  let index2 := x2 + y2 * width s in
  i1 ← getitem (index_map s) index1;
  i2 ← getitem (index_map s) index2;
  d ← DSet.union (dset s) i1 i2;
  Ok (with_dset s d).

Definition count (s : t) : Z := DSet.count (dset s).

End MazeCellDSet.

(** ** kruskal_gen.py: class KruskalMaze *)

Module KruskalMaze.

Record t : Type := Build {
  height : Z;
  width : Z;
  index_ls : list Z;
  grid : list (list Z);
}.

(** The two guards at the head of [__init__]. *)
Definition check_dimensions (width height : Z) : result unit :=
  if bool_decide (height `mod` 2 = 0 ∨ height < 3) then Raise IllegalHeight
  else if bool_decide (width `mod` 2 = 0 ∨ width < 3) then Raise IllegalWidth
  else Ok ().

(** The three list comprehensions. *)
Definition cell_ls (width height : Z) : list (Z * Z) :=
  x ← range2 0 width; y ← range2 0 height; [(x, y)].

Definition not_care_ls (width height : Z) : list (Z * Z) :=
  x ← range2 1 width; y ← range2 1 height; [(x, y)].

Definition wall_ls (width height : Z) : list (Z * Z) :=
  (x ← range2 1 width; y ← range2 0 height; [(x, y)])
  ++ (x ← range2 0 width; y ← range2 1 height; [(x, y)]).

(** [for x, y in cell_ls: self.grid[x][y] = 0] *)
Definition open_cell (g : list (list Z)) (c : Z * Z) : result (list (list Z)) :=
  grid_setitem g c.1 c.2 0.

(** The values of [self.grid] and [cell_dset] while the walls are visited. *)
Definition frame : Type := list (list Z) * MazeCellDSet.t.

(** The body of [for x, y in wall_ls], below the [break] test. *)
Definition carve_step (st : frame) (c : Z * Z) : result frame :=
  let '(g, cell_dset) := st in
  let '(x, y) := c in
  if bool_decide (x `mod` 2 = 1) then
    let x1 := x - 1 in
    let x2 := x + 1 in
    '(b, cell_dset) ← MazeCellDSet.is_connected cell_dset x1 y x2 y;
    if negb b then
      cell_dset ← MazeCellDSet.union cell_dset x1 y x2 y;
      g ← grid_setitem g x y 0;
      Ok (g, cell_dset)
    else Ok (g, cell_dset)
  else
    let y1 := y - 1 in
    let y2 := y + 1 in
    '(b, cell_dset) ← MazeCellDSet.is_connected cell_dset x y1 x y2;
    if negb b then
      g ← grid_setitem g x y 0;
      cell_dset ← MazeCellDSet.union cell_dset x y1 x y2;
      Ok (g, cell_dset)
    else Ok (g, cell_dset).

(** [for x, y in wall_ls: if cell_dset.count() == 1: break; ...] *)
Fixpoint carve (st : frame) (walls : list (Z * Z)) : result frame :=
  match walls with
  | [] => Ok st
  | c :: walls' =>
      if bool_decide (MazeCellDSet.count st.2 = 1) then Ok st
      else st' ← carve_step st c; carve st' walls'
  end.

(** The body of [for i in random.choice(...)]. *)
Definition open_dot (not_care : list (Z * Z)) (g : list (list Z)) (i : Z)
  : result (list (list Z)) :=
  c ← list_getitem not_care i;
  grid_setitem g c.1 c.2 0.

(** Lines 66 to 69: the junction dots opened after the loop. *)
Definition additional_wall (rs : RandomSource) (width height : Z) : result Z :=
  randint rs 0 (Z.of_nat (length (not_care_ls width height))).

Definition cosmetic (rs : RandomSource) (width height : Z) (g : list (list Z))
  : result (list (list Z)) :=
  let not_care := not_care_ls width height in
  k ← additional_wall rs width height;
  idx ← choice rs (Z.of_nat (length not_care)) k;
  for_each (open_dot not_care) g idx.

(** Lines 41 to 65: the grid and the disjoint set when the loop over the
    walls is left. *)
Definition carved (rs : RandomSource) (width height : Z) : result frame :=
  let g := ones width height in
  let cells := cell_ls width height in
  g ← for_each open_cell g cells;
  let cell_dset := MazeCellDSet.init cells width height in
  let walls := rs_shuffle rs (wall_ls width height) in
  carve (g, cell_dset) walls.

(** [__init__], returning the object built together with the last value
    of its local variable [cell_dset]. *)
Definition init_frame (rs : RandomSource) (width height : Z) : result (t * MazeCellDSet.t) :=
  _ ← check_dimensions width height;
  let count := height * width in
  let index_ls := seqZ 1 (count - 1) in
  '(g, cell_dset) ← carved rs width height;
  g ← cosmetic rs width height g;
  Ok ({| height := height; width := width; index_ls := index_ls; grid := g |}, cell_dset).

Definition init (rs : RandomSource) (width height : Z) : result t :=
  fst <$> init_frame rs width height.

End KruskalMaze.


(** ** Vocabulary of the statements about the disjoint set *)

(** [path pm p r k]: following [pm] from [p] reaches the root [r] (an
    element that is its own parent) after [k] steps. *)
Inductive path (pm : gmap Z Z) : Z → Z → nat → Prop :=
| path_root r : pm !! r = Some r → path pm r r 0
| path_step p p' r k :
    pm !! p = Some p' → p ≠ p' → path pm p' r k → path pm p r (S k).

Definition root_of (pm : gmap Z Z) (p r : Z) : Prop := ∃ k, path pm p r k.

(** [visits pm p y]: the walk along parents that starts at [p] passes
    through [y]. *)
Inductive visits (pm : gmap Z Z) : Z → Z → Prop :=
| visits_here p : visits pm p p
| visits_next p p' y :
    pm !! p = Some p' → p ≠ p' → visits pm p' y → visits pm p y.

Definition same_set (s : DSet.t) (p q : Z) : Prop :=
  ∃ r, root_of (DSet.parent_map s) p r ∧ root_of (DSet.parent_map s) q r.

(** The roots of a parent map, and their number. *)
Definition roots (pm : gmap Z Z) : gmap Z Z :=
  filter (λ kv : Z * Z, kv.1 = kv.2) pm.

Definition num_roots (pm : gmap Z Z) : nat := size (roots pm).

(** The elements of [[0, n)] whose walk ends in [r]: the tree of [r]. *)
Definition tree_of (n : Z) (pm : gmap Z Z) (r : Z) : list Z :=
  filter (λ x, DSet.find_root (DSet.fuel_of pm) pm x = Ok r) (seqZ 0 n).

(** A disjoint set over the elements [[0, n)] in which every walk along
    parents ends in a root. *)
Record wf (n : Z) (s : DSet.t) : Prop := {
  wf_dom : ∀ p, is_Some (DSet.parent_map s !! p) ↔ 0 ≤ p < n;
  wf_root : ∀ p, 0 ≤ p < n → ∃ r, root_of (DSet.parent_map s) p r;
  wf_sz : ∀ p, 0 ≤ p < n → is_Some (DSet.sz_map s !! p);
}.

(** What one [find] that answers [q] may do to the two dictionaries:
    walks never get longer, and an entry either is as before or belonged
    to an element that was no root, which now points to [q] with
    recorded size 2. *)
Definition compressed_to (q : Z) (pm sz pm' sz' : gmap Z Z) : Prop :=
  pm !! q = Some q ∧
  (∀ y r k, path pm y r k → ∃ k', (k' ≤ k)%nat ∧ path pm' y r k') ∧
  (∀ y, (pm' !! y = pm !! y ∧ sz' !! y = sz !! y) ∨
        (∃ y', pm !! y = Some y' ∧ y ≠ y' ∧ pm' !! y = Some q ∧ sz' !! y = Some 2)).

(** Two states with the same count, the same roots and the same root for
    every element: what find and is_connected leave behind. *)
Record same_partition (s s' : DSet.t) : Prop := {
  sp_count : DSet._count s' = DSet._count s;
  sp_root_of : ∀ y r, root_of (DSet.parent_map s) y r → root_of (DSet.parent_map s') y r;
  sp_dom : ∀ y, is_Some (DSet.parent_map s' !! y) ↔ is_Some (DSet.parent_map s !! y);
  sp_roots : ∀ y, DSet.parent_map s' !! y = Some y ↔ DSet.parent_map s !! y = Some y;
  sp_sz_dom : ∀ y, is_Some (DSet.sz_map s !! y) → is_Some (DSet.sz_map s' !! y);
  sp_sz_root : ∀ y, DSet.parent_map s !! y = Some y → DSet.sz_map s' !! y = DSet.sz_map s !! y;
}.

(** The undirected graph with an edge for every pair of a list, and its
    connected components. *)
Definition edge {V : Type} (E : list (V * V)) : relation V := λ a b, (a, b) ∈ E.

Definition connected {V : Type} (E : list (V * V)) : relation V := rtsc (edge E).

(** [chain R a l b]: the vertices [a :: l] form a walk from [a] to [b]
    along [R]; it is a simple path when no vertex occurs twice. *)
Fixpoint chain {V : Type} (R : relation V) (a : V) (l : list V) (b : V) : Prop :=
  match l with
  | [] => a = b
  | x :: l' => R a x ∧ chain R x l' b
  end.

Definition simple_path {V : Type} (E : list (V * V)) (a : V) (l : list V) (b : V) : Prop :=
  chain (sc (edge E)) a l b ∧ NoDup (a :: l).

(** A graph built edge by edge, each edge joining two components. *)
Inductive forest {V : Type} : list (V * V) → Prop :=
| forest_nil : forest []
| forest_cons u v E : forest E → ¬ connected E u v → forest ((u, v) :: E).

(** What holds of a disjoint set over [[0, n)] after a run of calls whose
    unions are the edges [E]. *)
Record inv (n : Z) (E : list (Z * Z)) (s : DSet.t) : Prop := {
  inv_wf : wf n s;
  inv_conn : ∀ x y, 0 ≤ x < n → 0 ≤ y < n → same_set s x y ↔ connected E x y;
  inv_count : DSet._count s = Z.of_nat (num_roots (DSet.parent_map s));
  inv_size : ∀ r, DSet.parent_map s !! r = Some r →
             DSet.sz_map s !! r = Some (Z.of_nat (length (tree_of n (DSet.parent_map s) r)));
}.

(** Calls on a disjoint set, their answers, and a run of calls. *)
Inductive call : Type :=
| Union (p q : Z)
| Find (p : Z)
| IsConnected (p q : Z)
| Count.

Inductive answer : Type :=
| ANone
| ARoot (r : Z)
| ABool (b : bool)
| AInt (c : Z).

Definition exec (s : DSet.t) (c : call) : result (answer * DSet.t) :=
  match c with
  | Union p q => s' ← DSet.union s p q; Ok (ANone, s')
  | Find p => '(r, s') ← DSet.find s p; Ok (ARoot r, s')
  | IsConnected p q => '(b, s') ← DSet.is_connected s p q; Ok (ABool b, s')
  | Count => Ok (AInt (DSet.count s), s)
  end.

Fixpoint run (s : DSet.t) (cs : list call) : result (list answer * DSet.t) :=
  match cs with
  | [] => Ok ([], s)
  | c :: cs' =>
      '(a, s') ← exec s c;
      '(as', s'') ← run s' cs';
      Ok (a :: as', s'')
  end.

Definition in_range (n : Z) (c : call) : Prop :=
  match c with
  | Union p q | IsConnected p q => (0 ≤ p < n) ∧ (0 ≤ q < n)
  | Find p => 0 ≤ p < n
  | Count => True
  end.

(** The edges a run of calls adds to the graph: one per [union]. *)
Fixpoint union_edges (cs : list call) : list (Z * Z) :=
  match cs with
  | [] => []
  | Union p q :: cs' => (p, q) :: union_edges cs'
  | _ :: cs' => union_edges cs'
  end.

(** An element whose parent is a root: it hangs at height at most 1. *)
Definition flat_at (pm : gmap Z Z) (y : Z) : Prop :=
  ∃ r, pm !! y = Some r ∧ pm !! r = Some r.

(** The state a run of calls leaves behind (the starting state if a call
    raises). *)
Definition state_after (s : DSet.t) (cs : list call) : DSet.t :=
  match run s cs with
  | Ok (_, s') => s'
  | Raise _ => s
  end.

(** ** Vocabulary of the statements about the maze *)

(** A grid of [W] rows of [H] cells, the cells inside it, and the value
    of a cell. *)
Definition shape (W H : Z) (g : list (list Z)) : Prop :=
  Z.of_nat (length g) = W ∧ ∀ row, row ∈ g → Z.of_nat (length row) = H.

Definition in_grid (W H : Z) (c : Z * Z) : Prop := 0 ≤ c.1 < W ∧ 0 ≤ c.2 < H.

Definition cell_at (g : list (list Z)) (c : Z * Z) : result Z := grid_getitem g c.1 c.2.

(** [opens W H g c g']: the assignment [grid[c] = 0] turns [g] into
    [g']; the cell was a wall (1), is a passage (0) afterwards, and no
    other cell changes. *)
Definition opens (W H : Z) (g : list (list Z)) (c : Z * Z) (g' : list (list Z)) : Prop :=
  cell_at g c = Ok 1 ∧ grid_setitem g c.1 c.2 0 = Ok g' ∧ cell_at g' c = Ok 0 ∧
  ∀ c', in_grid W H c' → c' ≠ c → cell_at g' c' = cell_at g c'.

(** The key of a cell in [index_map], and the element of the disjoint
    set that stands for a room. *)
Definition raw_index (W : Z) (c : Z * Z) : Z := c.1 + c.2 * W.

Definition id_of (W H : Z) (c : Z * Z) : Z :=
  default 0 (MazeCellDSet.index_map
               (MazeCellDSet.init (KruskalMaze.cell_ls W H) W H) !! raw_index W c).

(** The two rooms a wall candidate lies between, as [carve_step]
    computes them. *)
Definition ends (c : Z * Z) : (Z * Z) * (Z * Z) :=
  if bool_decide (c.1 `mod` 2 = 1)
  then ((c.1 - 1, c.2), (c.1 + 1, c.2))
  else ((c.1, c.2 - 1), (c.1, c.2 + 1)).

(** The graph of the maze: two rooms are joined when the wall candidate
    between them is a passage. *)
Definition passage (W H : Z) (g : list (list Z)) : relation (Z * Z) := λ a b,
  ∃ c, c ∈ KruskalMaze.wall_ls W H ∧ cell_at g c = Ok 0 ∧
       (ends c = (a, b) ∨ ends c = (b, a)).

(** The number of wall candidates that are passages. *)
Definition open_walls (W H : Z) (g : list (list Z)) : nat :=
  length (filter (λ c, cell_at g c = Ok 0) (KruskalMaze.wall_ls W H)).

(** The edges of the opened walls, between rooms and between the
    elements that stand for them. *)
Definition room_edges (opened : list (Z * Z)) : list ((Z * Z) * (Z * Z)) :=
  ends <$> opened.

Definition id_edges (W H : Z) (opened : list (Z * Z)) : list (Z * Z) :=
  (λ e, (id_of W H e.1, id_of W H e.2)) <$> room_edges opened.

(** What holds while the walls are visited: [visited] are the walls
    seen so far, [opened] those among them that were opened. *)
Record carve_inv (W H : Z) (visited opened : list (Z * Z)) (st : KruskalMaze.frame)
  : Prop := {
  ci_width : MazeCellDSet.width st.2 = W;
  ci_index : MazeCellDSet.index_map st.2
             = MazeCellDSet.index_map (MazeCellDSet.init (KruskalMaze.cell_ls W H) W H);
  ci_dset : inv (Z.of_nat (length (KruskalMaze.cell_ls W H))) (id_edges W H opened)
                (MazeCellDSet.dset st.2);
  ci_shape : shape W H st.1;
  ci_cells : ∀ c, in_grid W H c →
             cell_at st.1 c
             = Ok (if decide (c ∈ KruskalMaze.cell_ls W H ∨ c ∈ opened) then 0 else 1);
  ci_walls : ∀ c, c ∈ visited → c ∈ KruskalMaze.wall_ls W H;
  ci_opened : opened ⊆ visited;
  ci_nodup : NoDup opened;
  ci_forest : forest (room_edges opened);
  ci_count : MazeCellDSet.count st.2
             = Z.of_nat (length (KruskalMaze.cell_ls W H)) - Z.of_nat (length opened);
  ci_visited : ∀ c, c ∈ visited → connected (room_edges opened) (ends c).1 (ends c).2;
}.

(** A generator for the examples: it leaves the list as it is, draws the
    lower bound, and chooses the first indices. *)
Definition rs_first : RandomSource :=
  {| rs_shuffle := λ l, l;
     rs_randint := λ low high, low;
     rs_choice := λ a size, seqZ 0 size |}.

(** Another one: it reverses the list, draws the largest value allowed,
    and chooses the first indices. *)
Definition rs_last : RandomSource :=
  {| rs_shuffle := λ l, reverse l;
     rs_randint := λ low high, high - 1;
     rs_choice := λ a size, seqZ 0 size |}.

(** The junction dots with the indices [idx], as the last loop reads them. *)
Definition dots_of (not_care : list (Z * Z)) (idx : list Z) : list (Z * Z) :=
  (λ i, default (0, 0) (not_care !! Z.to_nat i)) <$> idx.

(** A perfect maze: one passage fewer than rooms, and between any two
    rooms exactly one simple path of passages. *)
Definition perfect_maze (W H : Z) (g : list (list Z)) : Prop :=
  Z.of_nat (open_walls W H g) = Z.of_nat (length (KruskalMaze.cell_ls W H)) - 1 ∧
  ∀ a b, a ∈ KruskalMaze.cell_ls W H → b ∈ KruskalMaze.cell_ls W H →
    ∃ l, chain (passage W H g) a l b ∧ NoDup (a :: l) ∧
         ∀ l', chain (passage W H g) a l' b → NoDup (a :: l') → l' = l.

(** A generator that draws [k0] whenever numpy allows it. *)
Definition rs_draw (k0 : Z) : RandomSource :=
  {| rs_shuffle := λ l, l;
     rs_randint := λ low high, if bool_decide (low ≤ k0 < high) then k0 else low;
     rs_choice := λ a size, seqZ 0 size |}.

(** ** disjoint_set.py: class QuickUnionDisjointSet *)

Module QuickUnionDisjointSet.

Record t : Type := Build {
  _count : Z;
  parent_map : gmap Z Z;
}.

(** [__init__]: [for i in range(n): self.parent_map[i] = i]. *)
Definition init (n : Z) : t :=
  {| _count := n; parent_map := foldl (λ m i, <[i := i]> m) ∅ (range n) |}.

(** [find]: [while p != self.parent_map[p]: p = self.parent_map[p]].
    This is the first loop of the weighted [find]; nothing is written. *)
Definition find (s : t) (p : Z) : result Z :=
  DSet.find_root (DSet.fuel_of (parent_map s)) (parent_map s) p.

Definition union (s : t) (p q : Z) : result t :=
  p_root ← find s p;
  q_root ← find s q;
  if bool_decide (q_root = p_root) then Ok s
  else Ok {| _count := _count s - 1;
             parent_map := <[p_root := q_root]> (parent_map s) |}.

Definition is_connected (s : t) (p q : Z) : result bool :=
  p_root ← find s p;
  q_root ← find s q;
  Ok (bool_decide (p_root = q_root)).

Definition count (s : t) : Z := _count s.

(** A call, and a run of calls, as [exec] and [run] have them for the
    weighted class. *)
Definition exec (s : t) (c : call) : result (answer * t) :=
  match c with
  | Union p q => s' ← union s p q; Ok (ANone, s')
  | Find p => r ← find s p; Ok (ARoot r, s)
  | IsConnected p q => b ← is_connected s p q; Ok (ABool b, s)
  | Count => Ok (AInt (count s), s)
  end.

Fixpoint run (s : t) (cs : list call) : result (list answer * t) :=
  match cs with
  | [] => Ok ([], s)
  | c :: cs' =>
      '(a, s') ← exec s c;
      '(as', s'') ← run s' cs';
      Ok (a :: as', s'')
  end.

End QuickUnionDisjointSet.

(** What holds of a quick-union structure over [[0, n)] after a run of
    calls whose unions are the edges [E]. *)
Record qu_inv (n : Z) (E : list (Z * Z)) (s : QuickUnionDisjointSet.t) : Prop := {
  qu_dom : ∀ p, is_Some (QuickUnionDisjointSet.parent_map s !! p) ↔ 0 ≤ p < n;
  qu_root : ∀ p, 0 ≤ p < n → ∃ r, root_of (QuickUnionDisjointSet.parent_map s) p r;
  qu_conn : ∀ x y r r', 0 ≤ x < n → 0 ≤ y < n →
            root_of (QuickUnionDisjointSet.parent_map s) x r →
            root_of (QuickUnionDisjointSet.parent_map s) y r' →
            r = r' ↔ connected E x y;
  qu_count : QuickUnionDisjointSet._count s
             = Z.of_nat (num_roots (QuickUnionDisjointSet.parent_map s));
}.

(** What a caller can tell apart: the representative [find] names is
    the implementation's choice, every other answer is not. *)
Definition observable (a : answer) : answer :=
  match a with
  | ARoot _ => ANone
  | _ => a
  end.

(** The calls [union(0, 1), union(0, 2), ..., union(0, k)]. *)
Definition unions_from_zero (k : nat) : list call :=
  (λ i, Union 0 i) <$> seqZ 1 (Z.of_nat k).

(** A weighted structure is balanced when a walk of [k] steps ends in a
    root whose recorded size is at least [2 ^ k]. *)
Definition balanced (s : DSet.t) : Prop :=
  ∀ y r k v, path (DSet.parent_map s) y r k → DSet.sz_map s !! r = Some v →
             2 ^ Z.of_nat k ≤ v.

(** ** disjoint_set.py: class QuickFindDisjointSet *)

Module QuickFindDisjointSet.

(** What the class uses as a key of [parent_map]: the integers of
    [__init__] and [find], and in [union] the items [(key, value)] that
    [self.parent_map.items()] yields. *)
Inductive key : Type :=
| KInt (i : Z)
| KItem (k : key) (v : Z).

#[export] Instance key_eq_dec : EqDecision key.
Proof. solve_decision. Defined.

(** A dictionary, its entries in insertion order. *)
Definition dict : Type := list (key * Z).

Fixpoint lookup (d : dict) (k : key) : option Z :=
  match d with
  | [] => None
  | (k', v) :: d' => if decide (k' = k) then Some v else lookup d' k
  end.

(** [d[k] = v]: a key that is there keeps its place, a new one goes to
    the end. *)
Fixpoint setitem (d : dict) (k : key) (v : Z) : dict :=
  match d with
  | [] => [(k, v)]
  | (k', v') :: d' =>
      if decide (k' = k) then (k', v) :: d' else (k', v') :: setitem d' k v
  end.

(** The exceptions of the class: [KeyError] and the like, and the
    [RuntimeError] of a dictionary that changes size while a loop runs
    over it. *)
Inductive exn : Type :=
| Builtin (e : error)
| RuntimeError.

Inductive outcome (A : Type) : Type :=
| Returns (a : A)
| Raises (e : exn).

Arguments Returns {A} a.
Arguments Raises {A} e.

#[export] Instance outcome_bind : MBind outcome := λ A B f m,
  match m with
  | Returns a => f a
  | Raises e => Raises e
  end.

Definition getitem (d : dict) (k : key) : outcome Z :=
  match lookup d k with
  | Some v => Returns v
  | None => Raises (Builtin KeyError)
  end.

Record t : Type := Build {
  _count : Z;
  parent_map : dict;
}.

(** [__init__]: [for i in range(1, n): self.parent_map[i] = i]. *)
Definition init (n : Z) : t :=
  {| _count := n;
     parent_map := foldl (λ d i, setitem d (KInt i) i) [] (seqZ 1 (n - 1)) |}.

Definition find (s : t) (p : Z) : outcome Z := getitem (parent_map s) (KInt p).

(** [for i in self.parent_map.items():
       if self.parent_map[i] == p_id: self.parent_map[i] = q_id].
    Each step of the iterator first checks that the dictionary still has
    the [size] entries it had when the loop began; step [j] then yields
    the [j]-th entry as it is now, and the body uses that pair as a key.
    [remaining] counts the entries not yet yielded. *)
Fixpoint items_loop (remaining j size : nat) (p_id q_id : Z) (d : dict) : outcome dict :=
  if bool_decide (length d ≠ size) then Raises RuntimeError
  else
    match remaining with
    | O => Returns d
    | S remaining' =>
        match d !! j with
        | None => Returns d
        | Some i =>
            v ← getitem d (KItem i.1 i.2);
            items_loop remaining' (S j) size p_id q_id
              (if bool_decide (v = p_id) then setitem d (KItem i.1 i.2) q_id else d)
        end
    end.

Definition union (s : t) (p q : Z) : outcome t :=
  p_id ← find s p;
  q_id ← find s q;
  if bool_decide (q_id = p_id) then Returns s
  else
    d ← items_loop (length (parent_map s)) 0 (length (parent_map s)) p_id q_id (parent_map s);
    Returns {| _count := _count s - 1; parent_map := d |}.

Definition is_connected (s : t) (p q : Z) : outcome bool :=
  p_id ← find s p;
  q_id ← find s q;
  Returns (bool_decide (p_id = q_id)).

Definition count (s : t) : Z := _count s.

End QuickFindDisjointSet.

(** ** disjoint_set.py: the test drivers *)

(** The drivers read a file whose first line is [array_len] and whose
    other lines are pairs [p q]; the file is given here as that number
    and the list of the pairs.  What a driver prints is kept as the
    list of the pairs printed, in order, and the number of the line
    ["%s components"]. *)

(** The body of [for line in f] in [test_tiny_quick_union] and
    [test_medium_quick_union]. *)
Definition quick_union_line (st : QuickUnionDisjointSet.t * list (Z * Z)) (pq : Z * Z)
  : result (QuickUnionDisjointSet.t * list (Z * Z)) :=
  let '(uf, printed) := st in
  let '(p, q) := pq in
  b ← QuickUnionDisjointSet.is_connected uf p q;
  if (b : bool) then Ok (uf, printed)
  else uf ← QuickUnionDisjointSet.union uf p q; Ok (uf, printed ++ [(p, q)]).

Definition test_tiny_quick_union (array_len : Z) (pairs : list (Z * Z))
  : result (list (Z * Z) * Z * QuickUnionDisjointSet.t) :=
  '(uf, printed) ← for_each quick_union_line (QuickUnionDisjointSet.init array_len, []) pairs;
  Ok (printed, QuickUnionDisjointSet.count uf, uf).

(** The same body in the two drivers of the weighted class. *)
Definition weight_quick_union_line (st : DSet.t * list (Z * Z)) (pq : Z * Z)
  : result (DSet.t * list (Z * Z)) :=
  let '(uf, printed) := st in
  let '(p, q) := pq in
  '(b, uf) ← DSet.is_connected uf p q;
  if (b : bool) then Ok (uf, printed)
  else uf ← DSet.union uf p q; Ok (uf, printed ++ [(p, q)]).

(** [for i in range(array_len): uf.find(i)] *)
Definition find_all (uf : DSet.t) (array_len : Z) : result DSet.t :=
  for_each (λ uf i, snd <$> DSet.find uf i) uf (range array_len).

Definition test_tiny_weight_quick_union (array_len : Z) (pairs : list (Z * Z))
  : result (list (Z * Z) * Z * DSet.t) :=
  '(uf, printed) ← for_each weight_quick_union_line (DSet.init array_len, []) pairs;
  uf ← find_all uf array_len;
  Ok (printed, DSet.count uf, uf).

(** [value_map = {}; for value in uf.parent_map.values():
    value_map[value] = True]: the dictionary does not depend on the
    order of the values. *)
Definition value_map_of (pm : gmap Z Z) : gmap Z bool :=
  map_fold (λ _ value m, <[value := true]> m) ∅ pm.

Definition test_test_medium_weight_quick_union (array_len : Z) (pairs : list (Z * Z))
  : result (list (Z * Z) * Z * gmap Z bool) :=
  '(uf, printed) ← for_each weight_quick_union_line (DSet.init array_len, []) pairs;
  uf ← find_all uf array_len;
  Ok (printed, DSet.count uf, value_map_of (DSet.parent_map uf)).

(** The pairs of a file that name elements of [[0, n)]. *)
Definition pairs_in_range (n : Z) (pairs : list (Z * Z)) : Prop :=
  Forall (λ pq, (0 ≤ pq.1 < n) ∧ (0 ≤ pq.2 < n)) pairs.

(** ** More vocabulary for the maze *)

(** Kruskal's pass over a list of wall candidates: a candidate is
    opened exactly when the walls opened before it do not join its two
    rooms yet.  [kruskal opened walls opened'] takes the walls opened
    so far to those opened after the pass. *)
Inductive kruskal : list (Z * Z) → list (Z * Z) → list (Z * Z) → Prop :=
| kruskal_nil opened : kruskal opened [] opened
| kruskal_skip opened c walls opened' :
    connected (room_edges opened) (ends c).1 (ends c).2 →
    kruskal opened walls opened' → kruskal opened (c :: walls) opened'
| kruskal_open opened c walls opened' :
    ¬ connected (room_edges opened) (ends c).1 (ends c).2 →
    kruskal (c :: opened) walls opened' → kruskal opened (c :: walls) opened'.

(** Two cells side by side, and a step in a grid of [W] rows of [H]
    cells: from a cell inside the grid to one of its four neighbours
    inside the grid, both being passages.  The bounds matter, since a
    negative index reads a cell from the other end of the grid. *)
Definition adjacent (a b : Z * Z) : Prop :=
  Z.abs (a.1 - b.1) + Z.abs (a.2 - b.2) = 1.

Definition open_step (W H : Z) (g : list (list Z)) : relation (Z * Z) := λ a b,
  in_grid W H a ∧ in_grid W H b ∧ adjacent a b ∧ cell_at g a = Ok 0 ∧ cell_at g b = Ok 0.

(** ** The error monad *)

Lemma bind_Ok {A B : Type} (f : A → result B) (a : A) : Ok a ≫= f = f a.
Proof. reflexivity. Qed.

Lemma bind_inv {A B : Type} (f : A → result B) (m : result A) (b : B) :
  m ≫= f = Ok b → ∃ a, m = Ok a ∧ f a = Ok b.
Proof. destruct m as [a|e]; [intros H; by exists a | discriminate]. Qed.

Lemma getitem_Some (d : gmap Z Z) (k v : Z) : d !! k = Some v → getitem d k = Ok v.
Proof. unfold getitem. by intros ->. Qed.

(** ** Walks along parents *)

Lemma path_det (pm : gmap Z Z) p r k r' k' :
  path pm p r k → path pm p r' k' → r = r' ∧ k = k'.
Proof.
  intros H; revert r' k'.
  induction H as [r Hr | p p' r k Hp Hne H IH]; intros r' k' H'.
  - inversion H'; subst; [done | congruence].
  - inversion H' as [? Hr | ? p'' ? k'' Hp' Hne' H'']; subst; [congruence|].
    assert (p'' = p') as -> by congruence.
    by destruct (IH _ _ H'') as [-> ->].
Qed.

Lemma root_of_det (pm : gmap Z Z) p r r' : root_of pm p r → root_of pm p r' → r = r'.
Proof. intros [k H] [k' H']. by destruct (path_det _ _ _ _ _ _ H H'). Qed.

Lemma path_is_root (pm : gmap Z Z) p r k : path pm p r k → pm !! r = Some r.
Proof. induction 1; done. Qed.

Lemma path_lookup (pm : gmap Z Z) p r k : path pm p r k → is_Some (pm !! p).
Proof. destruct 1; eauto. Qed.

Lemma root_of_root (pm : gmap Z Z) r : pm !! r = Some r → root_of pm r r.
Proof. intros H. exists 0%nat. by constructor. Qed.

Lemma root_of_is_root (pm : gmap Z Z) p r : root_of pm p r → pm !! r = Some r.
Proof. intros [k H]. by eapply path_is_root. Qed.

Lemma root_of_root_eq (pm : gmap Z Z) r r' : pm !! r = Some r → root_of pm r r' → r' = r.
Proof. intros H H'. eapply root_of_det; [done | by apply root_of_root]. Qed.

(** Removing an element that lies farther from the root than [y] keeps
    the walk of [y]. *)
Lemma path_delete (pm : gmap Z Z) x y r k :
  path pm y r k → (∀ r' j, path pm x r' j → (k < j)%nat) → path (delete x pm) y r k.
Proof.
  induction 1 as [r Hr | p p' r k Hp Hne H IH]; intros Hx.
  - apply path_root. rewrite lookup_delete_ne; [done|].
    intros ->. specialize (Hx r 0%nat (path_root _ _ Hr)). lia.
  - assert (x ≠ p).
    { intros ->. specialize (Hx r (S k) (path_step _ _ _ _ _ Hp Hne H)). lia. }
    eapply path_step; [by rewrite lookup_delete_ne | done |].
    apply IH. intros r' j Hj. specialize (Hx _ _ Hj). lia.
Qed.

(** A walk visits each key at most once, so it is shorter than the map. *)
Lemma path_bound k : ∀ (pm : gmap Z Z) p r, path pm p r k → (k < size pm)%nat.
Proof.
  induction k as [|k IH]; intros pm p r H.
  - inversion H; subst.
    assert (size pm ≠ 0%nat); [|lia].
    eapply map_size_ne_0_lookup_2; eauto.
  - inversion H as [|? p' ? ? Hp Hne H']; subst.
    assert (path (delete p pm) p' r k) as Hd.
    { apply path_delete; [done|]. intros r' j Hj.
      destruct (path_det _ _ _ _ _ _ H Hj) as [_ <-]. lia. }
    apply IH in Hd. rewrite map_size_delete_Some in Hd by eauto. lia.
Qed.

Lemma find_root_path (pm : gmap Z Z) p r k fuel :
  path pm p r k → (k < fuel)%nat → DSet.find_root fuel pm p = Ok r.
Proof.
  intros H; revert fuel.
  induction H as [r Hr | p p' r k Hp Hne H IH]; intros [|fuel] Hlt; try lia; simpl.
  - rewrite (getitem_Some _ _ _ Hr), bind_Ok. by rewrite bool_decide_false by naive_solver.
  - rewrite (getitem_Some _ _ _ Hp), bind_Ok. rewrite bool_decide_true by done.
    apply IH. lia.
Qed.

Lemma find_root_sound fuel : ∀ (pm : gmap Z Z) p r,
  DSet.find_root fuel pm p = Ok r → root_of pm p r.
Proof.
  induction fuel as [|fuel IH]; intros pm p r; simpl; [discriminate|].
  intros H. apply bind_inv in H as (p' & Hp & H).
  unfold getitem in Hp. destruct (pm !! p) as [p''|] eqn:Hl; simplify_eq.
  case_bool_decide as Hne.
  - destruct (IH _ _ _ H) as [k Hk]. exists (S k). by eapply path_step.
  - simplify_eq. by apply root_of_root.
Qed.

Lemma find_root_iff (pm : gmap Z Z) p r :
  DSet.find_root (DSet.fuel_of pm) pm p = Ok r ↔ root_of pm p r.
Proof.
  split; [apply find_root_sound|].
  intros [k H]. eapply find_root_path; [done|].
  apply path_bound in H. unfold DSet.fuel_of. lia.
Qed.

(** One step of the second loop: [x], no root, is pointed to its root. *)
Lemma path_insert_nonroot (pm : gmap Z Z) x x' q y r k :
  pm !! x = Some x' → x ≠ x' → root_of pm x q → path pm y r k →
  ∃ k', (k' ≤ k)%nat ∧ path (<[x := q]> pm) y r k'.
Proof.
  intros Hx Hne Hq H.
  induction H as [r Hr | p p' r k Hp Hne' H IH].
  - exists 0%nat. split; [lia|]. apply path_root.
    rewrite lookup_insert_ne; [done | congruence].
  - destruct (decide (p = x)) as [->|Hpx].
    + assert (r = q) as ->.
      { eapply root_of_det; [|done]. exists (S k). by eapply path_step. }
      assert (pm !! q = Some q) by (by eapply root_of_is_root).
      assert (x ≠ q) by congruence.
      exists 1%nat. split; [lia|].
      eapply path_step; [apply lookup_insert_eq | done |].
      apply path_root. by rewrite lookup_insert_ne.
    + destruct IH as (k' & ? & ?). exists (S k'). split; [lia|].
      eapply path_step; [by rewrite lookup_insert_ne | done | done].
Qed.

Lemma compressed_to_refl (q : Z) (pm sz : gmap Z Z) :
  pm !! q = Some q → compressed_to q pm sz pm sz.
Proof. intros H. split; [done|]. split; [|by left]. intros y r k Hy. exists k. eauto. Qed.

Lemma compress_spec fuel : ∀ (pm sz : gmap Z Z) p q k,
  path pm p q k → (k < fuel)%nat →
  ∃ pm' sz', DSet.compress fuel pm sz p q = Ok (pm', sz') ∧
             compressed_to q pm sz pm' sz'.
Proof.
  induction fuel as [|fuel IH]; intros pm sz p q k H Hlt; [lia|].
  pose proof (path_is_root _ _ _ _ H) as Hq.
  simpl. inversion H as [? Hr | ? p' ? k' Hp Hne H']; subst.
  - rewrite (getitem_Some _ _ _ Hr), bind_Ok.
    rewrite bool_decide_false by naive_solver.
    exists pm, sz. split; [done|]. by apply compressed_to_refl.
  - rewrite (getitem_Some _ _ _ Hp), bind_Ok. rewrite bool_decide_true by done.
    assert (root_of pm p q) as Hpq by (by exists (S k')).
    assert (p ≠ q) as Hpq' by congruence.
    destruct (path_insert_nonroot pm p p' q p' q k' Hp Hne Hpq H') as (k1 & Hk1 & H1).
    destruct (IH (<[p := q]> pm) (<[p := 2]> sz) p' q k1 H1 ltac:(lia))
      as (pm' & sz' & Hc & Hq' & Hpaths & Hpt).
    exists pm', sz'. split; [done|]. split; [done|]. split.
    + intros y r j Hy.
      destruct (path_insert_nonroot pm p p' q y r j Hp Hne Hpq Hy) as (j1 & ? & Hy1).
      destruct (Hpaths _ _ _ Hy1) as (j2 & ? & ?). exists j2. split; [lia | done].
    + intros y. destruct (decide (y = p)) as [->|Hy].
      * right. exists p'. destruct (Hpt p) as [[-> ->] | (? & _ & _ & -> & ->)];
          by rewrite ?lookup_insert_eq.
      * destruct (Hpt y) as [[-> ->] | (y' & Hy' & ? & -> & ->)].
        -- left. by rewrite !lookup_insert_ne.
        -- right. exists y'. by rewrite lookup_insert_ne in Hy'.
Qed.

(** The elements a walk passes through. *)
Lemma visits_path (pm : gmap Z Z) p y q k :
  visits pm p y → path pm p q k → ∃ j, (j ≤ k)%nat ∧ path pm y q j.
Proof.
  intros Hv; revert k. induction Hv as [p | p p' y Hp Hne Hv IH]; intros k H.
  - exists k. eauto.
  - inversion H as [|? p'' ? k' Hp' ? H']; subst; [congruence|].
    assert (p'' = p') as -> by congruence.
    destruct (IH _ H') as (j & ? & ?). exists j. split; [lia | done].
Qed.

Lemma visits_inv (pm : gmap Z Z) p y :
  visits pm p y → y = p ∨ ∃ p', pm !! p = Some p' ∧ p ≠ p' ∧ visits pm p' y.
Proof. destruct 1; eauto. Qed.

Lemma visits_root (pm : gmap Z Z) r y : pm !! r = Some r → visits pm r y → y = r.
Proof. intros Hr Hv. inversion Hv; subst; [done | congruence]. Qed.

Lemma visits_insert (pm : gmap Z Z) x v a y r j :
  path pm a r j → (∀ r' i, path pm x r' i → (j < i)%nat) →
  visits pm a y ↔ visits (<[x := v]> pm) a y.
Proof.
  induction 1 as [r Hr | p p' r k Hp Hne H IH]; intros Hx.
  - assert (x ≠ r).
    { intros ->. specialize (Hx r 0%nat (path_root _ _ Hr)). lia. }
    split; intros Hv; inversion Hv as [|? p'' ? Hp']; subst;
      try apply visits_here; rewrite ?lookup_insert_ne in Hp' by done; congruence.
  - assert (x ≠ p).
    { intros ->. specialize (Hx r (S k) (path_step _ _ _ _ _ Hp Hne H)). lia. }
    assert (∀ r' i, path pm x r' i → (k < i)%nat) as Hx'.
    { intros r' i Hi. specialize (Hx _ _ Hi). lia. }
    specialize (IH Hx').
    split; intros Hv; inversion Hv as [|? p'' ? Hp' ? Hv']; subst;
      try apply visits_here; rewrite ?lookup_insert_ne in Hp' by done;
      assert (p'' = p') as -> by congruence;
      (eapply visits_next; [by rewrite ?lookup_insert_ne | done | by apply IH]).
Qed.

(** The second loop repoints exactly the elements the walk from [p]
    passes through. *)
Lemma compress_visits fuel : ∀ (pm sz : gmap Z Z) p q k pm' sz' y,
  path pm p q k → (k < fuel)%nat →
  DSet.compress fuel pm sz p q = Ok (pm', sz') →
  (visits pm p y → pm' !! y = Some q ∧ (pm !! y ≠ Some y → sz' !! y = Some 2)) ∧
  (¬ visits pm p y → pm' !! y = pm !! y ∧ sz' !! y = sz !! y).
Proof.
  induction fuel as [|fuel IH]; intros pm sz p q k pm' sz' y H Hlt; [lia|].
  simpl. inversion H as [? Hr | ? p' ? k' Hp Hne H']; subst.
  - rewrite (getitem_Some _ _ _ Hr), bind_Ok.
    rewrite bool_decide_false by naive_solver. intros Heq. simplify_eq.
    split; [|done]. intros Hv. apply visits_root in Hv as ->; done.
  - rewrite (getitem_Some _ _ _ Hp), bind_Ok. rewrite bool_decide_true by done.
    intros Hc.
    assert (root_of pm p q) as Hpq by (by exists (S k')).
    assert (∀ r' i, path pm p r' i → (k' < i)%nat) as Hfar.
    { intros r' i Hi. destruct (path_det _ _ _ _ _ _ H Hi) as [_ <-]. lia. }
    destruct (path_insert_nonroot pm p p' q p' q k' Hp Hne Hpq H') as (k1 & Hk1 & H1).
    destruct (compress_spec fuel (<[p := q]> pm) (<[p := 2]> sz) p' q k1 H1 ltac:(lia))
      as (pm1 & sz1 & Hc1 & _ & _ & Hpt).
    rewrite Hc in Hc1. injection Hc1 as <- <-.
    destruct (IH _ _ _ _ _ _ _ y H1 ltac:(lia) Hc) as [IHv IHn].
    pose proof (visits_insert pm p q p' y q k' H' Hfar) as Hiff.
    split.
    + intros Hv. apply visits_inv in Hv as [-> | (p'' & Hp' & _ & Hv')].
      * destruct (Hpt p) as [[-> ->] | (? & _ & _ & -> & ->)];
          by rewrite ?lookup_insert_eq.
      * assert (p'' = p') as -> by congruence.
        assert (y ≠ p).
        { intros ->. destruct (visits_path _ _ _ _ _ Hv' H') as (j & ? & Hj).
          specialize (Hfar _ _ Hj). lia. }
        apply Hiff in Hv'. destruct (IHv Hv') as [-> Hsz].
        split; [done|]. intros Hy. apply Hsz. by rewrite lookup_insert_ne.
    + intros Hn.
      assert (y ≠ p) by (intros ->; apply Hn, visits_here).
      assert (¬ visits (<[p := q]> pm) p' y) as Hn'.
      { intros Hv'. apply Hiff in Hv'. apply Hn. by eapply visits_next. }
      destruct (IHn Hn') as [-> ->]. by rewrite !lookup_insert_ne.
Qed.

(** ** find *)

Lemma find_spec (s : DSet.t) p q :
  root_of (DSet.parent_map s) p q →
  ∃ s', DSet.find s p = Ok (q, s') ∧
        DSet._count s' = DSet._count s ∧
        compressed_to q (DSet.parent_map s) (DSet.sz_map s)
                        (DSet.parent_map s') (DSet.sz_map s') ∧
        ∀ y, (visits (DSet.parent_map s) p y →
                DSet.parent_map s' !! y = Some q ∧
                (DSet.parent_map s !! y ≠ Some y → DSet.sz_map s' !! y = Some 2)) ∧
             (¬ visits (DSet.parent_map s) p y →
                DSet.parent_map s' !! y = DSet.parent_map s !! y ∧
                DSet.sz_map s' !! y = DSet.sz_map s !! y).
Proof.
  intros [k H]. unfold DSet.find.
  assert (k < DSet.fuel_of (DSet.parent_map s))%nat as Hlt.
  { apply path_bound in H. unfold DSet.fuel_of. lia. }
  rewrite (find_root_path _ _ _ _ _ H Hlt), bind_Ok.
  destruct (compress_spec _ (DSet.parent_map s) (DSet.sz_map s) p q k H Hlt)
    as (pm' & sz' & Hc & Hct).
  rewrite Hc, bind_Ok. eexists. split; [done|]. simpl.
  split; [done|]. split; [done|].
  intros y. by eapply compress_visits.
Qed.

Lemma compressed_same_partition (s s' : DSet.t) q :
  DSet._count s' = DSet._count s →
  compressed_to q (DSet.parent_map s) (DSet.sz_map s)
                  (DSet.parent_map s') (DSet.sz_map s') →
  same_partition s s'.
Proof.
  intros Hcount (Hq & Hpaths & Hpt). split; [done|..].
  - intros y r [k Hk]. destruct (Hpaths _ _ _ Hk) as (k' & _ & ?). by exists k'.
  - intros y. destruct (Hpt y) as [[-> _] | (y' & -> & _ & -> & _)]; [done|].
    split; eauto.
  - intros y. destruct (Hpt y) as [[-> _] | (y' & Hy & ? & -> & _)]; [done|].
    rewrite Hy. split; intros [= ->]; congruence.
  - intros y. destruct (Hpt y) as [[_ ->] | (_ & _ & _ & _ & ->)]; eauto.
  - intros y Hy. destruct (Hpt y) as [[_ ->] | (y' & ? & ? & _)]; [done | congruence].
Qed.

Lemma same_partition_refl (s : DSet.t) : same_partition s s.
Proof. by split. Qed.

Lemma same_partition_trans (s1 s2 s3 : DSet.t) :
  same_partition s1 s2 → same_partition s2 s3 → same_partition s1 s3.
Proof.
  intros [Hc1 Hr1 Hd1 Hro1 Hsd1 Hsr1] [Hc2 Hr2 Hd2 Hro2 Hsd2 Hsr2]. split.
  - congruence.
  - eauto.
  - intros y. by rewrite Hd2.
  - intros y. by rewrite Hro2.
  - eauto.
  - intros y Hy. rewrite Hsr2; [by apply Hsr1 | by apply Hro1].
Qed.

Lemma same_partition_wf (n : Z) (s s' : DSet.t) :
  wf n s → same_partition s s' → wf n s'.
Proof.
  intros [Hdom Hroot Hsz] Hsp. split.
  - intros p. rewrite <-Hdom. apply (sp_dom _ _ Hsp).
  - intros p Hp. destruct (Hroot p Hp) as [r Hr]. exists r. by apply (sp_root_of _ _ Hsp).
  - intros p Hp. apply (sp_sz_dom _ _ Hsp). by apply Hsz.
Qed.

Lemma same_partition_root_of (n : Z) (s s' : DSet.t) y r :
  wf n s → same_partition s s' → 0 ≤ y < n →
  root_of (DSet.parent_map s') y r ↔ root_of (DSet.parent_map s) y r.
Proof.
  intros Hwf Hsp Hy. split; [|apply (sp_root_of _ _ Hsp)].
  intros Hr. destruct (wf_root _ _ Hwf y Hy) as [r' Hr'].
  pose proof (sp_root_of _ _ Hsp _ _ Hr') as Hr''.
  by rewrite (root_of_det _ _ _ _ Hr Hr'').
Qed.

Lemma same_partition_same_set (n : Z) (s s' : DSet.t) x y :
  wf n s → same_partition s s' → 0 ≤ x < n → 0 ≤ y < n →
  same_set s' x y ↔ same_set s x y.
Proof.
  intros Hwf Hsp Hx Hy. unfold same_set.
  by setoid_rewrite (same_partition_root_of n s s' _ _ Hwf Hsp).
Qed.

Lemma roots_lookup (pm : gmap Z Z) y v :
  roots pm !! y = Some v ↔ v = y ∧ pm !! y = Some y.
Proof.
  unfold roots. rewrite map_lookup_filter_Some. simpl. naive_solver.
Qed.

Lemma same_partition_roots (s s' : DSet.t) :
  same_partition s s' → roots (DSet.parent_map s') = roots (DSet.parent_map s).
Proof.
  intros Hsp. apply map_eq. intros y. apply option_eq. intros v.
  rewrite !roots_lookup. by rewrite (sp_roots _ _ Hsp).
Qed.

Lemma same_partition_num_roots (s s' : DSet.t) :
  same_partition s s' → num_roots (DSet.parent_map s') = num_roots (DSet.parent_map s).
Proof. intros Hsp. unfold num_roots. by rewrite (same_partition_roots _ _ Hsp). Qed.

(** ** __init__ *)

Lemma init_fold (l : list Z) (i : Z) : ∀ m : gmap Z Z * gmap Z Z,
  (foldl DSet.init_step m l).1 !! i = (if decide (i ∈ l) then Some i else m.1 !! i) ∧
  (foldl DSet.init_step m l).2 !! i = (if decide (i ∈ l) then Some 1 else m.2 !! i).
Proof.
  induction l as [|x l IH]; intros m.
  - by rewrite !decide_False by apply not_elem_of_nil.
  - change (foldl DSet.init_step m (x :: l))
      with (foldl DSet.init_step (DSet.init_step m x) l).
    destruct (IH (DSet.init_step m x)) as [-> ->]. unfold DSet.init_step at 1 2.
    cbn [fst snd].
    destruct (decide (i ∈ l)) as [Hi|Hi].
    + by rewrite !decide_True by (by right).
    + destruct (decide (i = x)) as [->|Hne].
      * rewrite !lookup_insert_eq. by rewrite !decide_True by left.
      * rewrite !lookup_insert_ne by done.
        by rewrite !decide_False by (rewrite elem_of_cons; naive_solver).
Qed.

Lemma init_parent (n i : Z) :
  DSet.parent_map (DSet.init n) !! i = if decide (0 ≤ i < n) then Some i else None.
Proof.
  unfold DSet.init, range. simpl.
  rewrite (proj1 (init_fold _ i _)). simpl. rewrite lookup_empty.
  destruct (decide (i ∈ seqZ 0 n)) as [Hi|Hi]; rewrite elem_of_seqZ in Hi;
    [by rewrite decide_True by lia | by rewrite decide_False by lia].
Qed.

Lemma init_sz (n i : Z) :
  DSet.sz_map (DSet.init n) !! i = if decide (0 ≤ i < n) then Some 1 else None.
Proof.
  unfold DSet.init, range. simpl.
  rewrite (proj2 (init_fold _ i _)). simpl. rewrite lookup_empty.
  destruct (decide (i ∈ seqZ 0 n)) as [Hi|Hi]; rewrite elem_of_seqZ in Hi;
    [by rewrite decide_True by lia | by rewrite decide_False by lia].
Qed.

Lemma init_root_of (n i r : Z) :
  root_of (DSet.parent_map (DSet.init n)) i r ↔ 0 ≤ i < n ∧ r = i.
Proof.
  split.
  - intros H. assert (0 ≤ i < n) as Hi.
    { destruct H as [k H]. apply path_lookup in H as [v Hv].
      rewrite init_parent in Hv. by case_decide. }
    split; [done|]. eapply root_of_root_eq; [|done].
    by rewrite init_parent, decide_True.
  - intros [Hi ->]. apply root_of_root. by rewrite init_parent, decide_True.
Qed.

Lemma init_wf (n : Z) : wf n (DSet.init n).
Proof.
  split.
  - intros p. rewrite init_parent. case_decide; [naive_solver|].
    split; [by intros [] | done].
  - intros p Hp. exists p. by apply init_root_of.
  - intros p Hp. by rewrite init_sz, decide_True.
Qed.

Lemma init_size (n : Z) : size (DSet.parent_map (DSet.init n)) = Z.to_nat n.
Proof.
  rewrite <-size_dom.
  assert (dom (DSet.parent_map (DSet.init n)) = list_to_set (seqZ 0 n)) as ->.
  { apply set_eq. intros i. rewrite elem_of_dom, init_parent, elem_of_list_to_set, elem_of_seqZ.
    case_decide; [naive_solver|]. split; [by intros [] | lia]. }
  rewrite size_list_to_set by apply NoDup_seqZ. apply length_seqZ.
Qed.

Lemma init_roots (n : Z) :
  roots (DSet.parent_map (DSet.init n)) = DSet.parent_map (DSet.init n).
Proof.
  apply map_eq. intros y. apply option_eq. intros v.
  rewrite roots_lookup, init_parent. case_decide; naive_solver.
Qed.

Lemma init_num_roots (n : Z) : num_roots (DSet.parent_map (DSet.init n)) = Z.to_nat n.
Proof. unfold num_roots. by rewrite init_roots, init_size. Qed.

(** ** Linking one root under another *)

Lemma path_link_other (pm : gmap Z Z) a b y r k :
  pm !! a = Some a → path pm y r k → r ≠ a → path (<[a := b]> pm) y r k.
Proof.
  intros Ha. induction 1 as [r Hr | p p' r k Hp Hne H IH]; intros Hra.
  - apply path_root. by rewrite lookup_insert_ne.
  - eapply path_step; [|done|by apply IH].
    rewrite lookup_insert_ne; [done | congruence].
Qed.

Lemma path_link_loser (pm : gmap Z Z) a b y r k :
  pm !! a = Some a → pm !! b = Some b → a ≠ b →
  path pm y r k → r = a → path (<[a := b]> pm) y b (S k).
Proof.
  intros Ha Hb Hab. induction 1 as [r Hr | p p' r k Hp Hne H IH]; intros ->.
  - eapply path_step; [apply lookup_insert_eq | done |].
    apply path_root. by rewrite lookup_insert_ne.
  - eapply path_step; [|done|by apply IH].
    rewrite lookup_insert_ne; [done | congruence].
Qed.

Lemma link_root_of (pm : gmap Z Z) a b y r :
  pm !! a = Some a → pm !! b = Some b → a ≠ b → root_of pm y r →
  root_of (<[a := b]> pm) y (if decide (r = a) then b else r).
Proof.
  intros Ha Hb Hab [k H]. case_decide.
  - exists (S k). by eapply path_link_loser.
  - exists k. by eapply path_link_other.
Qed.

Lemma link_roots (pm : gmap Z Z) a b :
  a ≠ b → roots (<[a := b]> pm) = delete a (roots pm).
Proof.
  intros Hab. apply map_eq. intros y. apply option_eq. intros v.
  rewrite lookup_delete_Some, !roots_lookup, lookup_insert_Some. naive_solver.
Qed.

Lemma link_num_roots (pm : gmap Z Z) a b :
  pm !! a = Some a → a ≠ b → num_roots (<[a := b]> pm) = pred (num_roots pm).
Proof.
  intros Ha Hab. unfold num_roots. rewrite link_roots by done.
  apply map_size_delete_Some. exists a. by apply roots_lookup.
Qed.

Lemma num_roots_pos (pm : gmap Z Z) r : pm !! r = Some r → (0 < num_roots pm)%nat.
Proof.
  intros Hr. assert (num_roots pm ≠ 0%nat); [|lia].
  apply (map_size_ne_0_lookup_2 _ r). exists r. by apply roots_lookup.
Qed.

(** ** union and is_connected *)

(** [union] on two elements of one set: only the two finds happen. *)
Lemma union_same (n : Z) (s : DSet.t) p q a :
  wf n s → root_of (DSet.parent_map s) p a → root_of (DSet.parent_map s) q a →
  ∃ s', DSet.union s p q = Ok s' ∧ same_partition s s'.
Proof.
  intros Hwf Hp Hq.
  destruct (find_spec s p a Hp) as (s1 & Hf1 & Hc1 & Hct1 & _).
  pose proof (compressed_same_partition _ _ _ Hc1 Hct1) as Hsp1.
  destruct (find_spec s1 q a (sp_root_of _ _ Hsp1 _ _ Hq)) as (s2 & Hf2 & Hc2 & Hct2 & _).
  pose proof (compressed_same_partition _ _ _ Hc2 Hct2) as Hsp2.
  exists s2. split; [|by eapply same_partition_trans].
  unfold DSet.union. rewrite Hf1, bind_Ok. cbn beta iota. rewrite Hf2, bind_Ok.
  cbn beta iota. by rewrite bool_decide_true.
Qed.

Lemma path_visits (pm : gmap Z Z) p r k : path pm p r k → visits pm p r.
Proof. induction 1; [apply visits_here | by eapply visits_next]. Qed.

Lemma visits_trans (pm : gmap Z Z) p x y : visits pm p x → visits pm x y → visits pm p y.
Proof. induction 1; [done | intros; eapply visits_next; eauto]. Qed.

Lemma visits_dec (pm : gmap Z Z) p r k y :
  path pm p r k → visits pm p y ∨ ¬ visits pm p y.
Proof.
  induction 1 as [r Hr | p p' r k Hp Hne H IH].
  - destruct (decide (y = r)) as [->|Hy]; [left; apply visits_here|].
    right. intros Hv. by apply visits_root in Hv.
  - destruct (decide (y = p)) as [->|Hy]; [left; apply visits_here|].
    destruct IH as [IH|IH]; [left; by eapply visits_next|].
    right. intros Hv. apply visits_inv in Hv as [->|(p'' & Hp' & _ & Hv)]; [done|].
    by assert (p'' = p') as -> by congruence.
Qed.

(** [union] on two elements of one set, entry by entry: the elements on
    the walk from [p] or on the walk from [q] point at the root, those
    of them that are no root with recorded size 2; every other entry of
    the two dictionaries is as before. *)
Lemma union_same_walks (s : DSet.t) p q a :
  root_of (DSet.parent_map s) p a → root_of (DSet.parent_map s) q a →
  ∃ s', DSet.union s p q = Ok s' ∧ same_partition s s' ∧
    ∀ y, (visits (DSet.parent_map s) p y ∨ visits (DSet.parent_map s) q y →
            DSet.parent_map s' !! y = Some a ∧ (y ≠ a → DSet.sz_map s' !! y = Some 2)) ∧
         (¬ (visits (DSet.parent_map s) p y ∨ visits (DSet.parent_map s) q y) →
            DSet.parent_map s' !! y = DSet.parent_map s !! y ∧
            DSet.sz_map s' !! y = DSet.sz_map s !! y).
Proof.
  intros Hp Hq.
  destruct (find_spec s p a Hp) as (s1 & Hf1 & Hc1 & Hct1 & Hv1).
  pose proof (compressed_same_partition _ _ _ Hc1 Hct1) as Hsp1.
  pose proof (sp_root_of _ _ Hsp1 _ _ Hq) as Hq1.
  destruct (find_spec s1 q a Hq1) as (s2 & Hf2 & Hc2 & Hct2 & Hv2).
  pose proof (compressed_same_partition _ _ _ Hc2 Hct2) as Hsp2.
  exists s2. split.
  { unfold DSet.union. rewrite Hf1, bind_Ok. cbn beta iota. rewrite Hf2, bind_Ok.
    cbn beta iota. by rewrite bool_decide_true. }
  split; [by eapply same_partition_trans|].
  pose proof (root_of_is_root _ _ _ Hp) as Ha.
  destruct Hp as [kp Hpath], Hq as [kq Hpathq], Hq1 as [k1 Hpath1].
  pose proof (path_visits _ _ _ _ Hpathq) as Hqa.
  assert (∀ x y, visits (DSet.parent_map s1) x y →
                 visits (DSet.parent_map s) x y ∨ y = a) as Hsub.
  { intros x y Hv. induction Hv as [x | x x' y Hx Hne Hv IH]; [left; apply visits_here|].
    destruct Hct1 as (_ & _ & Hpt).
    destruct (Hpt x) as [[Heq _] | (x'' & Hx'' & Hne' & Hxa & _)].
    - destruct IH as [IH| ->]; [left | by right].
      eapply visits_next; [by rewrite <-Heq | done | done].
    - assert (x' = a) as -> by congruence. right.
      destruct IH as [IH|]; [|done]. by apply (visits_root (DSet.parent_map s) a). }
  assert (∀ x y, visits (DSet.parent_map s) x y → ¬ visits (DSet.parent_map s) p y →
                 visits (DSet.parent_map s1) x y) as Hkeep.
  { intros x y Hv Hn. induction Hv as [x | x x' y Hx Hne Hv IH]; [apply visits_here|].
    assert (¬ visits (DSet.parent_map s) p x) as Hnx.
    { intros Hpx. apply Hn. eapply visits_trans; [exact Hpx|]. by eapply visits_next. }
    destruct (Hv1 x) as [_ Hun]. destruct (Hun Hnx) as [Heq _].
    eapply visits_next; [by rewrite Heq | done | by apply IH]. }
  intros y. split.
  - intros Hor.
    assert (y ≠ a → DSet.parent_map s !! y ≠ Some y) as Hnr.
    { intros Hya Hy. apply Hya. symmetry. apply (root_of_root_eq _ _ _ Hy).
      destruct Hor as [Hv|Hv].
      - destruct (visits_path _ _ _ _ _ Hv Hpath) as (j & _ & Hj). by exists j.
      - destruct (visits_path _ _ _ _ _ Hv Hpathq) as (j & _ & Hj). by exists j. }
    destruct (visits_dec _ _ _ _ y Hpath1) as [Hin|Hout].
    + destruct (Hv2 y) as [Hvis _]. destruct (Hvis Hin) as [Hpy Hsz].
      split; [done|]. intros Hya. apply Hsz. intros Hy1.
      apply (Hnr Hya). by apply (sp_roots _ _ Hsp1).
    + destruct (Hv2 y) as [_ Hun]. destruct (Hun Hout) as [-> ->].
      destruct (visits_dec _ _ _ _ y Hpath) as [Hinp|Houtp].
      * destruct (Hv1 y) as [Hvis _]. destruct (Hvis Hinp) as [? Hsz].
        split; [done|]. intros Hya. by apply Hsz, Hnr.
      * destruct Hor as [?|Hqy]; [done|]. destruct Hout. by apply Hkeep.
  - intros Hnor.
    assert (¬ visits (DSet.parent_map s) p y) as Hnp by tauto.
    assert (¬ visits (DSet.parent_map s) q y) as Hnq by tauto.
    destruct (Hv1 y) as [_ Hun1]. destruct (Hun1 Hnp) as [E1 E2].
    assert (¬ visits (DSet.parent_map s1) q y) as Hn1.
    { intros Hv. apply Hsub in Hv as [?| ->]; done. }
    destruct (Hv2 y) as [_ Hun2]. destruct (Hun2 Hn1) as [-> ->]. done.
Qed.

(** [union] on elements of two sets: after the two finds, the root with
    the smaller recorded size is put under the other one; on equal sizes
    the root of [q] is put under the root of [p]. *)
Lemma union_link (n : Z) (s : DSet.t) p q a b sa sb :
  wf n s → root_of (DSet.parent_map s) p a → root_of (DSet.parent_map s) q b →
  a ≠ b → DSet.sz_map s !! a = Some sa → DSet.sz_map s !! b = Some sb →
  ∃ s2, same_partition s s2 ∧
        DSet.union s p q = Ok
          (if bool_decide (sa < sb)
           then {| DSet._count := DSet._count s2 - 1;
                   DSet.parent_map := <[a := b]> (DSet.parent_map s2);
                   DSet.sz_map := <[b := sa + sb]> (DSet.sz_map s2) |}
           else {| DSet._count := DSet._count s2 - 1;
                   DSet.parent_map := <[b := a]> (DSet.parent_map s2);
                   DSet.sz_map := <[a := sa + sb]> (DSet.sz_map s2) |}).
Proof.
  intros Hwf Hp Hq Hab Hsa Hsb.
  destruct (find_spec s p a Hp) as (s1 & Hf1 & Hc1 & Hct1 & _).
  pose proof (compressed_same_partition _ _ _ Hc1 Hct1) as Hsp1.
  destruct (find_spec s1 q b (sp_root_of _ _ Hsp1 _ _ Hq)) as (s2 & Hf2 & Hc2 & Hct2 & _).
  pose proof (compressed_same_partition _ _ _ Hc2 Hct2) as Hsp2.
  pose proof (same_partition_trans _ _ _ Hsp1 Hsp2) as Hsp.
  exists s2. split; [done|].
  unfold DSet.union. rewrite Hf1, bind_Ok. cbn beta iota. rewrite Hf2, bind_Ok.
  cbn beta iota. rewrite bool_decide_false by congruence.
  assert (DSet.sz_map s2 !! a = Some sa) as Ha2.
  { rewrite (sp_sz_root _ _ Hsp); [done | by eapply root_of_is_root]. }
  assert (DSet.sz_map s2 !! b = Some sb) as Hb2.
  { rewrite (sp_sz_root _ _ Hsp); [done | by eapply root_of_is_root]. }
  rewrite (getitem_Some _ _ _ Ha2), bind_Ok, (getitem_Some _ _ _ Hb2), bind_Ok.
  by case_bool_decide.
Qed.

Lemma is_connected_spec (n : Z) (s : DSet.t) p q a b :
  wf n s → root_of (DSet.parent_map s) p a → root_of (DSet.parent_map s) q b →
  ∃ s', DSet.is_connected s p q = Ok (bool_decide (a = b), s') ∧ same_partition s s'.
Proof.
  intros Hwf Hp Hq.
  destruct (find_spec s p a Hp) as (s1 & Hf1 & Hc1 & Hct1 & _).
  pose proof (compressed_same_partition _ _ _ Hc1 Hct1) as Hsp1.
  destruct (find_spec s1 q b (sp_root_of _ _ Hsp1 _ _ Hq)) as (s2 & Hf2 & Hc2 & Hct2 & _).
  pose proof (compressed_same_partition _ _ _ Hc2 Hct2) as Hsp2.
  exists s2. split; [|by eapply same_partition_trans].
  unfold DSet.is_connected. rewrite Hf1, bind_Ok. cbn beta iota. by rewrite Hf2, bind_Ok.
Qed.

Lemma same_set_roots (s : DSet.t) p q a b :
  root_of (DSet.parent_map s) p a → root_of (DSet.parent_map s) q b →
  same_set s p q ↔ a = b.
Proof.
  intros Hp Hq. split.
  - intros (r & Hp' & Hq').
    by rewrite (root_of_det _ _ _ _ Hp Hp'), (root_of_det _ _ _ _ Hq Hq').
  - intros ->. by exists b.
Qed.

(** A linked state: [a], a root, has been put under the root [b]. *)
Lemma link_wf (n : Z) (s s' : DSet.t) a b v :
  wf n s → DSet.parent_map s !! a = Some a → DSet.parent_map s !! b = Some b → a ≠ b →
  DSet.parent_map s' = <[a := b]> (DSet.parent_map s) →
  DSet.sz_map s' = <[b := v]> (DSet.sz_map s) →
  wf n s'.
Proof.
  intros [Hdom Hroot Hsz] Ha Hb Hab Hpm Hszm. split.
  - intros p. rewrite Hpm, <-Hdom. destruct (decide (p = a)) as [->|].
    + rewrite lookup_insert_eq, Ha. split; eauto.
    + by rewrite lookup_insert_ne.
  - intros p Hp. destruct (Hroot p Hp) as [r Hr]. rewrite Hpm.
    eexists. by apply link_root_of.
  - intros p Hp. rewrite Hszm. destruct (decide (p = b)) as [->|].
    + rewrite lookup_insert_eq. eauto.
    + rewrite lookup_insert_ne by done. by apply Hsz.
Qed.

Lemma link_same_set (n : Z) (s s' : DSet.t) a b x y :
  wf n s → DSet.parent_map s !! a = Some a → DSet.parent_map s !! b = Some b → a ≠ b →
  DSet.parent_map s' = <[a := b]> (DSet.parent_map s) →
  0 ≤ x < n → 0 ≤ y < n →
  same_set s' x y ↔
  same_set s x y ∨ (same_set s x a ∧ same_set s b y) ∨ (same_set s x b ∧ same_set s a y).
Proof.
  intros Hwf Ha Hb Hab Hpm Hx Hy.
  destruct (wf_root _ _ Hwf x Hx) as [rx Hrx].
  destruct (wf_root _ _ Hwf y Hy) as [ry Hry].
  pose proof (link_root_of _ a b _ _ Ha Hb Hab Hrx) as Hrx'.
  pose proof (link_root_of _ a b _ _ Ha Hb Hab Hry) as Hry'.
  rewrite <-Hpm in Hrx', Hry'.
  rewrite (same_set_roots s' x y _ _ Hrx' Hry').
  rewrite (same_set_roots s x y _ _ Hrx Hry).
  rewrite (same_set_roots s x a _ _ Hrx (root_of_root _ _ Ha)).
  rewrite (same_set_roots s x b _ _ Hrx (root_of_root _ _ Hb)).
  rewrite (same_set_roots s a y _ _ (root_of_root _ _ Ha) Hry).
  rewrite (same_set_roots s b y _ _ (root_of_root _ _ Hb) Hry).
  repeat case_decide; naive_solver.
Qed.

(** ** Lists *)

Lemma filter_ext_in {A : Type} (P Q : A → Prop)
    `{!∀ x, Decision (P x), !∀ x, Decision (Q x)} (l : list A) :
  (∀ x, x ∈ l → P x ↔ Q x) → filter P l = filter Q l.
Proof.
  induction l as [|a l IH]; intros Hext; [done|].
  assert (filter P l = filter Q l) as Hl.
  { apply IH. intros x Hx. apply Hext. by right. }
  assert (P a ↔ Q a) as Ha by (apply Hext; left).
  rewrite !filter_cons, Hl. destruct (decide (P a)), (decide (Q a)); naive_solver.
Qed.

Lemma length_filter_or {A : Type} (P Q : A → Prop)
    `{!∀ x, Decision (P x), !∀ x, Decision (Q x)} (l : list A) :
  (∀ x, P x → Q x → False) →
  length (filter (λ x, P x ∨ Q x) l) = (length (filter P l) + length (filter Q l))%nat.
Proof.
  intros Hex. induction l as [|a l IH]; [done|].
  rewrite !filter_cons.
  destruct (decide (P a)), (decide (Q a)); try (exfalso; by eauto).
  - rewrite decide_True by (by left). simpl. by rewrite IH.
  - rewrite decide_True by (by right). simpl. rewrite IH. lia.
  - rewrite decide_False by (by intros []). done.
Qed.

Lemma length_filter_eq {A : Type} `{EqDecision A} (l : list A) (r : A) :
  NoDup l → r ∈ l → length (filter (λ x, x = r) l) = 1%nat.
Proof.
  induction 1 as [|a l Ha Hl IH]; intros Hr; [by apply elem_of_nil in Hr|].
  rewrite filter_cons. destruct (decide (a = r)) as [->|Hne].
  - assert (filter (λ x, x = r) l = []) as ->; [|done].
    destruct (filter (λ x, x = r) l) as [|x l'] eqn:Hf; [done|].
    assert (x ∈ filter (λ x, x = r) l) as Hx by (rewrite Hf; left).
    by apply list_elem_of_filter in Hx as [-> ?].
  - apply IH. apply elem_of_cons in Hr as [->|]; done.
Qed.

(** ** The components of the graph of unions *)

Lemma connected_refl {V : Type} (E : list (V * V)) (x : V) : connected E x x.
Proof. unfold connected. reflexivity. Qed.

Lemma connected_sym {V : Type} (E : list (V * V)) (x : V) y : connected E x y → connected E y x.
Proof. unfold connected. by intros ->. Qed.

Lemma connected_trans {V : Type} (E : list (V * V)) (x : V) y z :
  connected E x y → connected E y z → connected E x z.
Proof. unfold connected. by intros -> ->. Qed.

Lemma connected_edge {V : Type} (E : list (V * V)) (x : V) y : (x, y) ∈ E → connected E x y.
Proof. intros H. by apply rtsc_lr. Qed.

Lemma connected_mono {V : Type} (E E' : list (V * V)) (x y : V) :
  E ⊆ E' → connected E x y → connected E' x y.
Proof.
  intros Hsub. induction 1 as [|x z y [Hxz|Hzx] _ IH]; [apply connected_refl|..].
  - eapply connected_trans; [|done]. by apply connected_edge, Hsub.
  - eapply connected_trans; [|done]. by apply connected_sym, connected_edge, Hsub.
Qed.

Lemma connected_nil {V : Type} (x y : V) : connected [] x y ↔ x = y.
Proof.
  split; [|intros ->; apply connected_refl].
  induction 1 as [|x z y [H|H] _ IH]; [done|..]; by apply elem_of_nil in H.
Qed.

(** One more edge merges the components of its two ends, and nothing else. *)
Lemma connected_cons {V : Type} (E : list (V * V)) (p q x y : V) :
  connected ((p, q) :: E) x y ↔
  connected E x y ∨ (connected E x p ∧ connected E q y) ∨ (connected E x q ∧ connected E p y).
Proof.
  split.
  - induction 1 as [x|x z y Hxz _ IH]; [left; apply connected_refl|].
    assert (connected E x z ∨ (x = p ∧ z = q) ∨ (x = q ∧ z = p)) as [Hc|[[-> ->]|[-> ->]]].
    { destruct Hxz as [H|H]; apply elem_of_cons in H as [[= -> ->]|H]; eauto;
        left; [by apply connected_edge | by apply connected_sym, connected_edge]. }
    + destruct IH as [?|[[? ?]|[? ?]]]; eauto using connected_trans.
    + destruct IH as [?|[[? ?]|[? ?]]].
      * right; left. split; [apply connected_refl | done].
      * left. eauto using connected_trans, connected_sym.
      * by left.
    + destruct IH as [?|[[? ?]|[? ?]]].
      * right; right. split; [apply connected_refl | done].
      * by left.
      * left. eauto using connected_trans, connected_sym.
  - assert (E ⊆ (p, q) :: E) as Hsub by (intros e He; by right).
    assert (connected ((p, q) :: E) p q) as Hpq by (apply connected_edge; left).
    intros [H|[[H1 H2]|[H1 H2]]].
    + by eapply connected_mono.
    + eapply connected_trans; [by eapply connected_mono|].
      eapply connected_trans; [done | by eapply connected_mono].
    + eapply connected_trans; [by eapply connected_mono|].
      eapply connected_trans; [by apply connected_sym | by eapply connected_mono].
Qed.

(** ** The invariant of a run of calls *)

Lemma tree_of_ext (n : Z) (pm pm' : gmap Z Z) r r' :
  (∀ x, 0 ≤ x < n → root_of pm' x r' ↔ root_of pm x r) →
  tree_of n pm' r' = tree_of n pm r.
Proof.
  intros H. unfold tree_of. apply filter_ext_in. intros x Hx.
  rewrite !find_root_iff. apply H. apply elem_of_seqZ in Hx. lia.
Qed.

Lemma inv_subseteq (n : Z) (E E' : list (Z * Z)) (s : DSet.t) :
  E ⊆ E' → E' ⊆ E → inv n E s → inv n E' s.
Proof.
  intros H1 H2 [Hwf Hconn Hcount Hsize]. split; try done.
  intros x y Hx Hy. rewrite (Hconn x y Hx Hy).
  split; by apply connected_mono.
Qed.

Lemma inv_init (n : Z) : 0 ≤ n → inv n [] (DSet.init n).
Proof.
  intros Hn. split.
  - apply init_wf.
  - intros x y Hx Hy. rewrite connected_nil. unfold same_set.
    setoid_rewrite init_root_of. naive_solver.
  - rewrite init_num_roots. simpl. lia.
  - intros r Hr. rewrite init_parent in Hr. case_decide as Hin; [|done].
    rewrite init_sz, decide_True by done. do 2 f_equal.
    unfold tree_of.
    rewrite (filter_ext_in _ (λ x, x = r)).
    + rewrite length_filter_eq; [done | apply NoDup_seqZ | apply elem_of_seqZ; lia].
    + intros x Hx. rewrite find_root_iff, init_root_of.
      apply elem_of_seqZ in Hx. naive_solver lia.
Qed.

Lemma inv_same_partition (n : Z) (E : list (Z * Z)) (s s' : DSet.t) :
  inv n E s → same_partition s s' → inv n E s'.
Proof.
  intros [Hwf Hconn Hcount Hsize] Hsp. split.
  - by eapply same_partition_wf.
  - intros x y Hx Hy. rewrite <-Hconn by done. by eapply same_partition_same_set.
  - rewrite (sp_count _ _ Hsp), (same_partition_num_roots _ _ Hsp). done.
  - intros r Hr. apply (sp_roots _ _ Hsp) in Hr.
    rewrite (sp_sz_root _ _ Hsp) by done. rewrite (Hsize r Hr). do 3 f_equal.
    apply tree_of_ext. intros x Hx.
    symmetry. exact (same_partition_root_of n s s' x r Hwf Hsp Hx).
Qed.

Lemma same_set_sym (s : DSet.t) x y : same_set s x y → same_set s y x.
Proof. intros (r & ? & ?). by exists r. Qed.

Lemma same_set_trans (s : DSet.t) x y z : same_set s x y → same_set s y z → same_set s x z.
Proof.
  intros (r & Hx & Hy) (r' & Hy' & Hz). exists r. split; [done|].
  by rewrite (root_of_det _ _ _ _ Hy Hy').
Qed.

(** An edge inside a component adds nothing. *)
Lemma inv_edge_inside (n : Z) (E : list (Z * Z)) (s : DSet.t) p q :
  inv n E s → 0 ≤ p < n → 0 ≤ q < n → same_set s p q → inv n ((p, q) :: E) s.
Proof.
  intros [Hwf Hconn Hcount Hsize] Hp Hq Hpq. split; try done.
  intros x y Hx Hy. rewrite connected_cons, <-!Hconn by done.
  split; [by left|].
  intros [?|[[? ?]|[? ?]]]; eauto using same_set_trans, same_set_sym.
Qed.

(** The root [l] goes under the root [w]. *)
Lemma inv_link (n : Z) (E : list (Z * Z)) (s s' : DSet.t) p q l w sl sw :
  inv n E s → 0 ≤ p < n → 0 ≤ q < n →
  (root_of (DSet.parent_map s) p l ∧ root_of (DSet.parent_map s) q w) ∨
  (root_of (DSet.parent_map s) p w ∧ root_of (DSet.parent_map s) q l) →
  l ≠ w →
  DSet.sz_map s !! l = Some sl → DSet.sz_map s !! w = Some sw →
  DSet._count s' = DSet._count s - 1 →
  DSet.parent_map s' = <[l := w]> (DSet.parent_map s) →
  DSet.sz_map s' = <[w := sl + sw]> (DSet.sz_map s) →
  inv n ((p, q) :: E) s'.
Proof.
  intros [Hwf Hconn Hcount Hsize] Hp Hq Hpq Hlw Hsl Hsw Hc Hpm Hsz.
  assert (DSet.parent_map s !! l = Some l ∧ DSet.parent_map s !! w = Some w) as [Hl Hw].
  { destruct Hpq as [[? ?]|[? ?]]; split; by eapply root_of_is_root. }
  assert (∀ x r, 0 ≤ x < n → root_of (DSet.parent_map s) x r →
            ∀ r', root_of (DSet.parent_map s') x r' ↔ r' = if decide (r = l) then w else r)
    as Hnew.
  { intros x r Hx Hr r'. pose proof (link_root_of _ l w _ _ Hl Hw Hlw Hr) as Hr'.
    rewrite <-Hpm in Hr'. split; [intros H; by eapply root_of_det | by intros ->]. }
  split.
  - by apply (link_wf n s s' l w (sl + sw)).
  - intros x y Hx Hy. rewrite connected_cons, <-!Hconn by done.
    rewrite (link_same_set n s s' l w x y) by done.
    assert (same_set s p l ∧ same_set s q w ∨ same_set s p w ∧ same_set s q l) as Hpq'.
    { destruct Hpq as [[? ?]|[? ?]]; [left|right]; split; eexists;
        (split; [done | by apply root_of_root]). }
    split.
    + intros [?|[[? ?]|[? ?]]]; [by left|..]; destruct Hpq' as [[? ?]|[? ?]];
        eauto 8 using same_set_trans, same_set_sym.
    + intros [?|[[? ?]|[? ?]]]; [by left|..]; destruct Hpq' as [[? ?]|[? ?]];
        eauto 8 using same_set_trans, same_set_sym.
  - rewrite Hc, Hcount, Hpm, link_num_roots by done.
    pose proof (num_roots_pos _ _ Hl). lia.
  - intros r Hr. rewrite Hpm in Hr. apply lookup_insert_Some in Hr as [[-> ->]|[Hrl Hr]]; [done|].
    rewrite Hsz. destruct (decide (r = w)) as [->|Hrw].
    + rewrite lookup_insert_eq. f_equal.
      rewrite (Hsize _ Hl) in Hsl. rewrite (Hsize _ Hw) in Hsw.
      injection Hsl as <-. injection Hsw as <-.
      rewrite <-Nat2Z.inj_add. f_equal. unfold tree_of.
      rewrite <-length_filter_or.
      2:{ intros x H1 H2. rewrite H1 in H2. by injection H2. }
      f_equal. apply filter_ext_in. intros x Hx.
      apply elem_of_seqZ in Hx. rewrite !find_root_iff.
      destruct (wf_root _ _ Hwf x) as [rx Hrx]; [lia|].
      rewrite (Hnew x rx) by (done || lia).
      split.
      * intros [H|H]; rewrite (root_of_det _ _ _ _ Hrx H);
          [by rewrite decide_True | by rewrite decide_False].
      * intros Heq. case_decide; subst; eauto.
    + rewrite lookup_insert_ne by done. rewrite (Hsize r Hr). do 3 f_equal.
      apply tree_of_ext. intros x Hx.
      destruct (wf_root _ _ Hwf x Hx) as [rx Hrx].
      rewrite (Hnew x rx) by done.
      split; [|intros Heq; case_decide; subst; done].
      intros H. rewrite (root_of_det _ _ _ _ Hrx H). by rewrite decide_False.
Qed.

Lemma union_inv (n : Z) (E : list (Z * Z)) (s : DSet.t) p q :
  inv n E s → 0 ≤ p < n → 0 ≤ q < n →
  ∃ s', DSet.union s p q = Ok s' ∧ inv n ((p, q) :: E) s' ∧
        (same_set s p q → same_partition s s') ∧
        (¬ same_set s p q → DSet._count s' = DSet._count s - 1).
Proof.
  intros Hinv Hp Hq. pose proof (inv_wf _ _ _ Hinv) as Hwf.
  destruct (wf_root _ _ Hwf p Hp) as [a Ha].
  destruct (wf_root _ _ Hwf q Hq) as [b Hb].
  pose proof (same_set_roots s p q a b Ha Hb) as Hiff.
  destruct (decide (a = b)) as [->|Hab].
  - destruct (union_same n s p q b Hwf Ha Hb) as (s' & Hu & Hsp).
    exists s'. split; [done|]. split; [|split; [done | intros Hn; by destruct Hn; apply Hiff]].
    eapply inv_same_partition; [|done].
    apply inv_edge_inside; [done..|by apply Hiff].
  - destruct (wf_sz _ _ Hwf a) as [sa Hsa].
    { apply (wf_dom _ _ Hwf). exists a. by eapply root_of_is_root. }
    destruct (wf_sz _ _ Hwf b) as [sb Hsb].
    { apply (wf_dom _ _ Hwf). exists b. by eapply root_of_is_root. }
    destruct (union_link n s p q a b sa sb Hwf Ha Hb Hab Hsa Hsb) as (s2 & Hsp & Hu).
    pose proof (inv_same_partition _ _ _ _ Hinv Hsp) as Hinv2.
    eexists. split; [done|].
    split; [|split; [intros Hs; by apply Hiff in Hs|]].
    + case_bool_decide.
      * eapply (inv_link n E s2 _ p q a b sa sb); try done.
        -- left. split; by apply (sp_root_of _ _ Hsp).
        -- rewrite (sp_sz_root _ _ Hsp); [done | by eapply root_of_is_root].
        -- rewrite (sp_sz_root _ _ Hsp); [done | by eapply root_of_is_root].
      * eapply (inv_link n E s2 _ p q b a sb sa); try done.
        -- right. split; by apply (sp_root_of _ _ Hsp).
        -- rewrite (sp_sz_root _ _ Hsp); [done | by eapply root_of_is_root].
        -- rewrite (sp_sz_root _ _ Hsp); [done | by eapply root_of_is_root].
        -- simpl. f_equal. lia.
    + intros _. rewrite <-(sp_count _ _ Hsp). by case_bool_decide.
Qed.

Lemma exec_spec (n : Z) (E : list (Z * Z)) (s : DSet.t) (c : call) :
  inv n E s → in_range n c →
  ∃ a s', exec s c = Ok (a, s') ∧ inv n (union_edges [c] ++ E) s' ∧
    match c with
    | Union p q =>
        a = ANone ∧ (same_set s p q → same_partition s s') ∧
        (¬ same_set s p q → DSet._count s' = DSet._count s - 1)
    | Find p => ∃ r, a = ARoot r ∧ root_of (DSet.parent_map s) p r ∧ same_partition s s'
    | IsConnected p q =>
        ∃ b, a = ABool b ∧ (b = true ↔ same_set s p q) ∧ same_partition s s'
    | Count => a = AInt (DSet._count s) ∧ s' = s
    end.
Proof.
  intros Hinv Hc. pose proof (inv_wf _ _ _ Hinv) as Hwf.
  destruct c as [p q|p|p q|]; simpl in *.
  - destruct Hc as [Hp Hq].
    destruct (union_inv n E s p q Hinv Hp Hq) as (s' & Hu & Hinv' & H1 & H2).
    exists ANone, s'. by rewrite Hu.
  - destruct (wf_root _ _ Hwf p Hc) as [r Hr].
    destruct (find_spec s p r Hr) as (s' & Hf & Hcount & Hct & _).
    pose proof (compressed_same_partition _ _ _ Hcount Hct) as Hsp.
    exists (ARoot r), s'. rewrite Hf. split; [done|].
    split; [by eapply inv_same_partition | by exists r].
  - destruct Hc as [Hp Hq].
    destruct (wf_root _ _ Hwf p Hp) as [a Ha].
    destruct (wf_root _ _ Hwf q Hq) as [b Hb].
    destruct (is_connected_spec n s p q a b Hwf Ha Hb) as (s' & Hi & Hsp).
    exists (ABool (bool_decide (a = b))), s'. rewrite Hi. split; [done|].
    split; [by eapply inv_same_partition|].
    eexists. split; [done|]. split; [|done].
    rewrite bool_decide_eq_true. symmetry. by apply same_set_roots.
  - exists (AInt (DSet._count s)), s. done.
Qed.

Lemma run_inv (n : Z) (cs : list call) : ∀ (E : list (Z * Z)) (s : DSet.t),
  inv n E s → Forall (in_range n) cs →
  ∃ answers s', run s cs = Ok (answers, s') ∧ inv n (union_edges cs ++ E) s'.
Proof.
  induction cs as [|c cs IH]; intros E s Hinv Hcs.
  - by exists [], s.
  - apply Forall_cons in Hcs as [Hc Hcs].
    destruct (exec_spec n E s c Hinv Hc) as (a & s1 & He & Hinv1 & _).
    destruct (IH _ _ Hinv1 Hcs) as (answers & s' & Hr & Hinv').
    exists (a :: answers), s'. simpl. rewrite He, bind_Ok. cbn beta iota.
    rewrite Hr, bind_Ok. split; [done|].
    eapply inv_subseteq; [| |exact Hinv'].
    + intros e. rewrite !elem_of_app. destruct c; simpl; rewrite ?elem_of_cons;
        set_solver.
    + intros e. rewrite !elem_of_app. destruct c; simpl; rewrite ?elem_of_cons;
        set_solver.
Qed.

Lemma run_init (n : Z) (cs : list call) :
  0 ≤ n → Forall (in_range n) cs →
  ∃ answers s, run (DSet.init n) cs = Ok (answers, s) ∧ inv n (union_edges cs) s.
Proof.
  intros Hn Hcs.
  destruct (run_inv n cs [] _ (inv_init n Hn) Hcs) as (answers & s & Hr & Hinv).
  exists answers, s. by rewrite app_nil_r in Hinv.
Qed.

(** ** Flat trees *)

Lemma find_parts (s : DSet.t) p q s' :
  DSet.find s p = Ok (q, s') →
  DSet.find_root (DSet.fuel_of (DSet.parent_map s)) (DSet.parent_map s) p = Ok q ∧
  DSet.compress (DSet.fuel_of (DSet.parent_map s)) (DSet.parent_map s) (DSet.sz_map s) p q
    = Ok (DSet.parent_map s', DSet.sz_map s').
Proof.
  unfold DSet.find. intros H.
  apply bind_inv in H as (q' & Hq & H). apply bind_inv in H as ([pm' sz'] & Hc & H).
  by simplify_eq.
Qed.

Lemma find_flat (s s' : DSet.t) p q :
  root_of (DSet.parent_map s) p q → DSet.find s p = Ok (q, s') →
  flat_at (DSet.parent_map s') p ∧
  ∀ y, flat_at (DSet.parent_map s) y → flat_at (DSet.parent_map s') y.
Proof.
  intros Hr Hf.
  destruct (find_spec s p q Hr) as (s'' & Hf' & Hcount & Hct & Hv).
  rewrite Hf in Hf'. injection Hf' as <-.
  pose proof (compressed_same_partition _ _ _ Hcount Hct) as Hsp.
  destruct Hct as (Hq & _ & Hpt).
  assert (DSet.parent_map s' !! q = Some q) as Hq' by (by apply (sp_roots _ _ Hsp)).
  split.
  - exists q. split; [|done]. apply (Hv p), visits_here.
  - intros y (r & Hy & Hroot).
    destruct (Hpt y) as [[Hy' _] | (_ & _ & _ & Hy' & _)].
    + exists r. split; [congruence | by apply (sp_roots _ _ Hsp)].
    + by exists q.
Qed.

Lemma run_cons_Ok (s s1 s' : DSet.t) c cs a answers :
  exec s c = Ok (a, s1) → run s1 cs = Ok (answers, s') →
  run s (c :: cs) = Ok (a :: answers, s').
Proof. intros H1 H2. simpl. rewrite H1. simpl. by rewrite H2. Qed.

Lemma find_each_flat (n : Z) (E : list (Z * Z)) (ps : list Z) : ∀ s : DSet.t,
  inv n E s → Forall (λ p, 0 ≤ p < n) ps →
  ∃ answers s', run s (Find <$> ps) = Ok (answers, s') ∧ inv n E s' ∧
    (∀ y, flat_at (DSet.parent_map s) y → flat_at (DSet.parent_map s') y) ∧
    (∀ y, y ∈ ps → flat_at (DSet.parent_map s') y).
Proof.
  induction ps as [|p ps IH]; intros s Hinv Hps.
  - exists [], s. split; [done|]. split; [done|]. split; [done|].
    intros y Hy. by apply elem_of_nil in Hy.
  - apply Forall_cons in Hps as [Hp Hps].
    destruct (wf_root _ _ (inv_wf _ _ _ Hinv) p Hp) as [q Hq].
    destruct (find_spec s p q Hq) as (s1 & Hf & Hcount & Hct & _).
    pose proof (compressed_same_partition _ _ _ Hcount Hct) as Hsp.
    destruct (find_flat s s1 p q Hq Hf) as [Hflat_p Hflat].
    destruct (IH s1 (inv_same_partition _ _ _ _ Hinv Hsp) Hps)
      as (answers & s' & Hr & Hinv' & Hkeep & Hnew).
    exists (ARoot q :: answers), s'. split.
    { rewrite fmap_cons. apply (run_cons_Ok s s1); [|done]. simpl. by rewrite Hf. }
    split; [done|]. split; [by eauto|].
    intros y Hy. apply elem_of_cons in Hy as [->|Hy]; eauto.
Qed.

Lemma flat_at_path (pm : gmap Z Z) y :
  flat_at pm y → ∃ r k, path pm y r k ∧ (k ≤ 1)%nat.
Proof.
  intros (r & Hy & Hr). destruct (decide (y = r)) as [->|Hne].
  - exists r, 0%nat. split; [by apply path_root | lia].
  - exists r, 1%nat. split; [|lia]. eapply path_step; [done..|by apply path_root].
Qed.

(** ** The disjoint set: statements of the specification *)

(** C8 (as the code has it): [__init__] checks nothing and never fails.
    For every integer [n], negative ones included, it returns a
    structure whose count is [n] and whose two dictionaries have exactly
    the keys of [[0, n)]: each such element is its own parent, with
    recorded size 1.  For [n < 0] both dictionaries are empty. *)
Theorem init_singletons (n i : Z) :
  DSet.count (DSet.init n) = n ∧
  DSet.parent_map (DSet.init n) !! i = (if decide (0 ≤ i < n) then Some i else None) ∧
  DSet.sz_map (DSet.init n) !! i = (if decide (0 ≤ i < n) then Some 1 else None).
Proof. split; [done|]. split; [apply init_parent | apply init_sz]. Qed.

(** C8, counterexample: with [n = -1] nothing is raised; the constructor
    returns an empty structure whose count is -1. *)
Lemma init_negative_returns :
  DSet.init (-1) = {| DSet._count := -1; DSet.parent_map := ∅; DSet.sz_map := ∅ |}.
Proof. reflexivity. Qed.

(** C2: after any run of calls on elements of [[0, n)],
    [is_connected(p, q)] answers true exactly when [p] and [q] lie in
    one component of the graph whose edges are the unions made; the
    relation it induces on [[0, n)] is reflexive, symmetric and
    transitive. *)
Theorem is_connected_iff_component (n : Z) (cs : list call) :
  0 ≤ n → Forall (in_range n) cs →
  ∃ answers s,
    run (DSet.init n) cs = Ok (answers, s) ∧
    (∀ p q, 0 ≤ p < n → 0 ≤ q < n →
       ∃ b s', DSet.is_connected s p q = Ok (b, s') ∧
               (b = true ↔ connected (union_edges cs) p q)) ∧
    (∀ p, 0 ≤ p < n → ∃ s', DSet.is_connected s p p = Ok (true, s')) ∧
    (∀ p q s1, 0 ≤ p < n → 0 ≤ q < n →
       DSet.is_connected s p q = Ok (true, s1) →
       ∃ s2, DSet.is_connected s q p = Ok (true, s2)) ∧
    (∀ p q r s1 s2, 0 ≤ p < n → 0 ≤ q < n → 0 ≤ r < n →
       DSet.is_connected s p q = Ok (true, s1) →
       DSet.is_connected s q r = Ok (true, s2) →
       ∃ s3, DSet.is_connected s p r = Ok (true, s3)).
Proof.
  intros Hn Hcs. destruct (run_init n cs Hn Hcs) as (answers & s & Hrun & Hinv).
  exists answers, s. split; [done|].
  pose proof (inv_wf _ _ _ Hinv) as Hwf.
  assert (∀ p q, 0 ≤ p < n → 0 ≤ q < n →
            ∃ b s', DSet.is_connected s p q = Ok (b, s') ∧
                    (b = true ↔ connected (union_edges cs) p q)) as Hiff.
  { intros p q Hp Hq.
    destruct (wf_root _ _ Hwf p Hp) as [a Ha].
    destruct (wf_root _ _ Hwf q Hq) as [b Hb].
    destruct (is_connected_spec n s p q a b Hwf Ha Hb) as (s' & Hi & _).
    exists (bool_decide (a = b)), s'. split; [done|].
    rewrite bool_decide_eq_true, <-(inv_conn _ _ _ Hinv) by done.
    symmetry. by apply same_set_roots. }
  split; [done|]. split; [|split].
  - intros p Hp. destruct (Hiff p p Hp Hp) as (b & s' & Hi & Hb).
    exists s'. rewrite Hi. do 2 f_equal. apply Hb, connected_refl.
  - intros p q s1 Hp Hq H1.
    destruct (Hiff p q Hp Hq) as (b & s' & Hi & Hb).
    destruct (Hiff q p Hq Hp) as (b' & s2 & Hi' & Hb').
    exists s2. rewrite Hi'. do 2 f_equal. apply Hb', connected_sym, Hb. congruence.
  - intros p q r s1 s2 Hp Hq Hr H1 H2.
    destruct (Hiff p q Hp Hq) as (b1 & s1' & Hi1 & Hb1).
    destruct (Hiff q r Hq Hr) as (b2 & s2' & Hi2 & Hb2).
    destruct (Hiff p r Hp Hr) as (b3 & s3 & Hi3 & Hb3).
    exists s3. rewrite Hi3. do 2 f_equal. apply Hb3.
    eapply connected_trans; [apply Hb1 | apply Hb2]; congruence.
Qed.

Lemma is_connected_iff_component_witness :
  ∃ answers s,
    run (DSet.init 3) [Union 0 1; Find 1] = Ok (answers, s) ∧
    (∀ p q, 0 ≤ p < 3 → 0 ≤ q < 3 →
       ∃ b s', DSet.is_connected s p q = Ok (b, s') ∧
               (b = true ↔ connected (union_edges [Union 0 1; Find 1]) p q)) ∧
    (∀ p, 0 ≤ p < 3 → ∃ s', DSet.is_connected s p p = Ok (true, s')) ∧
    (∀ p q s1, 0 ≤ p < 3 → 0 ≤ q < 3 →
       DSet.is_connected s p q = Ok (true, s1) →
       ∃ s2, DSet.is_connected s q p = Ok (true, s2)) ∧
    (∀ p q r s1 s2, 0 ≤ p < 3 → 0 ≤ q < 3 → 0 ≤ r < 3 →
       DSet.is_connected s p q = Ok (true, s1) →
       DSet.is_connected s q r = Ok (true, s2) →
       ∃ s3, DSet.is_connected s p r = Ok (true, s3)).
Proof.
  apply (is_connected_iff_component 3 [Union 0 1; Find 1]); [lia|].
  repeat constructor; simpl; lia.
Defined.

(** C5: for a disjoint set created with [n ≥ 1], [count()] is [n] at the
    start; after any run of calls on elements of [[0, n)] it equals the
    number of roots and is at least 1; and from any such state a union
    of two different sets lowers it by exactly 1, while a union inside
    one set, a find, an is_connected and a count leave it as it is. *)
Theorem count_is_number_of_roots (n : Z) (cs : list call) :
  1 ≤ n → Forall (in_range n) cs →
  DSet.count (DSet.init n) = n ∧
  ∃ answers s,
    run (DSet.init n) cs = Ok (answers, s) ∧
    DSet.count s = Z.of_nat (num_roots (DSet.parent_map s)) ∧
    1 ≤ DSet.count s ∧
    ∀ c, in_range n c →
      ∃ a s', exec s c = Ok (a, s') ∧
        match c with
        | Union p q =>
            (same_set s p q → DSet.count s' = DSet.count s) ∧
            (¬ same_set s p q → DSet.count s' = DSet.count s - 1)
        | Find _ | IsConnected _ _ | Count => DSet.count s' = DSet.count s
        end.
Proof.
  intros Hn Hcs. split; [done|].
  destruct (run_init n cs ltac:(lia) Hcs) as (answers & s & Hrun & Hinv).
  exists answers, s. split; [done|].
  pose proof (inv_wf _ _ _ Hinv) as Hwf.
  pose proof (inv_count _ _ _ Hinv) as Hcount.
  split; [done|]. split.
  - destruct (wf_root _ _ Hwf 0 ltac:(lia)) as [r Hr].
    pose proof (num_roots_pos _ _ (root_of_is_root _ _ _ Hr)).
    unfold DSet.count. lia.
  - intros c Hc.
    destruct (exec_spec n _ s c Hinv Hc) as (a & s' & He & _ & Hans).
    exists a, s'. split; [done|]. unfold DSet.count.
    destruct c as [p q|p|p q|].
    + destruct Hans as (_ & Hsame & Hdiff). split; [|done].
      intros Hs. by apply (sp_count _ _ (Hsame Hs)).
    + destruct Hans as (r & _ & _ & Hsp). by apply (sp_count _ _ Hsp).
    + destruct Hans as (b & _ & _ & Hsp). by apply (sp_count _ _ Hsp).
    + by destruct Hans as [_ ->].
Qed.

Lemma count_is_number_of_roots_witness :
  DSet.count (DSet.init 5) = 5 ∧
  ∃ answers s,
    run (DSet.init 5) [Union 0 1; Union 2 3; IsConnected 0 3; Union 1 0] = Ok (answers, s) ∧
    DSet.count s = Z.of_nat (num_roots (DSet.parent_map s)) ∧
    1 ≤ DSet.count s ∧
    ∀ c, in_range 5 c →
      ∃ a s', exec s c = Ok (a, s') ∧
        match c with
        | Union p q =>
            (same_set s p q → DSet.count s' = DSet.count s) ∧
            (¬ same_set s p q → DSet.count s' = DSet.count s - 1)
        | Find _ | IsConnected _ _ | Count => DSet.count s' = DSet.count s
        end.
Proof.
  apply (count_is_number_of_roots 5 [Union 0 1; Union 2 3; IsConnected 0 3; Union 1 0]);
    [lia|].
  repeat constructor; simpl; lia.
Defined.

(** C3 (as the code has it): [union(p, q)] on elements of [[0, n)],
    whose roots are [a] and [b] with recorded sizes [sa] and [sb].
    When [a ≠ b], count drops by exactly 1; if [sa < sb] the root [a] is
    put under [b], else (also on equal sizes) the root [b] is put under
    [a]; the root that stays is still a root and its recorded size is
    [sa + sb].  When [a = b], count, the roots and the root of every
    element stay as they were, and the path compression of the two
    finds is all that happens: the elements on the walk from [p] or on
    the walk from [q] point at the root afterwards, those of them that
    are no root with recorded size 2, the root keeps its recorded size,
    and every other entry of [parent_map] and [sz_map] is as before. *)
Theorem union_by_recorded_size (n : Z) (cs : list call) (p q : Z) :
  0 ≤ n → Forall (in_range n) cs → 0 ≤ p < n → 0 ≤ q < n →
  ∃ answers s a b sa sb s',
    run (DSet.init n) cs = Ok (answers, s) ∧
    root_of (DSet.parent_map s) p a ∧ root_of (DSet.parent_map s) q b ∧
    DSet.sz_map s !! a = Some sa ∧ DSet.sz_map s !! b = Some sb ∧
    DSet.union s p q = Ok s' ∧
    (a ≠ b →
       DSet.count s' = DSet.count s - 1 ∧
       if bool_decide (sa < sb)
       then DSet.parent_map s' !! a = Some b ∧ DSet.parent_map s' !! b = Some b ∧
            DSet.sz_map s' !! b = Some (sa + sb)
       else DSet.parent_map s' !! b = Some a ∧ DSet.parent_map s' !! a = Some a ∧
            DSet.sz_map s' !! a = Some (sa + sb)) ∧
    (a = b →
       same_partition s s' ∧
       DSet.sz_map s' !! a = Some sa ∧
       ∀ y, (visits (DSet.parent_map s) p y ∨ visits (DSet.parent_map s) q y →
               DSet.parent_map s' !! y = Some a ∧
               (y ≠ a → DSet.sz_map s' !! y = Some 2)) ∧
            (¬ (visits (DSet.parent_map s) p y ∨ visits (DSet.parent_map s) q y) →
               DSet.parent_map s' !! y = DSet.parent_map s !! y ∧
               DSet.sz_map s' !! y = DSet.sz_map s !! y)).
Proof.
  intros Hn Hcs Hp Hq.
  destruct (run_init n cs Hn Hcs) as (answers & s & Hrun & Hinv).
  pose proof (inv_wf _ _ _ Hinv) as Hwf.
  destruct (wf_root _ _ Hwf p Hp) as [a Ha].
  destruct (wf_root _ _ Hwf q Hq) as [b Hb].
  pose proof (root_of_is_root _ _ _ Ha) as Hra.
  pose proof (root_of_is_root _ _ _ Hb) as Hrb.
  destruct (wf_sz _ _ Hwf a) as [sa Hsa]; [apply (wf_dom _ _ Hwf); eauto|].
  destruct (wf_sz _ _ Hwf b) as [sb Hsb]; [apply (wf_dom _ _ Hwf); eauto|].
  destruct (decide (a = b)) as [->|Hab].
  - destruct (union_same_walks s p q b Ha Hb) as (s' & Hu & Hsp & Hwalks).
    exists answers, s, b, b, sa, sb, s'. do 6 (split; [done|]).
    split; [done|]. intros _. split; [done|]. split; [|done].
    by rewrite (sp_sz_root _ _ Hsp b Hrb).
  - destruct (union_link n s p q a b sa sb Hwf Ha Hb Hab Hsa Hsb) as (s2 & Hsp & Hu).
    eexists answers, s, a, b, sa, sb, _. repeat (split; [done|]).
    split; [|done]. intros _.
    apply (sp_roots _ _ Hsp) in Hra, Hrb. pose proof (sp_count _ _ Hsp) as Hc.
    unfold DSet.count. case_bool_decide; simpl; rewrite !lookup_insert_eq;
      rewrite lookup_insert_ne by done; by rewrite Hc.
Qed.

Lemma union_by_recorded_size_witness :
  ∃ answers s a b sa sb s',
    run (DSet.init 4) [Union 0 1] = Ok (answers, s) ∧
    root_of (DSet.parent_map s) 2 a ∧ root_of (DSet.parent_map s) 1 b ∧
    DSet.sz_map s !! a = Some sa ∧ DSet.sz_map s !! b = Some sb ∧
    DSet.union s 2 1 = Ok s' ∧
    (a ≠ b →
       DSet.count s' = DSet.count s - 1 ∧
       if bool_decide (sa < sb)
       then DSet.parent_map s' !! a = Some b ∧ DSet.parent_map s' !! b = Some b ∧
            DSet.sz_map s' !! b = Some (sa + sb)
       else DSet.parent_map s' !! b = Some a ∧ DSet.parent_map s' !! a = Some a ∧
            DSet.sz_map s' !! a = Some (sa + sb)) ∧
    (a = b →
       same_partition s s' ∧
       DSet.sz_map s' !! a = Some sa ∧
       ∀ y, (visits (DSet.parent_map s) 2 y ∨ visits (DSet.parent_map s) 1 y →
               DSet.parent_map s' !! y = Some a ∧
               (y ≠ a → DSet.sz_map s' !! y = Some 2)) ∧
            (¬ (visits (DSet.parent_map s) 2 y ∨ visits (DSet.parent_map s) 1 y) →
               DSet.parent_map s' !! y = DSet.parent_map s !! y ∧
               DSet.sz_map s' !! y = DSet.sz_map s !! y)).
Proof.
  apply (union_by_recorded_size 4 [Union 0 1] 2 1); [lia| |lia|lia].
  repeat constructor; simpl; lia.
Defined.

(** C3, counterexample: after union(0,1), union(2,3), union(0,2) on four
    elements, 3 and 0 have the same root 0, yet [union(3, 0)] changes
    the structure: the parent of 3 was 2 and is 0 afterwards. *)
Lemma union_same_root_changes_parent :
  let s := state_after (DSet.init 4) [Union 0 1; Union 2 3; Union 0 2] in
  fst <$> DSet.find s 3 = Ok 0 ∧
  fst <$> DSet.find s 0 = Ok 0 ∧
  DSet.parent_map s !! 3 = Some 2 ∧
  (λ s', DSet.parent_map s' !! 3) <$> DSet.union s 3 0 = Ok (Some 0) ∧
  DSet.union s 3 0 ≠ Ok s.
Proof.
  assert (DSet.parent_map
            (state_after (DSet.init 4) [Union 0 1; Union 2 3; Union 0 2]) !! 3
          = Some 2) as H3 by (vm_compute; reflexivity).
  assert ((λ s', DSet.parent_map s' !! 3) <$>
            DSet.union (state_after (DSet.init 4) [Union 0 1; Union 2 3; Union 0 2]) 3 0
          = Ok (Some 0)) as Hu by (vm_compute; reflexivity).
  cbv zeta. split; [vm_compute; reflexivity|]. split; [vm_compute; reflexivity|].
  split; [done|]. split; [done|].
  intros Heq. rewrite Heq in Hu. simpl in Hu. congruence.
Qed.

(** C4: [find(p)] works in two passes.  The first walks from [p] to the
    root [q] on the dictionaries as they are; the second starts again
    from [p] with that [q] and leaves every element the walk passes
    through pointing at [q], and every other element as it was.  After
    a find on each element of [[0, n)] (in any order, repeats allowed)
    the parent of every element is a root: no tree is higher than 1. *)
Theorem find_compresses_paths (n : Z) (cs : list call) (ps : list Z) :
  0 ≤ n → Forall (in_range n) cs →
  Forall (λ p, 0 ≤ p < n) ps → (∀ y, 0 ≤ y < n → y ∈ ps) →
  ∃ answers s,
    run (DSet.init n) cs = Ok (answers, s) ∧
    (∀ p, 0 ≤ p < n →
       ∃ q s',
         DSet.find s p = Ok (q, s') ∧
         DSet.find_root (DSet.fuel_of (DSet.parent_map s)) (DSet.parent_map s) p = Ok q ∧
         DSet.parent_map s !! q = Some q ∧
         DSet.compress (DSet.fuel_of (DSet.parent_map s))
                       (DSet.parent_map s) (DSet.sz_map s) p q
           = Ok (DSet.parent_map s', DSet.sz_map s') ∧
         (∀ y, visits (DSet.parent_map s) p y → DSet.parent_map s' !! y = Some q) ∧
         (∀ y, ¬ visits (DSet.parent_map s) p y →
               DSet.parent_map s' !! y = DSet.parent_map s !! y)) ∧
    ∃ roots_found s',
      run s (Find <$> ps) = Ok (roots_found, s') ∧
      ∀ y, 0 ≤ y < n →
        flat_at (DSet.parent_map s') y ∧
        ∃ r k, path (DSet.parent_map s') y r k ∧ (k ≤ 1)%nat.
Proof.
  intros Hn Hcs Hps Hall.
  destruct (run_init n cs Hn Hcs) as (answers & s & Hrun & Hinv).
  exists answers, s. split; [done|]. split.
  - intros p Hp.
    destruct (wf_root _ _ (inv_wf _ _ _ Hinv) p Hp) as [q Hq].
    destruct (find_spec s p q Hq) as (s' & Hf & _ & _ & Hv).
    destruct (find_parts _ _ _ _ Hf) as [Hfr Hc].
    exists q, s'. split; [done|]. split; [done|].
    split; [by eapply root_of_is_root|]. split; [done|].
    split; intros y Hy; by apply (Hv y).
  - destruct (find_each_flat n _ ps s Hinv Hps) as (found & s' & Hr & _ & _ & Hflat).
    exists found, s'. split; [done|]. intros y Hy.
    pose proof (Hflat y (Hall y Hy)) as Hfy. split; [done | by apply flat_at_path].
Qed.

Lemma find_compresses_paths_witness :
  ∃ answers s,
    run (DSet.init 4) [Union 0 1; Union 2 3; Union 0 2] = Ok (answers, s) ∧
    (∀ p, 0 ≤ p < 4 →
       ∃ q s',
         DSet.find s p = Ok (q, s') ∧
         DSet.find_root (DSet.fuel_of (DSet.parent_map s)) (DSet.parent_map s) p = Ok q ∧
         DSet.parent_map s !! q = Some q ∧
         DSet.compress (DSet.fuel_of (DSet.parent_map s))
                       (DSet.parent_map s) (DSet.sz_map s) p q
           = Ok (DSet.parent_map s', DSet.sz_map s') ∧
         (∀ y, visits (DSet.parent_map s) p y → DSet.parent_map s' !! y = Some q) ∧
         (∀ y, ¬ visits (DSet.parent_map s) p y →
               DSet.parent_map s' !! y = DSet.parent_map s !! y)) ∧
    ∃ roots_found s',
      run s (Find <$> [0; 1; 2; 3]) = Ok (roots_found, s') ∧
      ∀ y, 0 ≤ y < 4 →
        flat_at (DSet.parent_map s') y ∧
        ∃ r k, path (DSet.parent_map s') y r k ∧ (k ≤ 1)%nat.
Proof.
  apply (find_compresses_paths 4 [Union 0 1; Union 2 3; Union 0 2] [0; 1; 2; 3]); [lia|..].
  - repeat constructor; simpl; lia.
  - repeat constructor; lia.
  - intros y Hy. assert (y = 0 ∨ y = 1 ∨ y = 2 ∨ y = 3) as Hcase by lia.
    rewrite !elem_of_cons. tauto.
Defined.

(** C9: the second loop of [find] sets the recorded size of every
    element it repoints (the elements on the walk that are no root) to
    the constant 2.  Nothing is lost by it: in every state reached by
    calls on elements of [[0, n)], the recorded size of each root, the
    only sizes [union] reads, is exactly the number of elements of its
    tree; [is_connected] answers by the components of the graph of the
    unions; and count is the number of roots. *)
Theorem size_two_is_harmless (n : Z) (cs : list call) :
  0 ≤ n → Forall (in_range n) cs →
  ∃ answers s,
    run (DSet.init n) cs = Ok (answers, s) ∧
    (∀ p, 0 ≤ p < n →
       ∃ q s', DSet.find s p = Ok (q, s') ∧
         ∀ y, visits (DSet.parent_map s) p y → DSet.parent_map s !! y ≠ Some y →
              DSet.sz_map s' !! y = Some 2) ∧
    (∀ r, DSet.parent_map s !! r = Some r →
          DSet.sz_map s !! r = Some (Z.of_nat (length (tree_of n (DSet.parent_map s) r)))) ∧
    (∀ p q, 0 ≤ p < n → 0 ≤ q < n →
       ∃ b s', DSet.is_connected s p q = Ok (b, s') ∧
               (b = true ↔ connected (union_edges cs) p q)) ∧
    DSet.count s = Z.of_nat (num_roots (DSet.parent_map s)).
Proof.
  intros Hn Hcs.
  destruct (run_init n cs Hn Hcs) as (answers & s & Hrun & Hinv).
  pose proof (inv_wf _ _ _ Hinv) as Hwf.
  exists answers, s. split; [done|]. split; [|split; [|split]].
  - intros p Hp. destruct (wf_root _ _ Hwf p Hp) as [q Hq].
    destruct (find_spec s p q Hq) as (s' & Hf & _ & _ & Hv).
    exists q, s'. split; [done|]. intros y Hy Hnr. by apply (Hv y).
  - apply (inv_size _ _ _ Hinv).
  - intros p q Hp Hq.
    destruct (wf_root _ _ Hwf p Hp) as [a Ha].
    destruct (wf_root _ _ Hwf q Hq) as [b Hb].
    destruct (is_connected_spec n s p q a b Hwf Ha Hb) as (s' & Hi & _).
    exists (bool_decide (a = b)), s'. split; [done|].
    rewrite bool_decide_eq_true, <-(inv_conn _ _ _ Hinv) by done.
    symmetry. by apply same_set_roots.
  - apply (inv_count _ _ _ Hinv).
Qed.

Lemma size_two_is_harmless_witness :
  ∃ answers s,
    run (DSet.init 3) [Union 0 1; Find 1; Union 1 2] = Ok (answers, s) ∧
    (∀ p, 0 ≤ p < 3 →
       ∃ q s', DSet.find s p = Ok (q, s') ∧
         ∀ y, visits (DSet.parent_map s) p y → DSet.parent_map s !! y ≠ Some y →
              DSet.sz_map s' !! y = Some 2) ∧
    (∀ r, DSet.parent_map s !! r = Some r →
          DSet.sz_map s !! r = Some (Z.of_nat (length (tree_of 3 (DSet.parent_map s) r)))) ∧
    (∀ p q, 0 ≤ p < 3 → 0 ≤ q < 3 →
       ∃ b s', DSet.is_connected s p q = Ok (b, s') ∧
               (b = true ↔ connected (union_edges [Union 0 1; Find 1; Union 1 2]) p q)) ∧
    DSet.count s = Z.of_nat (num_roots (DSet.parent_map s)).
Proof.
  apply (size_two_is_harmless 3 [Union 0 1; Find 1; Union 1 2]); [lia|].
  repeat constructor; simpl; lia.
Defined.

(** The constant is not the size of the subtree: after union(0,1) and
    find(1) on two elements, 1 is a leaf under the root 0 (no element
    has 1 as its parent), and its recorded size is 2. *)
Lemma size_two_on_a_leaf :
  let s := state_after (DSet.init 2) [Union 0 1; Find 1] in
  DSet.parent_map s !! 0 = Some 0 ∧ DSet.parent_map s !! 1 = Some 0 ∧
  DSet.sz_map s !! 1 = Some 2.
Proof. cbv zeta. repeat split; vm_compute; reflexivity. Qed.

(** ** Walks, simple paths and forests *)

Section paths.
Context {V : Type} `{!EqDecision V}.
Implicit Types (E : list (V * V)) (R : relation V) (a b x y u v : V) (l : list V).

Lemma chain_app R a l1 l2 b :
  chain R a (l1 ++ l2) b ↔ ∃ m, chain R a l1 m ∧ chain R m l2 b.
Proof.
  revert a. induction l1 as [|x l1 IH]; intros a; simpl.
  - split; [intros H; by exists a | by intros (m & -> & H)].
  - rewrite IH. naive_solver.
Qed.

Lemma chain_end_in R a l b : chain R a l b → b ∈ a :: l.
Proof.
  revert a. induction l as [|x l IH]; intros a; simpl.
  - intros ->. left.
  - intros [_ H]. right. by apply IH.
Qed.

Lemma chain_connected E a l b : chain (sc (edge E)) a l b → connected E a b.
Proof.
  revert a. induction l as [|x l IH]; intros a; simpl.
  - intros ->. apply connected_refl.
  - intros [Hax H]. eapply rtc_l; [exact Hax | by apply IH].
Qed.

Lemma connected_chain E a b : connected E a b → ∃ l, chain (sc (edge E)) a l b.
Proof.
  induction 1 as [a | a x b Hax _ [l Hl]].
  - by exists [].
  - by exists (x :: l).
Qed.

Lemma chain_suffix R l1 : ∀ x l b a l2,
  chain R x l b → x :: l = l1 ++ a :: l2 → chain R a l2 b.
Proof.
  induction l1 as [|z l1 IH]; intros x l b a l2 Hc Heq; simpl in Heq.
  - by simplify_eq.
  - injection Heq as -> ->. destruct l1 as [|z' l1]; simpl in *.
    + destruct Hc as [_ Hc]. by eapply (IH a l2 b a l2).
    + destruct Hc as [_ Hc]. by eapply (IH z' (l1 ++ a :: l2)).
Qed.

(** Cutting the loops out of a walk. *)
Lemma chain_simple R l : ∀ a b,
  chain R a l b → ∃ l', chain R a l' b ∧ NoDup (a :: l').
Proof.
  induction l as [|x l IH]; intros a b; simpl.
  - intros ->. exists []. split; [done|]. apply NoDup_singleton.
  - intros [Hax Hc]. destruct (IH _ _ Hc) as (l' & Hc' & Hnd).
    destruct (decide (a ∈ x :: l')) as [Hin|Hnin].
    + apply list_elem_of_split in Hin as (l1 & l2 & Heq).
      exists l2. split; [by eapply chain_suffix|].
      rewrite Heq in Hnd. by apply NoDup_app in Hnd as (_ & _ & ?).
    + exists (x :: l'). split; [done|]. by apply NoDup_cons.
Qed.

Lemma connected_simple_path E a b : connected E a b → ∃ l, simple_path E a l b.
Proof.
  intros H. apply connected_chain in H as [l Hl].
  destruct (chain_simple _ _ _ _ Hl) as (l' & ? & ?). by exists l'.
Qed.

Lemma sc_edge_cons E u v a z :
  sc (edge ((u, v) :: E)) a z ↔ sc (edge E) a z ∨ (a = u ∧ z = v) ∨ (a = v ∧ z = u).
Proof.
  unfold sc, edge. rewrite !elem_of_cons. naive_solver.
Qed.

(** A walk in a graph with one more edge either avoids the edge or
    reaches it along old edges. *)
Lemma chain_new_edge E u v l : ∀ a b,
  chain (sc (edge ((u, v) :: E))) a l b →
  chain (sc (edge E)) a l b ∨
  ∃ l1 l2 x y, l = l1 ++ y :: l2 ∧ chain (sc (edge E)) a l1 x ∧
               ((x = u ∧ y = v) ∨ (x = v ∧ y = u)) ∧
               chain (sc (edge ((u, v) :: E))) y l2 b.
Proof.
  induction l as [|z l IH]; intros a b; simpl; [by left|].
  intros [Haz Hc]. apply sc_edge_cons in Haz as [Hold|Hnew].
  - destruct (IH _ _ Hc) as [Hc'|(l1 & l2 & x & y & -> & Hc1 & Hxy & Hc2)].
    + by left.
    + right. exists (z :: l1), l2, x, y. done.
  - right. exists [], l, a, z. done.
Qed.

(** A simple path crosses the new edge at most once. *)
Lemma simple_new_edge E u v a l b :
  NoDup (a :: l) → chain (sc (edge ((u, v) :: E))) a l b →
  chain (sc (edge E)) a l b ∨
  ∃ l1 l2 x y, l = l1 ++ y :: l2 ∧ chain (sc (edge E)) a l1 x ∧
               ((x = u ∧ y = v) ∨ (x = v ∧ y = u)) ∧
               chain (sc (edge E)) y l2 b.
Proof.
  intros Hnd Hc.
  destruct (chain_new_edge _ _ _ _ _ _ Hc) as [?|(l1 & l2 & x & y & -> & Hc1 & Hxy & Hc2)];
    [by left|].
  right. exists l1, l2, x, y. repeat (split; [done|]).
  destruct (chain_new_edge _ _ _ _ _ _ Hc2)
    as [?|(l3 & l4 & x' & y' & -> & Hc3 & Hxy' & _)]; [done|].
  exfalso.
  pose proof (chain_end_in _ _ _ _ Hc1) as Hx.
  pose proof (chain_end_in _ _ _ _ Hc3) as Hx'.
  rewrite app_comm_cons in Hnd. apply NoDup_app in Hnd as (_ & Hdisj & _).
  apply (Hdisj x Hx).
  assert (x = x' ∨ x = y') as [->| ->] by naive_solver.
  - rewrite app_comm_cons. apply elem_of_app. by left.
  - rewrite app_comm_cons. apply elem_of_app. right. left.
Qed.

(** In a forest two vertices are joined by at most one simple path. *)
Theorem forest_unique E :
  forest E → ∀ a b l l', simple_path E a l b → simple_path E a l' b → l = l'.
Proof.
  induction 1 as [|u v E Hf IH Hnc].
  - intros a b l l' [Hc _] [Hc' _].
    assert (∀ l0, chain (sc (edge [])) a l0 b → l0 = []) as Hnil.
    { intros [|z l0]; [done|]. intros [[Hz|Hz] _]; by apply elem_of_nil in Hz. }
    by rewrite (Hnil _ Hc), (Hnil _ Hc').
  - intros a b l l' [Hc Hnd] [Hc' Hnd'].
    destruct (simple_new_edge _ _ _ _ _ _ Hnd Hc)
      as [Hold|(l1 & l2 & x & y & -> & Hc1 & Hxy & Hc2)];
    destruct (simple_new_edge _ _ _ _ _ _ Hnd' Hc')
      as [Hold'|(l1' & l2' & x' & y' & -> & Hc1' & Hxy' & Hc2')].
    + by apply (IH a b).
    + exfalso. apply Hnc.
      assert (connected E x' y') as Hxy''.
      { eapply connected_trans; [eapply connected_sym, chain_connected, Hc1'|].
        eapply connected_trans; [eapply chain_connected, Hold|].
        eapply connected_sym, chain_connected, Hc2'. }
      destruct Hxy' as [[-> ->]|[-> ->]]; [done | by apply connected_sym].
    + exfalso. apply Hnc.
      assert (connected E x y) as Hxy''.
      { eapply connected_trans; [eapply connected_sym, chain_connected, Hc1|].
        eapply connected_trans; [eapply chain_connected, Hold'|].
        eapply connected_sym, chain_connected, Hc2. }
      destruct Hxy as [[-> ->]|[-> ->]]; [done | by apply connected_sym].
    + assert (x = x' ∧ y = y') as [<- <-].
      { destruct Hxy as [[-> ->]|[-> ->]], Hxy' as [[-> ->]|[-> ->]]; try done;
          exfalso; apply Hnc.
        - eapply connected_trans; [eapply connected_sym, chain_connected, Hc1|].
          eapply chain_connected, Hc1'.
        - eapply connected_trans; [eapply connected_sym, chain_connected, Hc1'|].
          eapply chain_connected, Hc1. }
      rewrite app_comm_cons in Hnd, Hnd'.
      apply NoDup_app in Hnd as (Hnd1 & _ & Hnd2).
      apply NoDup_app in Hnd' as (Hnd1' & _ & Hnd2').
      rewrite (IH a x l1 l1'), (IH y b l2 l2'); done.
Qed.

End paths.

(** ** The grid *)

Lemma np_index_ok (len : nat) (i : Z) :
  0 ≤ i < Z.of_nat len → np_index len i = Ok (Z.to_nat i).
Proof.
  intros Hi. unfold np_index.
  rewrite (bool_decide_false (i < 0)) by lia. by rewrite bool_decide_true by lia.
Qed.

Lemma cell_at_lookup (W H : Z) (g : list (list Z)) (c : Z * Z) (v : Z) :
  shape W H g → in_grid W H c →
  cell_at g c = Ok v ↔
  ∃ row, g !! Z.to_nat c.1 = Some row ∧ row !! Z.to_nat c.2 = Some v.
Proof.
  intros [Hlen Hrows] [Hx Hy]. unfold cell_at, grid_getitem.
  rewrite np_index_ok, bind_Ok by lia.
  destruct (g !! Z.to_nat c.1) as [row|] eqn:Hrow; [|naive_solver].
  assert (Z.of_nat (length row) = H) as Hr.
  { apply Hrows. by eapply list_elem_of_lookup_2. }
  rewrite np_index_ok, bind_Ok by lia.
  destruct (row !! Z.to_nat c.2) as [v'|] eqn:Hv; naive_solver.
Qed.

Lemma cell_at_is_Ok (W H : Z) (g : list (list Z)) (c : Z * Z) :
  shape W H g → in_grid W H c → ∃ v, cell_at g c = Ok v.
Proof.
  intros Hs Hc. pose proof Hs as [Hlen Hrows]. pose proof Hc as [Hx Hy].
  destruct (lookup_lt_is_Some_2 g (Z.to_nat c.1)) as [row Hrow]; [lia|].
  assert (Z.of_nat (length row) = H) as Hr.
  { apply Hrows. by eapply list_elem_of_lookup_2. }
  destruct (lookup_lt_is_Some_2 row (Z.to_nat c.2)) as [v Hv]; [lia|].
  exists v. apply (cell_at_lookup W H); eauto.
Qed.

Lemma grid_setitem_spec (W H : Z) (g : list (list Z)) (c : Z * Z) (v : Z) :
  shape W H g → in_grid W H c →
  ∃ g', grid_setitem g c.1 c.2 v = Ok g' ∧ shape W H g' ∧ cell_at g' c = Ok v ∧
        ∀ c', in_grid W H c' → c' ≠ c → cell_at g' c' = cell_at g c'.
Proof.
  intros Hs Hc. pose proof Hs as [Hlen Hrows]. pose proof Hc as [Hx Hy].
  destruct (lookup_lt_is_Some_2 g (Z.to_nat c.1)) as [row Hrow]; [lia|].
  assert (Z.of_nat (length row) = H) as Hr.
  { apply Hrows. by eapply list_elem_of_lookup_2. }
  unfold grid_setitem. rewrite np_index_ok, bind_Ok by lia. rewrite Hrow.
  rewrite np_index_ok, bind_Ok by lia.
  set (g' := <[Z.to_nat c.1 := <[Z.to_nat c.2 := v]> row]> g).
  assert (shape W H g') as Hs'.
  { split; [unfold g'; by rewrite length_insert|].
    intros row' Hrow'. apply list_elem_of_lookup in Hrow' as [i Hi].
    unfold g' in Hi. apply list_lookup_insert_Some in Hi as [(_ & <- & _)|[_ Hi]].
    - by rewrite length_insert.
    - apply Hrows. by eapply list_elem_of_lookup_2. }
  exists g'. split; [done|]. split; [done|]. split.
  - apply (cell_at_lookup W H); [done..|]. eexists. split.
    + unfold g'. apply list_lookup_insert_eq. lia.
    + apply list_lookup_insert_eq. lia.
  - intros c' Hc' Hne. pose proof Hc' as [Hx' Hy'].
    destruct (cell_at_is_Ok W H g c' Hs Hc') as [v' Hv']. rewrite Hv'.
    apply (cell_at_lookup W H) in Hv' as (row' & Hrow' & Hv'); [|done..].
    apply (cell_at_lookup W H); [done..|].
    destruct (decide (c'.1 = c.1)) as [Heq|Hneq].
    + rewrite Heq in Hrow' |- *. assert (row' = row) as -> by congruence.
      eexists. split; [unfold g'; apply list_lookup_insert_eq; lia|].
      rewrite list_lookup_insert_ne; [done|].
      intros Heq'. apply Hne. destruct c, c'; simpl in *. f_equal; lia.
    + exists row'. split; [|done]. unfold g'.
      rewrite list_lookup_insert_ne; [done | lia].
Qed.

Lemma ones_shape (W H : Z) : 0 ≤ W → 0 ≤ H → shape W H (ones W H).
Proof.
  intros HW HH. unfold ones. split.
  - rewrite length_replicate. lia.
  - intros row Hrow. apply elem_of_replicate_inv in Hrow as ->.
    rewrite length_replicate. lia.
Qed.

Lemma ones_cell (W H : Z) (c : Z * Z) : in_grid W H c → cell_at (ones W H) c = Ok 1.
Proof.
  intros [Hx Hy]. apply (cell_at_lookup W H); [apply ones_shape; lia | done |].
  unfold ones. eexists. split; apply lookup_replicate_2; lia.
Qed.

Lemma for_each_cons {A S : Type} (body : S → A → result S) (s s1 : S) (a : A) (l : list A) :
  body s a = Ok s1 → for_each body s (a :: l) = for_each body s1 l.
Proof. intros Hb. simpl. by rewrite Hb. Qed.

Lemma for_each_app {A S : Type} (body : S → A → result S) (l1 l2 : list A) : ∀ s : S,
  for_each body s (l1 ++ l2) = for_each body s l1 ≫= λ s', for_each body s' l2.
Proof.
  induction l1 as [|a l1 IH]; intros s; [done|].
  simpl. destruct (body s a) as [s1|e]; [|done]. rewrite !bind_Ok. apply IH.
Qed.

(** A loop of assignments [grid[c] = 0] over cells of the grid. *)
Lemma open_cells (W H : Z) (l : list (Z * Z)) : ∀ g,
  shape W H g → Forall (in_grid W H) l →
  ∃ g', for_each KruskalMaze.open_cell g l = Ok g' ∧ shape W H g' ∧
        ∀ c, in_grid W H c → cell_at g' c = if decide (c ∈ l) then Ok 0 else cell_at g c.
Proof.
  induction l as [|c0 l IH]; intros g Hs Hl.
  - exists g. split; [done|]. split; [done|]. intros c Hc.
    by rewrite decide_False by apply not_elem_of_nil.
  - apply Forall_cons in Hl as [Hc0 Hl].
    destruct (grid_setitem_spec W H g c0 0 Hs Hc0) as (g1 & Hset & Hs1 & Hat & Hother).
    destruct (IH g1 Hs1 Hl) as (g' & Hfor & Hs' & Hcells).
    exists g'. split.
    { by rewrite (for_each_cons _ g g1). }
    split; [done|]. intros c Hc. rewrite (Hcells c Hc).
    destruct (decide (c ∈ l)) as [Hin|Hnin].
    + by rewrite decide_True by (by right).
    + destruct (decide (c = c0)) as [->|Hne].
      * by rewrite decide_True by left.
      * rewrite decide_False by (rewrite elem_of_cons; naive_solver). by apply Hother.
Qed.

(** ** The three classes of cells *)

Lemma elem_of_range2 (start stop x : Z) :
  x ∈ range2 start stop ↔ ∃ i, 0 ≤ i ∧ x = start + 2 * i ∧ x < stop.
Proof.
  unfold range2. rewrite list_elem_of_fmap. setoid_rewrite elem_of_seqZ.
  split; intros (i & H1 & H2); exists i; Z.to_euclidean_division_equations; lia.
Qed.

Lemma elem_of_range2_even (stop x : Z) :
  x ∈ range2 0 stop ↔ 0 ≤ x < stop ∧ x `mod` 2 = 0.
Proof.
  rewrite elem_of_range2. split.
  - intros (i & ? & -> & ?). Z.to_euclidean_division_equations; lia.
  - intros [? ?]. exists (x `div` 2). Z.to_euclidean_division_equations; lia.
Qed.

Lemma elem_of_range2_odd (stop x : Z) :
  x ∈ range2 1 stop ↔ 0 ≤ x < stop ∧ x `mod` 2 = 1.
Proof.
  rewrite elem_of_range2. split.
  - intros (i & ? & -> & ?). Z.to_euclidean_division_equations; lia.
  - intros [? ?]. exists (x `div` 2). Z.to_euclidean_division_equations; lia.
Qed.

Lemma NoDup_range2 (start stop : Z) : NoDup (range2 start stop).
Proof.
  unfold range2. apply NoDup_fmap_2_strong; [|apply NoDup_seqZ].
  intros x y _ _ Heq. lia.
Qed.

Lemma elem_of_pairs (l1 l2 : list Z) (c : Z * Z) :
  c ∈ (l1 ≫= λ x, l2 ≫= λ y, [(x, y)]) ↔ c.1 ∈ l1 ∧ c.2 ∈ l2.
Proof.
  rewrite list_elem_of_bind. setoid_rewrite list_elem_of_bind.
  setoid_rewrite list_elem_of_singleton. destruct c as [x y]. simpl. naive_solver.
Qed.

Lemma NoDup_pairs (l1 l2 : list Z) :
  NoDup l1 → NoDup l2 → NoDup (l1 ≫= λ x, l2 ≫= λ y, [(x, y)]).
Proof.
  intros H1 H2. apply NoDup_bind; [| |done].
  - intros x1 x2 c _ _ Hc1 Hc2.
    apply list_elem_of_bind in Hc1 as (y1 & Hc1 & _).
    apply list_elem_of_bind in Hc2 as (y2 & Hc2 & _).
    apply list_elem_of_singleton in Hc1, Hc2. congruence.
  - intros x _. apply NoDup_bind; [| |done].
    + intros y1 y2 c _ _ Hc1 Hc2. apply list_elem_of_singleton in Hc1, Hc2. congruence.
    + intros y _. apply NoDup_singleton.
Qed.

(** Rooms have two even coordinates, junction dots two odd ones, and
    wall candidates one odd and one even. *)
Lemma elem_of_cell_ls (W H : Z) (c : Z * Z) :
  c ∈ KruskalMaze.cell_ls W H ↔ in_grid W H c ∧ c.1 `mod` 2 = 0 ∧ c.2 `mod` 2 = 0.
Proof.
  unfold KruskalMaze.cell_ls, in_grid.
  rewrite elem_of_pairs, !elem_of_range2_even. tauto.
Qed.

Lemma elem_of_not_care_ls (W H : Z) (c : Z * Z) :
  c ∈ KruskalMaze.not_care_ls W H ↔ in_grid W H c ∧ c.1 `mod` 2 = 1 ∧ c.2 `mod` 2 = 1.
Proof.
  unfold KruskalMaze.not_care_ls, in_grid.
  rewrite elem_of_pairs, !elem_of_range2_odd. tauto.
Qed.

Lemma elem_of_wall_ls (W H : Z) (c : Z * Z) :
  c ∈ KruskalMaze.wall_ls W H ↔
  in_grid W H c ∧ (c.1 `mod` 2 = 1 ∧ c.2 `mod` 2 = 0 ∨ c.1 `mod` 2 = 0 ∧ c.2 `mod` 2 = 1).
Proof.
  unfold KruskalMaze.wall_ls, in_grid.
  rewrite elem_of_app, !elem_of_pairs, !elem_of_range2_odd, !elem_of_range2_even. tauto.
Qed.

Lemma NoDup_cell_ls (W H : Z) : NoDup (KruskalMaze.cell_ls W H).
Proof. apply NoDup_pairs; apply NoDup_range2. Qed.

Lemma NoDup_not_care_ls (W H : Z) : NoDup (KruskalMaze.not_care_ls W H).
Proof. apply NoDup_pairs; apply NoDup_range2. Qed.

Lemma NoDup_wall_ls (W H : Z) : NoDup (KruskalMaze.wall_ls W H).
Proof.
  unfold KruskalMaze.wall_ls. apply NoDup_app.
  split; [apply NoDup_pairs; apply NoDup_range2|].
  split; [|apply NoDup_pairs; apply NoDup_range2].
  intros c. rewrite !elem_of_pairs, !elem_of_range2_odd, !elem_of_range2_even. lia.
Qed.

(** ** The adapter from rooms to elements *)

Lemma raw_index_inj (W : Z) (c c' : Z * Z) :
  0 ≤ c.1 < W → 0 ≤ c'.1 < W → raw_index W c = raw_index W c' → c = c'.
Proof.
  unfold raw_index. destruct c as [x y], c' as [x' y']. simpl. intros Hx Hx' Heq.
  assert (y = y') as -> by nia. f_equal. lia.
Qed.

Lemma index_map_fold (W : Z) (l : list (Z * Z)) : ∀ (m : gmap Z Z) (k : Z),
  NoDup l → (∀ c, c ∈ l → 0 ≤ c.1 < W) →
  (∀ i c, l !! i = Some c →
     foldl (MazeCellDSet.init_step W) m (zip (seqZ k (Z.of_nat (length l))) l)
       !! raw_index W c = Some (k + Z.of_nat i)) ∧
  (∀ key, (∀ c, c ∈ l → raw_index W c ≠ key) →
     foldl (MazeCellDSet.init_step W) m (zip (seqZ k (Z.of_nat (length l))) l)
       !! key = m !! key).
Proof.
  induction l as [|c0 l IH]; intros m k Hnd Hin.
  - split; [by intros [|]|done].
  - apply NoDup_cons in Hnd as [Hc0 Hnd].
    assert (zip (seqZ k (Z.of_nat (length (c0 :: l)))) (c0 :: l)
            = (k, c0) :: zip (seqZ (Z.succ k) (Z.of_nat (length l))) l) as ->.
    { rewrite seqZ_cons by (simpl; lia). simpl length.
      by rewrite Nat2Z.inj_succ, Z.pred_succ. }
    change (foldl (MazeCellDSet.init_step W) m
              ((k, c0) :: zip (seqZ (Z.succ k) (Z.of_nat (length l))) l))
      with (foldl (MazeCellDSet.init_step W) (MazeCellDSet.init_step W m (k, c0))
              (zip (seqZ (Z.succ k) (Z.of_nat (length l))) l)).
    destruct (IH (MazeCellDSet.init_step W m (k, c0)) (Z.succ k) Hnd) as [IH1 IH2].
    { intros c Hc. apply Hin. by right. }
    assert (MazeCellDSet.init_step W m (k, c0) = <[raw_index W c0 := k]> m) as Hstep.
    { by destruct c0. }
    split.
    + intros [|i] c Hc; simpl in Hc.
      * injection Hc as <-. rewrite IH2, Hstep, lookup_insert_eq; [f_equal; lia|].
        intros c Hc Heq. apply Hc0.
        rewrite <-(raw_index_inj W c c0); [done|apply Hin; by right|apply Hin; left|done].
      * rewrite (IH1 i c Hc). f_equal. lia.
    + intros key Hkey. rewrite IH2 by (intros c Hc; apply Hkey; by right).
      rewrite Hstep, lookup_insert_ne; [done|]. apply Hkey. left.
Qed.

(** Every room has an element of the disjoint set: its position in
    [cell_ls]. *)
Lemma index_map_cell (W H : Z) (c : Z * Z) :
  c ∈ KruskalMaze.cell_ls W H →
  ∃ i, KruskalMaze.cell_ls W H !! i = Some c ∧
       MazeCellDSet.index_map (MazeCellDSet.init (KruskalMaze.cell_ls W H) W H)
         !! raw_index W c = Some (Z.of_nat i).
Proof.
  intros Hc. apply list_elem_of_lookup in Hc as [i Hi]. exists i. split; [done|].
  unfold MazeCellDSet.init, MazeCellDSet.enumerate. simpl.
  destruct (index_map_fold W (KruskalMaze.cell_ls W H) ∅ 0 (NoDup_cell_ls W H)) as [H1 _].
  { intros c' Hc'. apply elem_of_cell_ls in Hc' as [[? _] _]. done. }
  rewrite (H1 i c Hi). f_equal.
Qed.

Lemma id_of_cell (W H : Z) (c : Z * Z) :
  c ∈ KruskalMaze.cell_ls W H →
  MazeCellDSet.index_map (MazeCellDSet.init (KruskalMaze.cell_ls W H) W H)
    !! raw_index W c = Some (id_of W H c) ∧
  0 ≤ id_of W H c < Z.of_nat (length (KruskalMaze.cell_ls W H)) ∧
  KruskalMaze.cell_ls W H !! Z.to_nat (id_of W H c) = Some c.
Proof.
  intros Hc. destruct (index_map_cell W H c Hc) as (i & Hi & Hm).
  unfold id_of. rewrite Hm. simpl. split; [done|].
  rewrite Nat2Z.id. split; [|done]. apply lookup_lt_Some in Hi. lia.
Qed.

Lemma id_of_inj (W H : Z) (c c' : Z * Z) :
  c ∈ KruskalMaze.cell_ls W H → c' ∈ KruskalMaze.cell_ls W H →
  id_of W H c = id_of W H c' → c = c'.
Proof.
  intros Hc Hc' Heq.
  destruct (id_of_cell W H c Hc) as (_ & _ & H1).
  destruct (id_of_cell W H c' Hc') as (_ & _ & H2).
  rewrite Heq in H1. congruence.
Qed.

Lemma id_of_surj (W H i : Z) :
  0 ≤ i < Z.of_nat (length (KruskalMaze.cell_ls W H)) →
  ∃ c, c ∈ KruskalMaze.cell_ls W H ∧ id_of W H c = i.
Proof.
  intros Hi.
  destruct (lookup_lt_is_Some_2 (KruskalMaze.cell_ls W H) (Z.to_nat i)) as [c Hc]; [lia|].
  assert (c ∈ KruskalMaze.cell_ls W H) as Hin by (by eapply list_elem_of_lookup_2).
  exists c. split; [done|].
  destruct (id_of_cell W H c Hin) as (_ & Hr & Hl).
  pose proof (NoDup_lookup _ _ _ _ (NoDup_cell_ls W H) Hc Hl). lia.
Qed.

(** The calls of the adapter on two rooms are the calls of the disjoint
    set on their elements. *)
Lemma is_connected_rooms (W H : Z) (cd : MazeCellDSet.t) (a b : Z * Z) :
  MazeCellDSet.width cd = W →
  MazeCellDSet.index_map cd
  = MazeCellDSet.index_map (MazeCellDSet.init (KruskalMaze.cell_ls W H) W H) →
  a ∈ KruskalMaze.cell_ls W H → b ∈ KruskalMaze.cell_ls W H →
  MazeCellDSet.is_connected cd a.1 a.2 b.1 b.2
  = DSet.is_connected (MazeCellDSet.dset cd) (id_of W H a) (id_of W H b)
      ≫= λ r, Ok (r.1, MazeCellDSet.with_dset cd r.2).
Proof.
  intros HW Hidx Ha Hb.
  destruct (id_of_cell W H a Ha) as (Hia & _ & _).
  destruct (id_of_cell W H b Hb) as (Hib & _ & _).
  unfold MazeCellDSet.is_connected, MazeCellDSet._find, DSet.is_connected.
  rewrite HW, Hidx. fold (raw_index W a).
  rewrite (getitem_Some _ _ _ Hia), bind_Ok.
  destruct (DSet.find (MazeCellDSet.dset cd) (id_of W H a)) as [[r1 d1]|e]; [|done].
  rewrite !bind_Ok. cbn beta iota.
  cbn [MazeCellDSet.with_dset MazeCellDSet.width MazeCellDSet.index_map MazeCellDSet.dset].
  rewrite HW, Hidx. fold (raw_index W b).
  rewrite (getitem_Some _ _ _ Hib), bind_Ok.
  destruct (DSet.find d1 (id_of W H b)) as [[r2 d2]|e]; [|done].
  by rewrite !bind_Ok.
Qed.

Lemma union_rooms (W H : Z) (cd : MazeCellDSet.t) (a b : Z * Z) :
  MazeCellDSet.width cd = W →
  MazeCellDSet.index_map cd
  = MazeCellDSet.index_map (MazeCellDSet.init (KruskalMaze.cell_ls W H) W H) →
  a ∈ KruskalMaze.cell_ls W H → b ∈ KruskalMaze.cell_ls W H →
  MazeCellDSet.union cd a.1 a.2 b.1 b.2
  = DSet.union (MazeCellDSet.dset cd) (id_of W H a) (id_of W H b)
      ≫= λ d, Ok (MazeCellDSet.with_dset cd d).
Proof.
  intros HW Hidx Ha Hb.
  destruct (id_of_cell W H a Ha) as (Hia & _ & _).
  destruct (id_of_cell W H b Hb) as (Hib & _ & _).
  unfold MazeCellDSet.union. rewrite HW, Hidx.
  fold (raw_index W a). fold (raw_index W b).
  by rewrite (getitem_Some _ _ _ Hia), bind_Ok, (getitem_Some _ _ _ Hib), bind_Ok.
Qed.

(** ** Rooms and the walls between them *)

Lemma connected_fmap {V U : Type} (f : V → U) (S : V → Prop) (ER : list (V * V)) (a b : V) :
  (∀ x y, S x → S y → f x = f y → x = y) →
  (∀ e, e ∈ ER → S e.1 ∧ S e.2) → S a → S b →
  connected ((λ e, (f e.1, f e.2)) <$> ER) (f a) (f b) ↔ connected ER a b.
Proof.
  intros Hinj HER Ha Hb. split.
  - intros Hc. remember (f a) as i eqn:Hi. remember (f b) as j eqn:Hj.
    revert a b Ha Hb Hi Hj.
    induction Hc as [i|i z j Hiz _ IH]; intros a b Ha Hb Hi Hj.
    + rewrite (Hinj a b); [apply connected_refl|done..|congruence].
    + assert (∃ b', S b' ∧ f b' = z ∧ connected ER a b') as (b' & Hb' & Hfb' & Hab').
      { destruct Hiz as [Hiz|Hiz]; apply list_elem_of_fmap in Hiz as ([x y] & Heq & Hin);
          simpl in Heq; injection Heq as Hx Hy; destruct (HER _ Hin) as [Sx Sy];
          simpl in Sx, Sy.
        - exists y. split; [done|]. split; [done|].
          rewrite (Hinj a x); [by apply connected_edge|done..|congruence].
        - exists x. split; [done|]. split; [done|].
          rewrite (Hinj a y); [by apply connected_sym, connected_edge|done..|congruence]. }
      eapply connected_trans; [done|]. by apply IH.
  - induction 1 as [a|a z b Haz _ IH]; [apply connected_refl|].
    assert (S z) as Hz.
    { destruct Haz as [Haz|Haz]; by destruct (HER _ Haz). }
    eapply connected_trans; [|by apply IH].
    destruct Haz as [Haz|Haz].
    + apply connected_edge, list_elem_of_fmap. by exists (a, z).
    + apply connected_sym, connected_edge, list_elem_of_fmap. by exists (z, a).
Qed.

(** The two ends of a wall candidate are two different rooms. *)
Lemma ends_rooms (W H : Z) (c : Z * Z) :
  W `mod` 2 = 1 → H `mod` 2 = 1 → c ∈ KruskalMaze.wall_ls W H →
  (ends c).1 ∈ KruskalMaze.cell_ls W H ∧ (ends c).2 ∈ KruskalMaze.cell_ls W H.
Proof.
  intros HW HH Hc. apply elem_of_wall_ls in Hc as [[Hx Hy] Hpar].
  rewrite !elem_of_cell_ls. unfold ends, in_grid.
  case_bool_decide; simpl; Z.to_euclidean_division_equations; lia.
Qed.

Lemma wall_not_room (W H : Z) (c : Z * Z) :
  c ∈ KruskalMaze.wall_ls W H → c ∉ KruskalMaze.cell_ls W H.
Proof. rewrite elem_of_wall_ls, elem_of_cell_ls. lia. Qed.

Lemma dot_not_wall (W H : Z) (c : Z * Z) :
  c ∈ KruskalMaze.not_care_ls W H → c ∉ KruskalMaze.wall_ls W H.
Proof. rewrite elem_of_wall_ls, elem_of_not_care_ls. lia. Qed.

Lemma dot_not_room (W H : Z) (c : Z * Z) :
  c ∈ KruskalMaze.not_care_ls W H → c ∉ KruskalMaze.cell_ls W H.
Proof. rewrite elem_of_cell_ls, elem_of_not_care_ls. lia. Qed.

Lemma room_edges_rooms (W H : Z) (opened : list (Z * Z)) (e : (Z * Z) * (Z * Z)) :
  W `mod` 2 = 1 → H `mod` 2 = 1 →
  (∀ c, c ∈ opened → c ∈ KruskalMaze.wall_ls W H) →
  e ∈ room_edges opened →
  e.1 ∈ KruskalMaze.cell_ls W H ∧ e.2 ∈ KruskalMaze.cell_ls W H.
Proof.
  intros HW HH Hop He. apply list_elem_of_fmap in He as (c & -> & Hc).
  by apply ends_rooms, Hop.
Qed.

(** Rooms joined by opened walls are elements joined by unions. *)
Lemma connected_ids (W H : Z) (opened : list (Z * Z)) (a b : Z * Z) :
  W `mod` 2 = 1 → H `mod` 2 = 1 →
  (∀ c, c ∈ opened → c ∈ KruskalMaze.wall_ls W H) →
  a ∈ KruskalMaze.cell_ls W H → b ∈ KruskalMaze.cell_ls W H →
  connected (id_edges W H opened) (id_of W H a) (id_of W H b)
  ↔ connected (room_edges opened) a b.
Proof.
  intros HW HH Hop Ha Hb. unfold id_edges.
  apply (connected_fmap (id_of W H) (λ c, c ∈ KruskalMaze.cell_ls W H)); [|  |done..].
  - intros x y. apply id_of_inj.
  - intros e. by apply room_edges_rooms.
Qed.

(** With every wall candidate joining its ends, all rooms are joined. *)
Lemma grid_connected (W H : Z) (R : relation (Z * Z)) :
  Equivalence R →
  (∀ c, c ∈ KruskalMaze.wall_ls W H → R (ends c).1 (ends c).2) →
  ∀ a b, a ∈ KruskalMaze.cell_ls W H → b ∈ KruskalMaze.cell_ls W H → R a b.
Proof.
  intros HR Hwalls.
  assert (∀ j : nat, 0 < W → 2 * Z.of_nat j < H → R (0, 0) (0, 2 * Z.of_nat j)) as Hcol.
  { induction j as [|j IH]; intros HW Hj; [done|].
    etrans; [apply IH; lia|].
    specialize (Hwalls (0, 2 * Z.of_nat j + 1)).
    unfold ends in Hwalls. simpl in Hwalls.
    replace (2 * Z.of_nat j + 1 - 1) with (2 * Z.of_nat j) in Hwalls by lia.
    replace (2 * Z.of_nat j + 1 + 1) with (2 * Z.of_nat (S j)) in Hwalls by lia.
    apply Hwalls. apply elem_of_wall_ls. unfold in_grid. simpl.
    Z.to_euclidean_division_equations; lia. }
  assert (∀ (i : nat) y, 2 * Z.of_nat i < W → 0 ≤ y < H → y `mod` 2 = 0 →
            R (0, y) (2 * Z.of_nat i, y)) as Hrow.
  { induction i as [|i IH]; intros y Hi Hy Hpar; [done|].
    etrans; [apply IH; [lia|done..]|].
    specialize (Hwalls (2 * Z.of_nat i + 1, y)).
    unfold ends in Hwalls. simpl in Hwalls.
    rewrite bool_decide_true in Hwalls by (Z.to_euclidean_division_equations; lia).
    simpl in Hwalls.
    replace (2 * Z.of_nat i + 1 - 1) with (2 * Z.of_nat i) in Hwalls by lia.
    replace (2 * Z.of_nat i + 1 + 1) with (2 * Z.of_nat (S i)) in Hwalls by lia.
    apply Hwalls. apply elem_of_wall_ls. unfold in_grid. simpl.
    Z.to_euclidean_division_equations; lia. }
  assert (∀ a, a ∈ KruskalMaze.cell_ls W H → R (0, 0) a) as Horigin.
  { intros [x y] Ha. apply elem_of_cell_ls in Ha as [[Hx Hy] [Hpx Hpy]]. simpl in *.
    assert (∃ i : nat, x = 2 * Z.of_nat i) as [i ->].
    { exists (Z.to_nat (x `div` 2)). Z.to_euclidean_division_equations; lia. }
    assert (∃ j : nat, y = 2 * Z.of_nat j) as [j ->].
    { exists (Z.to_nat (y `div` 2)). Z.to_euclidean_division_equations; lia. }
    etrans; [apply (Hcol j); lia|]. apply Hrow; [lia | done..]. }
  intros a b Ha Hb. etrans; [symmetry; by apply Horigin | by apply Horigin].
Qed.

(** ** One wall candidate *)

Lemma carve_step_unfold (g : list (list Z)) (cd : MazeCellDSet.t) (c : Z * Z) :
  KruskalMaze.carve_step (g, cd) c =
  MazeCellDSet.is_connected cd (ends c).1.1 (ends c).1.2 (ends c).2.1 (ends c).2.2
  ≫= λ r,
    if negb r.1 then
      if bool_decide (c.1 `mod` 2 = 1) then
        MazeCellDSet.union r.2 (ends c).1.1 (ends c).1.2 (ends c).2.1 (ends c).2.2
        ≫= λ cd2, grid_setitem g c.1 c.2 0 ≫= λ g', Ok (g', cd2)
      else
        grid_setitem g c.1 c.2 0
        ≫= λ g', MazeCellDSet.union r.2 (ends c).1.1 (ends c).1.2 (ends c).2.1 (ends c).2.2
        ≫= λ cd2, Ok (g', cd2)
    else Ok (g, r.2).
Proof.
  destruct c as [x y]. unfold KruskalMaze.carve_step, ends. simpl.
  case_bool_decide; simpl;
    match goal with |- ?m ≫= _ = _ => destruct m as [[[] ?]|] end; reflexivity.
Qed.

Lemma carve_inv_same_set (W H : Z) (visited opened : list (Z * Z)) (st : KruskalMaze.frame)
    (a b : Z * Z) :
  W `mod` 2 = 1 → H `mod` 2 = 1 → carve_inv W H visited opened st →
  a ∈ KruskalMaze.cell_ls W H → b ∈ KruskalMaze.cell_ls W H →
  same_set (MazeCellDSet.dset st.2) (id_of W H a) (id_of W H b)
  ↔ connected (room_edges opened) a b.
Proof.
  intros HW HH Hinv Ha Hb.
  destruct (id_of_cell W H a Ha) as (_ & Hia & _).
  destruct (id_of_cell W H b Hb) as (_ & Hib & _).
  rewrite (inv_conn _ _ _ (ci_dset _ _ _ _ _ Hinv)) by done.
  apply connected_ids; try done.
  intros c Hc. by apply (ci_walls _ _ _ _ _ Hinv), (ci_opened _ _ _ _ _ Hinv).
Qed.

Lemma carve_inv_skip (W H : Z) (visited opened : list (Z * Z)) (g : list (list Z))
    (cd : MazeCellDSet.t) (d1 : DSet.t) (c : Z * Z) :
  carve_inv W H visited opened (g, cd) →
  same_partition (MazeCellDSet.dset cd) d1 →
  c ∈ KruskalMaze.wall_ls W H →
  connected (room_edges opened) (ends c).1 (ends c).2 →
  carve_inv W H (c :: visited) opened (g, MazeCellDSet.with_dset cd d1).
Proof.
  intros [HW Hidx Hd Hs Hcells Hwalls Hop Hnd Hf Hcount Hvis] Hsp Hc Hconn.
  cbn [fst snd] in *.
  split; cbn [fst snd MazeCellDSet.with_dset MazeCellDSet.width MazeCellDSet.index_map
              MazeCellDSet.dset]; try done.
  - by eapply inv_same_partition.
  - intros c' Hc'. apply elem_of_cons in Hc' as [->|Hc']; eauto.
  - intros c' Hc'. right. by apply Hop.
  - unfold MazeCellDSet.count, DSet.count in *. cbn [MazeCellDSet.dset MazeCellDSet.with_dset] in *.
    by rewrite (sp_count _ _ Hsp).
  - intros c' Hc'. apply elem_of_cons in Hc' as [->|Hc']; eauto.
Qed.

Lemma carve_inv_open (W H : Z) (visited opened : list (Z * Z)) (g g' : list (list Z))
    (cd : MazeCellDSet.t) (d2 : DSet.t) (c : Z * Z) :
  carve_inv W H visited opened (g, cd) →
  c ∈ KruskalMaze.wall_ls W H → c ∉ visited →
  ¬ connected (room_edges opened) (ends c).1 (ends c).2 →
  inv (Z.of_nat (length (KruskalMaze.cell_ls W H)))
      ((id_of W H (ends c).1, id_of W H (ends c).2) :: id_edges W H opened) d2 →
  DSet._count d2 = DSet._count (MazeCellDSet.dset cd) - 1 →
  shape W H g' → cell_at g' c = Ok 0 →
  (∀ c', in_grid W H c' → c' ≠ c → cell_at g' c' = cell_at g c') →
  carve_inv W H (c :: visited) (c :: opened) (g', MazeCellDSet.with_dset cd d2).
Proof.
  intros [HW Hidx Hd Hs Hcells Hwalls Hop Hnd Hf Hcount Hvis] Hc Hnv Hnc Hinv2 Hc2
    Hs' Hat Hother.
  cbn [fst snd] in *.
  split; cbn [fst snd MazeCellDSet.with_dset MazeCellDSet.width MazeCellDSet.index_map
              MazeCellDSet.dset]; try done.
  - intros c' Hc'. destruct (decide (c' = c)) as [->|Hne].
    + rewrite Hat. by rewrite decide_True by (right; left).
    + rewrite (Hother c' Hc' Hne), (Hcells c' Hc'). f_equal.
      apply decide_ext. rewrite elem_of_cons. naive_solver.
  - intros c' Hc'. apply elem_of_cons in Hc' as [->|Hc']; eauto.
  - intros c' Hc'. apply elem_of_cons in Hc' as [->|Hc']; [left | right; by apply Hop].
  - apply NoDup_cons. split; [|done]. intros Hin. by apply Hnv, Hop.
  - unfold room_edges. rewrite fmap_cons.
    destruct (ends c) as [a b] eqn:He. by apply forest_cons.
  - unfold MazeCellDSet.count, DSet.count in *. cbn [MazeCellDSet.dset MazeCellDSet.with_dset length] in *.
    rewrite Hc2, Hcount. lia.
  - intros c' Hc'.
    assert (room_edges opened ⊆ room_edges (c :: opened)) as Hsub.
    { intros e He. unfold room_edges. rewrite fmap_cons. by right. }
    apply elem_of_cons in Hc' as [->|Hc'].
    + apply connected_edge. unfold room_edges. rewrite fmap_cons.
      destruct (ends c); left.
    + eapply connected_mono; [done|]. by apply Hvis.
Qed.

Lemma carve_step_spec (W H : Z) (visited opened : list (Z * Z)) (st : KruskalMaze.frame)
    (c : Z * Z) :
  W `mod` 2 = 1 → H `mod` 2 = 1 → carve_inv W H visited opened st →
  c ∈ KruskalMaze.wall_ls W H → c ∉ visited →
  ∃ st', KruskalMaze.carve_step st c = Ok st' ∧
    ((carve_inv W H (c :: visited) opened st' ∧ st'.1 = st.1) ∨
     (carve_inv W H (c :: visited) (c :: opened) st' ∧ opens W H st.1 c st'.1)).
Proof.
  intros HW HH Hinv Hc Hnv. destruct st as [g cd].
  destruct (ends_rooms W H c HW HH Hc) as [Ha Hb].
  set (a := (ends c).1) in *. set (b := (ends c).2) in *.
  destruct (id_of_cell W H a Ha) as (_ & Hia & _).
  destruct (id_of_cell W H b Hb) as (_ & Hib & _).
  pose proof (ci_dset _ _ _ _ _ Hinv) as Hd. simpl in Hd.
  pose proof (inv_wf _ _ _ Hd) as Hwf.
  destruct (wf_root _ _ Hwf _ Hia) as [ra Hra].
  destruct (wf_root _ _ Hwf _ Hib) as [rb Hrb].
  destruct (is_connected_spec _ _ _ _ ra rb Hwf Hra Hrb) as (d1 & Hic & Hsp).
  pose proof (carve_inv_same_set W H visited opened (g, cd) a b HW HH Hinv Ha Hb) as Hiff.
  simpl in Hiff. rewrite (same_set_roots _ _ _ _ _ Hra Hrb) in Hiff.
  assert (in_grid W H c) as Hgrid by (by apply elem_of_wall_ls in Hc as [? _]).
  rewrite carve_step_unfold. fold a b.
  rewrite (is_connected_rooms W H cd a b (ci_width _ _ _ _ _ Hinv) (ci_index _ _ _ _ _ Hinv)
             Ha Hb), Hic, !bind_Ok.
  cbn [fst snd]. case_bool_decide as Hroots; cbn [negb].
  - eexists. split; [done|]. left. split; [|done].
    apply carve_inv_skip; [done..|]. by apply Hiff.
  - assert (¬ connected (room_edges opened) a b) as Hnc by (by rewrite <-Hiff).
    pose proof (inv_same_partition _ _ _ _ Hd Hsp) as Hd1.
    destruct (union_inv _ _ d1 _ _ Hd1 Hia Hib) as (d2 & Hu & Hinv2 & _ & Hcount).
    assert (DSet._count d2 = DSet._count (MazeCellDSet.dset cd) - 1) as Hcount2.
    { rewrite Hcount, (sp_count _ _ Hsp); [done|].
      rewrite (same_partition_same_set _ _ _ _ _ Hwf Hsp Hia Hib).
      by rewrite (same_set_roots _ _ _ _ _ Hra Hrb). }
    destruct (grid_setitem_spec W H g c 0 (ci_shape _ _ _ _ _ Hinv) Hgrid)
      as (g' & Hset & Hs' & Hat & Hother).
    assert (cell_at g c = Ok 1) as Hwall.
    { pose proof (ci_cells _ _ _ _ _ Hinv c Hgrid) as Hcell. cbn [fst] in Hcell.
      rewrite Hcell. rewrite decide_False; [done|].
      intros [Hroom|Hop]; [by eapply wall_not_room|].
      by apply Hnv, (ci_opened _ _ _ _ _ Hinv). }
    assert (MazeCellDSet.union (MazeCellDSet.with_dset cd d1) a.1 a.2 b.1 b.2
            = Ok (MazeCellDSet.with_dset cd d2)) as Hunion.
    { rewrite (union_rooms W H _ a b); [|apply (ci_width _ _ _ _ _ Hinv)
                                        |apply (ci_index _ _ _ _ _ Hinv)|done..].
      simpl. by rewrite Hu. }
    exists (g', MazeCellDSet.with_dset cd d2). split.
    { rewrite Hunion, Hset, !bind_Ok. by case_bool_decide. }
    right. split.
    + by apply (carve_inv_open W H visited opened g g' cd d2 c).
    + cbn [fst]. split; [done|]. split; [done|]. by split.
Qed.

(** ** The loop over the walls *)

Lemma carve_cons_break (st : KruskalMaze.frame) (c : Z * Z) (walls : list (Z * Z)) :
  MazeCellDSet.count st.2 = 1 → KruskalMaze.carve st (c :: walls) = Ok st.
Proof. intros Hc. simpl. by rewrite bool_decide_true. Qed.

Lemma carve_cons_step (st st1 : KruskalMaze.frame) (c : Z * Z) (walls : list (Z * Z)) :
  MazeCellDSet.count st.2 ≠ 1 → KruskalMaze.carve_step st c = Ok st1 →
  KruskalMaze.carve st (c :: walls) = KruskalMaze.carve st1 walls.
Proof. intros Hc Hs. simpl. rewrite bool_decide_false by done. by rewrite Hs. Qed.

Lemma carve_spec (W H : Z) (walls : list (Z * Z)) :
  W `mod` 2 = 1 → H `mod` 2 = 1 →
  ∀ visited opened st,
    carve_inv W H visited opened st → NoDup walls →
    (∀ c, c ∈ walls → c ∈ KruskalMaze.wall_ls W H ∧ c ∉ visited) →
    ∃ st' visited' opened',
      KruskalMaze.carve st walls = Ok st' ∧ carve_inv W H visited' opened' st' ∧
      (MazeCellDSet.count st'.2 = 1 ∨ ∀ c, c ∈ walls → c ∈ visited') ∧
      (∀ c, c ∈ visited → c ∈ visited') ∧
      (∀ c, c ∈ visited' → c ∈ visited ∨ c ∈ walls).
Proof.
  intros HW HH. induction walls as [|c walls IH]; intros visited opened st Hinv Hnd Hwalls.
  - exists st, visited, opened. split; [done|]. split; [done|]. split; [|by eauto].
    right. intros c Hc. by apply elem_of_nil in Hc.
  - destruct (decide (MazeCellDSet.count st.2 = 1)) as [Hone|Hmore].
    { exists st, visited, opened. rewrite carve_cons_break by done. eauto 10. }
    apply NoDup_cons in Hnd as [Hc Hnd].
    destruct (Hwalls c ltac:(left)) as [Hcw Hcv].
    destruct (carve_step_spec W H visited opened st c HW HH Hinv Hcw Hcv)
      as (st1 & Hstep & Hcase).
    assert (∃ opened1, carve_inv W H (c :: visited) opened1 st1) as [opened1 Hinv1].
    { destruct Hcase as [[? _]|[? _]]; eauto. }
    destruct (IH _ _ _ Hinv1 Hnd)
      as (st' & visited' & opened' & Hcarve & Hinv' & Hend & Hmono & Hupper).
    { intros c' Hc'. split; [apply Hwalls; by right|].
      intros Hin. apply elem_of_cons in Hin as [->|Hin]; [done|].
      by apply (Hwalls c' ltac:(by right)). }
    exists st', visited', opened'. rewrite (carve_cons_step st st1) by done.
    split; [done|]. split; [done|]. split.
    + destruct Hend as [?|Hall]; [by left|]. right.
      intros c' Hc'. apply elem_of_cons in Hc' as [->|Hc']; [apply Hmono; left | by apply Hall].
    + split; [intros c' Hc'; apply Hmono; by right|].
      intros c' Hc'. destruct (Hupper c' Hc') as [Hin|Hin]; [|right; by right].
      apply elem_of_cons in Hin as [->|Hin]; [right; left | by left].
Qed.

Lemma carve_app (l1 l2 : list (Z * Z)) : ∀ st,
  KruskalMaze.carve st (l1 ++ l2) = KruskalMaze.carve st l1 ≫= λ st', KruskalMaze.carve st' l2.
Proof.
  induction l1 as [|c l1 IH]; intros st; [done|].
  rewrite <-app_comm_cons.
  destruct (decide (MazeCellDSet.count st.2 = 1)) as [Hone|Hmore].
  - rewrite !carve_cons_break by done. rewrite bind_Ok.
    destruct l2 as [|c2 l2]; [done|]. by rewrite carve_cons_break.
  - destruct (KruskalMaze.carve_step st c) as [st1|e] eqn:Hs.
    + rewrite !(carve_cons_step st st1) by done. apply IH.
    + simpl. rewrite bool_decide_false by done. by rewrite Hs.
Qed.

(** The state in which the loop starts. *)
Lemma carve_inv_start (W H : Z) :
  0 ≤ W → 0 ≤ H →
  ∃ g, for_each KruskalMaze.open_cell (ones W H) (KruskalMaze.cell_ls W H) = Ok g ∧
       carve_inv W H [] []
         (g, MazeCellDSet.init (KruskalMaze.cell_ls W H) W H).
Proof.
  intros HW HH.
  destruct (open_cells W H (KruskalMaze.cell_ls W H) (ones W H) (ones_shape W H HW HH))
    as (g & Hfor & Hs & Hcells).
  { apply Forall_forall. intros c Hc. by apply elem_of_cell_ls in Hc as [? _]. }
  exists g. split; [done|]. split; cbn [fst snd]; try done.
  - apply inv_init. lia.
  - intros c Hc. rewrite (Hcells c Hc). destruct (decide (c ∈ KruskalMaze.cell_ls W H)).
    + by rewrite decide_True by (by left).
    + rewrite decide_False; [by apply ones_cell|].
      intros [?|Hn]; [done | by apply elem_of_nil in Hn].
  - intros c Hc. by apply elem_of_nil in Hc.
  - apply NoDup_nil_2.
  - apply forest_nil.
  - unfold MazeCellDSet.count, MazeCellDSet.init, DSet.count, DSet.init.
    cbn [MazeCellDSet.dset DSet._count length]. lia.
  - intros c Hc. by apply elem_of_nil in Hc.
Qed.

(** Once every wall candidate has been visited a single set is left. *)
Lemma all_visited_count (W H : Z) (visited opened : list (Z * Z)) (st : KruskalMaze.frame) :
  W `mod` 2 = 1 → H `mod` 2 = 1 → 0 < W → 0 < H →
  carve_inv W H visited opened st →
  (∀ c, c ∈ KruskalMaze.wall_ls W H → c ∈ visited) →
  MazeCellDSet.count st.2 = 1.
Proof.
  intros HW HH HW0 HH0 Hinv Hall.
  pose proof (ci_dset _ _ _ _ _ Hinv) as Hd. pose proof (inv_wf _ _ _ Hd) as Hwf.
  set (n := Z.of_nat (length (KruskalMaze.cell_ls W H))) in *.
  assert (∀ i j, 0 ≤ i < n → 0 ≤ j < n → same_set (MazeCellDSet.dset st.2) i j) as Hsame.
  { intros i j Hi Hj.
    destruct (id_of_surj W H i Hi) as (a & Ha & <-).
    destruct (id_of_surj W H j Hj) as (b & Hb & <-).
    apply (carve_inv_same_set W H visited opened st a b HW HH Hinv Ha Hb).
    apply (grid_connected W H (connected (room_edges opened))); [apply _| |done..].
    intros c Hc. by apply (ci_visited _ _ _ _ _ Hinv), Hall. }
  assert ((0, 0) ∈ KruskalMaze.cell_ls W H) as H00.
  { apply elem_of_cell_ls. unfold in_grid. cbn [fst snd]. split; [lia|by split]. }
  destruct (id_of_cell W H (0, 0) H00) as (_ & Hi0 & _).
  destruct (wf_root _ _ Hwf _ Hi0) as [r0 Hr0].
  pose proof (root_of_is_root _ _ _ Hr0) as Hroot0.
  assert (roots (DSet.parent_map (MazeCellDSet.dset st.2)) = {[r0 := r0]}) as Hroots.
  { apply map_eq. intros y. apply option_eq. intros v.
    rewrite roots_lookup, lookup_singleton_Some. split.
    - intros [-> Hy].
      assert (0 ≤ y < n) as Hyr by (apply (wf_dom _ _ Hwf); eauto).
      destruct (Hsame y _ Hyr Hi0) as (r & Hyr' & Hr).
      rewrite (root_of_det _ _ _ _ Hr0 Hr).
      rewrite (root_of_root_eq _ _ _ Hy Hyr'). done.
    - intros [<- <-]. done. }
  unfold MazeCellDSet.count, DSet.count. rewrite (inv_count _ _ _ Hd).
  unfold num_roots. rewrite Hroots, map_size_singleton. done.
Qed.

(** ** The maze after the loop *)

Lemma chain_ext {V : Type} (R R' : relation V) (l : list V) : ∀ a b,
  (∀ x y, R x y ↔ R' x y) → chain R a l b ↔ chain R' a l b.
Proof.
  induction l as [|x l IH]; intros a b Hext; simpl; [done|].
  by rewrite Hext, (IH x b Hext).
Qed.

Lemma carved_spec (rs : RandomSource) (W H : Z) :
  numpy_random rs → W `mod` 2 = 1 → H `mod` 2 = 1 → 3 ≤ W → 3 ≤ H →
  ∃ g0 st visited opened,
    for_each KruskalMaze.open_cell (ones W H) (KruskalMaze.cell_ls W H) = Ok g0 ∧
    KruskalMaze.carved rs W H = Ok st ∧
    KruskalMaze.carve (g0, MazeCellDSet.init (KruskalMaze.cell_ls W H) W H)
      (rs_shuffle rs (KruskalMaze.wall_ls W H)) = Ok st ∧
    carve_inv W H [] [] (g0, MazeCellDSet.init (KruskalMaze.cell_ls W H) W H) ∧
    carve_inv W H visited opened st ∧ MazeCellDSet.count st.2 = 1.
Proof.
  intros Hrs HW HH HW3 HH3.
  destruct (carve_inv_start W H) as (g0 & Hfor & Hinv0); [lia..|].
  pose proof (shuffle_perm rs Hrs (KruskalMaze.wall_ls W H)) as Hperm.
  destruct (carve_spec W H (rs_shuffle rs (KruskalMaze.wall_ls W H)) HW HH [] [] _ Hinv0)
    as (st & visited & opened & Hcarve & Hinv & Hend & _ & _).
  { rewrite Hperm. apply NoDup_wall_ls. }
  { intros c Hc. rewrite Hperm in Hc. split; [done | apply not_elem_of_nil]. }
  exists g0, st, visited, opened. split; [done|]. split.
  { unfold KruskalMaze.carved. by rewrite Hfor, bind_Ok. }
  split; [done|]. split; [done|]. split; [done|].
  destruct Hend as [?|Hall]; [done|].
  apply (all_visited_count W H visited opened); [done|done|lia|lia|done|].
  intros c Hc. apply Hall. by rewrite Hperm.
Qed.

Lemma passage_edges (W H : Z) (visited opened : list (Z * Z)) (st : KruskalMaze.frame)
    (a b : Z * Z) :
  carve_inv W H visited opened st →
  passage W H st.1 a b ↔ sc (edge (room_edges opened)) a b.
Proof.
  intros Hinv. unfold passage, sc, edge, room_edges. split.
  - intros (c & Hc & Hcell & Hends).
    assert (c ∈ opened) as Hop.
    { pose proof Hc as Hc'. apply elem_of_wall_ls in Hc' as [Hg _].
      rewrite (ci_cells _ _ _ _ _ Hinv c Hg) in Hcell. case_decide as Hd; [|done].
      destruct Hd as [Hroom|?]; [|done]. by apply wall_not_room in Hc. }
    destruct Hends as [<-|<-]; [left|right]; by apply list_elem_of_fmap_2.
  - intros Hab.
    assert (∃ c, c ∈ opened ∧ (ends c = (a, b) ∨ ends c = (b, a))) as (c & Hc & Hends).
    { destruct Hab as [Hab|Hab]; apply list_elem_of_fmap in Hab as (c & Heq & Hc); eauto. }
    assert (c ∈ KruskalMaze.wall_ls W H) as Hcw.
    { by apply (ci_walls _ _ _ _ _ Hinv), (ci_opened _ _ _ _ _ Hinv). }
    exists c. split; [done|]. split; [|done].
    pose proof Hcw as Hc'. apply elem_of_wall_ls in Hc' as [Hg _].
    rewrite (ci_cells _ _ _ _ _ Hinv c Hg). by rewrite decide_True by (by right).
Qed.

Lemma open_walls_opened (W H : Z) (visited opened : list (Z * Z)) (st : KruskalMaze.frame) :
  carve_inv W H visited opened st → open_walls W H st.1 = length opened.
Proof.
  intros Hinv. unfold open_walls.
  rewrite (filter_ext_in _ (λ c, c ∈ opened)).
  - apply Permutation_length, NoDup_Permutation.
    + apply NoDup_filter, NoDup_wall_ls.
    + apply (ci_nodup _ _ _ _ _ Hinv).
    + intros c. rewrite list_elem_of_filter. split; [by intros [? _]|].
      intros Hc. split; [done|].
      by apply (ci_walls _ _ _ _ _ Hinv), (ci_opened _ _ _ _ _ Hinv).
  - intros c Hc. pose proof Hc as Hc'. apply elem_of_wall_ls in Hc' as [Hg _].
    rewrite (ci_cells _ _ _ _ _ Hinv c Hg). apply wall_not_room in Hc.
    case_decide; naive_solver.
Qed.

(** With a single set left every two rooms are joined. *)
Lemma count_one_connected (W H : Z) (visited opened : list (Z * Z)) (st : KruskalMaze.frame)
    (a b : Z * Z) :
  W `mod` 2 = 1 → H `mod` 2 = 1 →
  carve_inv W H visited opened st → MazeCellDSet.count st.2 = 1 →
  a ∈ KruskalMaze.cell_ls W H → b ∈ KruskalMaze.cell_ls W H →
  connected (room_edges opened) a b.
Proof.
  intros HW HH Hinv Hone Ha Hb.
  apply (carve_inv_same_set W H visited opened st a b HW HH Hinv Ha Hb).
  pose proof (ci_dset _ _ _ _ _ Hinv) as Hd. pose proof (inv_wf _ _ _ Hd) as Hwf.
  destruct (id_of_cell W H a Ha) as (_ & Hia & _).
  destruct (id_of_cell W H b Hb) as (_ & Hib & _).
  destruct (wf_root _ _ Hwf _ Hia) as [ra Hra].
  destruct (wf_root _ _ Hwf _ Hib) as [rb Hrb].
  apply (same_set_roots _ _ _ _ _ Hra Hrb).
  destruct (decide (ra = rb)) as [|Hne]; [done|]. exfalso.
  unfold MazeCellDSet.count, DSet.count in Hone. rewrite (inv_count _ _ _ Hd) in Hone.
  unfold num_roots in Hone.
  assert (roots (DSet.parent_map (MazeCellDSet.dset st.2)) !! ra = Some ra) as H1.
  { apply roots_lookup. split; [done | by eapply root_of_is_root]. }
  assert (delete ra (roots (DSet.parent_map (MazeCellDSet.dset st.2))) !! rb = Some rb) as H2.
  { rewrite lookup_delete_ne by done. apply roots_lookup.
    split; [done | by eapply root_of_is_root]. }
  pose proof (map_size_ne_0_lookup_2 _ _ (mk_is_Some _ _ H2)) as Hsz.
  rewrite map_size_delete_Some in Hsz by eauto. lia.
Qed.

(** Between two rooms there is exactly one simple path of passages. *)
Lemma one_simple_path (W H : Z) (visited opened : list (Z * Z)) (st : KruskalMaze.frame)
    (a b : Z * Z) :
  W `mod` 2 = 1 → H `mod` 2 = 1 →
  carve_inv W H visited opened st → MazeCellDSet.count st.2 = 1 →
  a ∈ KruskalMaze.cell_ls W H → b ∈ KruskalMaze.cell_ls W H →
  ∃ l, chain (passage W H st.1) a l b ∧ NoDup (a :: l) ∧
       ∀ l', chain (passage W H st.1) a l' b → NoDup (a :: l') → l' = l.
Proof.
  intros HW HH Hinv Hone Ha Hb.
  pose proof (count_one_connected W H visited opened st a b HW HH Hinv Hone Ha Hb) as Hc.
  destruct (connected_simple_path _ _ _ Hc) as (l & Hl & Hnd).
  assert (∀ l0 x y, chain (passage W H st.1) x l0 y
                     ↔ chain (sc (edge (room_edges opened))) x l0 y) as Hext.
  { intros l0 x y. apply chain_ext. intros ??. by eapply passage_edges. }
  exists l. split; [by apply Hext|]. split; [done|].
  intros l' Hl' Hnd'.
  apply (forest_unique _ (ci_forest _ _ _ _ _ Hinv) a b); split; try done.
  by apply Hext.
Qed.

(** ** The junction dots *)

Lemma not_care_nonempty (W H : Z) :
  3 ≤ W → 3 ≤ H → 0 < Z.of_nat (length (KruskalMaze.not_care_ls W H)).
Proof.
  intros HW HH.
  assert ((1, 1) ∈ KruskalMaze.not_care_ls W H) as Hin.
  { apply elem_of_not_care_ls. unfold in_grid. cbn [fst snd]. split; [lia|by split]. }
  destruct (KruskalMaze.not_care_ls W H); [by apply elem_of_nil in Hin | simpl; lia].
Qed.

Lemma open_dots (nc : list (Z * Z)) (idx : list Z) : ∀ g,
  Forall (λ i, 0 ≤ i < Z.of_nat (length nc)) idx →
  for_each (KruskalMaze.open_dot nc) g idx
  = for_each KruskalMaze.open_cell g (dots_of nc idx).
Proof.
  induction idx as [|i idx IH]; intros g Hidx; [done|].
  apply Forall_cons in Hidx as [Hi Hidx].
  destruct (lookup_lt_is_Some_2 nc (Z.to_nat i)) as [c Hc]; [lia|].
  assert (dots_of nc (i :: idx) = c :: dots_of nc idx) as ->.
  { unfold dots_of. by rewrite fmap_cons, Hc. }
  assert (KruskalMaze.open_dot nc g i = KruskalMaze.open_cell g c) as Hd.
  { unfold KruskalMaze.open_dot, list_getitem.
    by rewrite np_index_ok, bind_Ok, Hc, bind_Ok by lia. }
  destruct (KruskalMaze.open_cell g c) as [g1|e] eqn:Ho.
  - rewrite (for_each_cons _ g g1), (for_each_cons _ g g1) by done. by apply IH.
  - simpl. by rewrite Hd, Ho.
Qed.

Lemma dots_of_spec (nc : list (Z * Z)) (idx : list Z) :
  NoDup nc → NoDup idx → Forall (λ i, 0 ≤ i < Z.of_nat (length nc)) idx →
  NoDup (dots_of nc idx) ∧ length (dots_of nc idx) = length idx ∧
  ∀ c, c ∈ dots_of nc idx → c ∈ nc.
Proof.
  intros Hnc Hidx Hr. rewrite Forall_forall in Hr.
  assert (∀ i, i ∈ idx → nc !! Z.to_nat i = Some (default (0, 0) (nc !! Z.to_nat i)))
    as Hlook.
  { intros i Hi. destruct (lookup_lt_is_Some_2 nc (Z.to_nat i)) as [c Hc];
      [pose proof (Hr i Hi); lia|]. by rewrite Hc. }
  split; [|split].
  - apply NoDup_fmap_2_strong; [|done]. intros i j Hi Hj Heq.
    pose proof (Hlook i Hi) as H1. pose proof (Hlook j Hj) as H2. rewrite Heq in H1.
    pose proof (NoDup_lookup _ _ _ _ Hnc H1 H2).
    pose proof (Hr i Hi). pose proof (Hr j Hj). lia.
  - apply length_fmap.
  - intros c Hc. apply list_elem_of_fmap in Hc as (i & -> & Hi).
    eapply list_elem_of_lookup_2, Hlook, Hi.
Qed.

Lemma cosmetic_spec (rs : RandomSource) (W H : Z) (g : list (list Z)) :
  numpy_random rs → 3 ≤ W → 3 ≤ H → shape W H g →
  ∃ k idx g',
    KruskalMaze.additional_wall rs W H = Ok k ∧
    0 ≤ k < Z.of_nat (length (KruskalMaze.not_care_ls W H)) ∧
    choice rs (Z.of_nat (length (KruskalMaze.not_care_ls W H))) k = Ok idx ∧
    KruskalMaze.cosmetic rs W H g = Ok g' ∧
    for_each KruskalMaze.open_cell g (dots_of (KruskalMaze.not_care_ls W H) idx) = Ok g' ∧
    shape W H g' ∧
    NoDup (dots_of (KruskalMaze.not_care_ls W H) idx) ∧
    Z.of_nat (length (dots_of (KruskalMaze.not_care_ls W H) idx)) = k ∧
    (∀ c, c ∈ dots_of (KruskalMaze.not_care_ls W H) idx → c ∈ KruskalMaze.not_care_ls W H) ∧
    ∀ c, in_grid W H c →
         cell_at g' c
         = if decide (c ∈ dots_of (KruskalMaze.not_care_ls W H) idx) then Ok 0
           else cell_at g c.
Proof.
  intros Hrs HW HH Hs.
  pose proof (not_care_nonempty W H HW HH) as HN.
  set (nc := KruskalMaze.not_care_ls W H) in *.
  set (N := Z.of_nat (length nc)) in *.
  pose proof (randint_range rs Hrs 0 N HN) as Hk.
  set (k := rs_randint rs 0 N) in *.
  assert (0 ≤ k ≤ N) as Hk' by lia.
  set (idx := rs_choice rs N k).
  assert (Forall (λ i, 0 ≤ i < N) idx) as Hidx.
  { apply Forall_forall. intros i Hi. by apply (choice_range rs Hrs N k). }
  destruct (dots_of_spec nc idx (NoDup_not_care_ls W H) (choice_NoDup rs Hrs N k Hk') Hidx)
    as (Hnd & Hlen & Hsub).
  destruct (open_cells W H (dots_of nc idx) g Hs) as (g' & Hfor & Hs' & Hcells).
  { apply Forall_forall. intros c Hc. apply Hsub in Hc.
    by apply elem_of_not_care_ls in Hc as [? _]. }
  assert (KruskalMaze.additional_wall rs W H = Ok k) as Hadd.
  { unfold KruskalMaze.additional_wall, randint. fold nc N.
    by rewrite bool_decide_true by lia. }
  assert (choice rs N k = Ok idx) as Hch.
  { unfold choice. by rewrite bool_decide_true by lia. }
  exists k, idx, g'. split; [done|]. split; [done|]. split; [done|]. split.
  { unfold KruskalMaze.cosmetic. fold nc N. rewrite Hadd, bind_Ok, Hch, bind_Ok.
    by rewrite open_dots. }
  split; [done|]. split; [done|]. split; [done|]. split.
  { rewrite Hlen. apply (choice_length rs Hrs N k Hk'). }
  split; done.
Qed.

(** ** Every assignment opens a wall *)

Lemma open_cells_prefix (W H : Z) (l : list (Z * Z)) (g0 : list (list Z)) :
  shape W H g0 → NoDup l → Forall (in_grid W H) l →
  (∀ c, c ∈ l → cell_at g0 c = Ok 1) →
  ∀ pre c suf, l = pre ++ c :: suf →
    ∃ g g', for_each KruskalMaze.open_cell g0 pre = Ok g ∧ opens W H g c g'.
Proof.
  intros Hs Hnd Hl Hwall pre c suf ->.
  apply Forall_app in Hl as [Hpre Hc]. apply Forall_cons in Hc as [Hc _].
  apply NoDup_app in Hnd as (_ & Hdisj & _).
  destruct (open_cells W H pre g0 Hs Hpre) as (g & Hfor & Hsg & Hcells).
  destruct (grid_setitem_spec W H g c 0 Hsg Hc) as (g' & Hset & _ & Hat & Hother).
  exists g, g'. split; [done|]. split; [|done].
  rewrite (Hcells c Hc). rewrite decide_False.
  - apply Hwall. apply elem_of_app. right. left.
  - intros Hin. apply (Hdisj c Hin). left.
Qed.

Lemma carve_prefix (W H : Z) (walls : list (Z * Z)) (st0 : KruskalMaze.frame) :
  W `mod` 2 = 1 → H `mod` 2 = 1 →
  carve_inv W H [] [] st0 → NoDup walls →
  (∀ c, c ∈ walls → c ∈ KruskalMaze.wall_ls W H) →
  ∀ pre c suf, walls = pre ++ c :: suf →
    ∃ st, KruskalMaze.carve st0 pre = Ok st ∧
          (MazeCellDSet.count st.2 = 1 ∨
           ∃ st', KruskalMaze.carve_step st c = Ok st' ∧
                  (st'.1 = st.1 ∨ opens W H st.1 c st'.1)).
Proof.
  intros HW HH Hinv0 Hnd Hwalls pre c suf ->.
  apply NoDup_app in Hnd as (Hndpre & Hdisj & _).
  destruct (carve_spec W H pre HW HH [] [] st0 Hinv0 Hndpre)
    as (st & visited & opened & Hcarve & Hinv & _ & _ & Hupper).
  { intros c' Hc'. split; [|apply not_elem_of_nil].
    apply Hwalls, elem_of_app. by left. }
  exists st. split; [done|].
  destruct (decide (MazeCellDSet.count st.2 = 1)) as [?|Hmore]; [by left|]. right.
  destruct (carve_step_spec W H visited opened st c HW HH Hinv) as (st' & Hstep & Hcase).
  { apply Hwalls, elem_of_app. right. left. }
  { intros Hin. destruct (Hupper c Hin) as [Hn|Hp]; [by apply elem_of_nil in Hn|].
    apply (Hdisj c Hp). left. }
  exists st'. split; [done|]. destruct Hcase as [[_ ?]|[_ ?]]; eauto.
Qed.

(** ** The generator: statements of the specification *)

Lemma rs_draw_numpy (k0 : Z) : numpy_random (rs_draw k0).
Proof.
  split; simpl.
  - done.
  - intros low high Hlh. case_bool_decide; lia.
  - intros a size Hs. rewrite length_seqZ. lia.
  - intros a size Hs. apply NoDup_seqZ.
  - intros a size i Hs Hi. apply elem_of_seqZ in Hi. lia.
Qed.

Lemma rs_first_numpy : numpy_random rs_first.
Proof.
  split; simpl.
  - done.
  - intros low high Hlh. lia.
  - intros a size Hs. rewrite length_seqZ. lia.
  - intros a size Hs. apply NoDup_seqZ.
  - intros a size i Hs Hi. apply elem_of_seqZ in Hi. lia.
Qed.

Lemma rs_last_numpy : numpy_random rs_last.
Proof.
  split; simpl.
  - intros l. apply reverse_Permutation.
  - intros low high Hlh. lia.
  - intros a size Hs. rewrite length_seqZ. lia.
  - intros a size Hs. apply NoDup_seqZ.
  - intros a size i Hs Hi. apply elem_of_seqZ in Hi. lia.
Qed.

Lemma check_dimensions_ok (W H : Z) :
  W `mod` 2 = 1 → H `mod` 2 = 1 → 3 ≤ W → 3 ≤ H →
  KruskalMaze.check_dimensions W H = Ok ().
Proof.
  intros HW HH HW3 HH3. unfold KruskalMaze.check_dimensions.
  by rewrite !bool_decide_false by lia.
Qed.

Lemma passage_ext (W H : Z) (g g' : list (list Z)) (a b : Z * Z) :
  (∀ c, c ∈ KruskalMaze.wall_ls W H → cell_at g' c = cell_at g c) →
  passage W H g' a b ↔ passage W H g a b.
Proof.
  intros Hext. unfold passage.
  split; intros (c & Hc & Hcell & Hends); exists c; (split; [done|]); (split; [|done]).
  - by rewrite <-Hext.
  - by rewrite Hext.
Qed.

Lemma open_walls_ext (W H : Z) (g g' : list (list Z)) :
  (∀ c, c ∈ KruskalMaze.wall_ls W H → cell_at g' c = cell_at g c) →
  open_walls W H g' = open_walls W H g.
Proof.
  intros Hext. unfold open_walls. f_equal. apply filter_ext_in.
  intros c Hc. by rewrite Hext.
Qed.

Lemma perfect_maze_ext (W H : Z) (g g' : list (list Z)) :
  (∀ c, c ∈ KruskalMaze.wall_ls W H → cell_at g' c = cell_at g c) →
  perfect_maze W H g → perfect_maze W H g'.
Proof.
  intros Hext [Hcount Hpaths].
  assert (∀ l x y, chain (passage W H g') x l y ↔ chain (passage W H g) x l y) as Hch.
  { intros l x y. apply chain_ext. intros ??. by apply passage_ext. }
  split; [by rewrite (open_walls_ext W H g g')|].
  intros a b Ha Hb. destruct (Hpaths a b Ha Hb) as (l & Hl & Hnd & Huniq).
  exists l. split; [by apply Hch|]. split; [done|].
  intros l' Hl' Hnd'. apply Huniq; [by apply Hch | done].
Qed.

(** The whole of [__init__] on legal dimensions. *)
Lemma init_frame_spec (rs : RandomSource) (W H : Z) :
  numpy_random rs → W `mod` 2 = 1 → H `mod` 2 = 1 → 3 ≤ W → 3 ≤ H →
  ∃ g0 g1 cd visited opened k idx g2,
    for_each KruskalMaze.open_cell (ones W H) (KruskalMaze.cell_ls W H) = Ok g0 ∧
    KruskalMaze.carve (g0, MazeCellDSet.init (KruskalMaze.cell_ls W H) W H)
      (rs_shuffle rs (KruskalMaze.wall_ls W H)) = Ok (g1, cd) ∧
    KruskalMaze.carved rs W H = Ok (g1, cd) ∧
    carve_inv W H [] [] (g0, MazeCellDSet.init (KruskalMaze.cell_ls W H) W H) ∧
    carve_inv W H visited opened (g1, cd) ∧ MazeCellDSet.count cd = 1 ∧
    KruskalMaze.additional_wall rs W H = Ok k ∧
    0 ≤ k < Z.of_nat (length (KruskalMaze.not_care_ls W H)) ∧
    choice rs (Z.of_nat (length (KruskalMaze.not_care_ls W H))) k = Ok idx ∧
    KruskalMaze.cosmetic rs W H g1 = Ok g2 ∧
    for_each KruskalMaze.open_cell g1 (dots_of (KruskalMaze.not_care_ls W H) idx) = Ok g2 ∧
    shape W H g2 ∧
    NoDup (dots_of (KruskalMaze.not_care_ls W H) idx) ∧
    Z.of_nat (length (dots_of (KruskalMaze.not_care_ls W H) idx)) = k ∧
    (∀ c, c ∈ dots_of (KruskalMaze.not_care_ls W H) idx → c ∈ KruskalMaze.not_care_ls W H) ∧
    (∀ c, in_grid W H c →
          cell_at g2 c
          = if decide (c ∈ dots_of (KruskalMaze.not_care_ls W H) idx) then Ok 0
            else cell_at g1 c) ∧
    KruskalMaze.init_frame rs W H
    = Ok ({| KruskalMaze.height := H; KruskalMaze.width := W;
             KruskalMaze.index_ls := seqZ 1 (H * W - 1); KruskalMaze.grid := g2 |}, cd).
Proof.
  intros Hrs HW HH HW3 HH3.
  destruct (carved_spec rs W H Hrs HW HH HW3 HH3)
    as (g0 & [g1 cd] & visited & opened & Hfor & Hcarved & Hcarve & Hinv0 & Hinv & Hone).
  destruct (cosmetic_spec rs W H g1 Hrs HW3 HH3 (ci_shape _ _ _ _ _ Hinv))
    as (k & idx & g2 & Hadd & Hk & Hch & Hcos & Hfor2 & Hs2 & Hnd & Hlen & Hsub & Hcells).
  exists g0, g1, cd, visited, opened, k, idx, g2.
  repeat (split; [done|]).
  unfold KruskalMaze.init_frame.
  rewrite (check_dimensions_ok W H HW HH HW3 HH3), bind_Ok, Hcarved, bind_Ok.
  cbn beta iota. by rewrite Hcos, bind_Ok.
Qed.

(** C1: for odd [width, height ≥ 3] and any generator that keeps
    numpy's contract, [__init__] returns; when the loop over the walls
    is left a single set remains ([count() = 1]), and the grid at that
    point, as well as the finished grid, is a perfect maze: the wall
    candidates that are passages are one fewer than the rooms, and any
    two rooms are joined by exactly one simple path through passages. *)
Theorem carving_builds_spanning_tree (rs : RandomSource) (W H : Z) :
  numpy_random rs → W `mod` 2 = 1 → H `mod` 2 = 1 → 3 ≤ W → 3 ≤ H →
  ∃ g1 cd m,
    KruskalMaze.carved rs W H = Ok (g1, cd) ∧
    MazeCellDSet.count cd = 1 ∧
    perfect_maze W H g1 ∧
    KruskalMaze.init_frame rs W H = Ok (m, cd) ∧
    perfect_maze W H (KruskalMaze.grid m).
Proof.
  intros Hrs HW HH HW3 HH3.
  destruct (init_frame_spec rs W H Hrs HW HH HW3 HH3)
    as (g0 & g1 & cd & visited & opened & k & idx & g2 & _ & _ & Hcarved & _ & Hinv & Hone
        & _ & _ & _ & _ & _ & _ & _ & _ & Hsub & Hcells & Hinit).
  assert (perfect_maze W H g1) as Hperfect.
  { split.
    - pose proof (open_walls_opened W H visited opened (g1, cd) Hinv) as Ho.
      pose proof (ci_count _ _ _ _ _ Hinv) as Hc. cbn [fst snd] in Ho, Hc. lia.
    - intros a b Ha Hb.
      by apply (one_simple_path W H visited opened (g1, cd) a b). }
  eexists g1, cd, _. split; [done|]. split; [done|]. split; [done|]. split; [done|].
  cbn [KruskalMaze.grid]. apply (perfect_maze_ext W H g1); [|done].
  intros c Hc. pose proof Hc as Hc'. apply elem_of_wall_ls in Hc' as [Hg _].
  rewrite (Hcells c Hg). rewrite decide_False; [done|].
  intros Hd. by apply Hsub, dot_not_wall in Hd.
Qed.

Lemma carving_builds_spanning_tree_witness :
  ∃ g1 cd m,
    KruskalMaze.carved rs_last 5 3 = Ok (g1, cd) ∧
    MazeCellDSet.count cd = 1 ∧
    perfect_maze 5 3 g1 ∧
    KruskalMaze.init_frame rs_last 5 3 = Ok (m, cd) ∧
    perfect_maze 5 3 (KruskalMaze.grid m).
Proof.
  apply (carving_builds_spanning_tree rs_last 5 3);
    [apply rs_last_numpy | reflexivity | reflexivity | lia | lia].
Defined.

(** C6 (as the code has it): after the loop, [randint(0, len(not_care_ls))]
    draws a count [k] with [0 ≤ k ≤ len(not_care_ls) - 1] (numpy's upper
    bound is exclusive), and every such [k] can be drawn.  The pass then
    opens [k] distinct junction dots and nothing else; [cell_dset] is the
    one the loop left, no call on it is made; and two rooms are joined by
    a passage, or reachable from one another, in the finished grid
    exactly when they were in the grid the loop left. *)
Theorem cosmetic_pass (rs : RandomSource) (W H : Z) :
  numpy_random rs → W `mod` 2 = 1 → H `mod` 2 = 1 → 3 ≤ W → 3 ≤ H →
  ∃ g1 cd k idx m,
    KruskalMaze.carved rs W H = Ok (g1, cd) ∧
    KruskalMaze.additional_wall rs W H = Ok k ∧
    0 ≤ k ≤ Z.of_nat (length (KruskalMaze.not_care_ls W H)) - 1 ∧
    choice rs (Z.of_nat (length (KruskalMaze.not_care_ls W H))) k = Ok idx ∧
    KruskalMaze.cosmetic rs W H g1 = Ok (KruskalMaze.grid m) ∧
    KruskalMaze.init_frame rs W H = Ok (m, cd) ∧
    NoDup (dots_of (KruskalMaze.not_care_ls W H) idx) ∧
    Z.of_nat (length (dots_of (KruskalMaze.not_care_ls W H) idx)) = k ∧
    (∀ c, c ∈ dots_of (KruskalMaze.not_care_ls W H) idx → c ∈ KruskalMaze.not_care_ls W H) ∧
    (∀ c, in_grid W H c →
          cell_at (KruskalMaze.grid m) c
          = if decide (c ∈ dots_of (KruskalMaze.not_care_ls W H) idx) then Ok 0
            else cell_at g1 c) ∧
    (∀ a b, passage W H (KruskalMaze.grid m) a b ↔ passage W H g1 a b) ∧
    (∀ a b, rtc (passage W H (KruskalMaze.grid m)) a b ↔ rtc (passage W H g1) a b) ∧
    (∀ k0, 0 ≤ k0 ≤ Z.of_nat (length (KruskalMaze.not_care_ls W H)) - 1 →
           ∃ rs', numpy_random rs' ∧ KruskalMaze.additional_wall rs' W H = Ok k0).
Proof.
  intros Hrs HW HH HW3 HH3.
  destruct (init_frame_spec rs W H Hrs HW HH HW3 HH3)
    as (g0 & g1 & cd & visited & opened & k & idx & g2 & _ & _ & Hcarved & _ & Hinv & Hone
        & Hadd & Hk & Hch & Hcos & _ & _ & Hnd & Hlen & Hsub & Hcells & Hinit).
  assert (∀ c, c ∈ KruskalMaze.wall_ls W H → cell_at g2 c = cell_at g1 c) as Hwalls.
  { intros c Hc. pose proof Hc as Hc'. apply elem_of_wall_ls in Hc' as [Hg _].
    rewrite (Hcells c Hg). rewrite decide_False; [done|].
    intros Hd. by apply Hsub, dot_not_wall in Hd. }
  exists g1, cd, k, idx,
    {| KruskalMaze.height := H; KruskalMaze.width := W;
       KruskalMaze.index_ls := seqZ 1 (H * W - 1); KruskalMaze.grid := g2 |}.
  cbn [KruskalMaze.grid].
  split; [done|]. split; [done|]. split; [lia|].
  split; [done|]. split; [done|]. split; [done|].
  split; [done|]. split; [done|]. split; [done|]. split; [done|].
  split; [intros a b; by apply passage_ext|]. split.
  - intros a b. split; apply rtc_subrel; intros x y Hxy;
      by apply (passage_ext W H g1 g2 x y Hwalls).
  - intros k0 Hk0. exists (rs_draw k0). split; [apply rs_draw_numpy|].
    unfold KruskalMaze.additional_wall, randint. simpl.
    rewrite bool_decide_true by lia. by rewrite bool_decide_true by lia.
Qed.

Lemma cosmetic_pass_witness :
  ∃ g1 cd k idx m,
    KruskalMaze.carved rs_last 5 5 = Ok (g1, cd) ∧
    KruskalMaze.additional_wall rs_last 5 5 = Ok k ∧
    0 ≤ k ≤ Z.of_nat (length (KruskalMaze.not_care_ls 5 5)) - 1 ∧
    choice rs_last (Z.of_nat (length (KruskalMaze.not_care_ls 5 5))) k = Ok idx ∧
    KruskalMaze.cosmetic rs_last 5 5 g1 = Ok (KruskalMaze.grid m) ∧
    KruskalMaze.init_frame rs_last 5 5 = Ok (m, cd) ∧
    NoDup (dots_of (KruskalMaze.not_care_ls 5 5) idx) ∧
    Z.of_nat (length (dots_of (KruskalMaze.not_care_ls 5 5) idx)) = k ∧
    (∀ c, c ∈ dots_of (KruskalMaze.not_care_ls 5 5) idx → c ∈ KruskalMaze.not_care_ls 5 5) ∧
    (∀ c, in_grid 5 5 c →
          cell_at (KruskalMaze.grid m) c
          = if decide (c ∈ dots_of (KruskalMaze.not_care_ls 5 5) idx) then Ok 0
            else cell_at g1 c) ∧
    (∀ a b, passage 5 5 (KruskalMaze.grid m) a b ↔ passage 5 5 g1 a b) ∧
    (∀ a b, rtc (passage 5 5 (KruskalMaze.grid m)) a b ↔ rtc (passage 5 5 g1) a b) ∧
    (∀ k0, 0 ≤ k0 ≤ Z.of_nat (length (KruskalMaze.not_care_ls 5 5)) - 1 →
           ∃ rs', numpy_random rs' ∧ KruskalMaze.additional_wall rs' 5 5 = Ok k0).
Proof.
  apply (cosmetic_pass rs_last 5 5);
    [apply rs_last_numpy | reflexivity | reflexivity | lia | lia].
Defined.

(** C6, counterexample: on a 3 × 3 maze there is one junction dot, and no
    generator that keeps numpy's contract makes [randint(0, 1)] answer 1:
    the upper end of the range is never drawn. *)
Lemma additional_wall_never_all_dots :
  ¬ ∃ rs, numpy_random rs ∧
          KruskalMaze.additional_wall rs 3 3
          = Ok (Z.of_nat (length (KruskalMaze.not_care_ls 3 3))).
Proof.
  intros (rs & Hrs & Hk). unfold KruskalMaze.additional_wall, randint in Hk.
  change (Z.of_nat (length (KruskalMaze.not_care_ls 3 3))) with 1 in Hk.
  rewrite bool_decide_true in Hk by lia. injection Hk as Hk.
  pose proof (randint_range rs Hrs 0 1 ltac:(lia)). lia.
Qed.

(** C7: the two guards come first.  With a height that is even or below
    3 the constructor raises the height error, and with a legal height
    and a width that is even or below 3 the width error, whatever the
    generator: no grid and no disjoint set has been made.  Width 4,
    height 2 and width 1 fail that way; on legal dimensions, such as 5
    and 3, the constructor returns a maze. *)
Theorem dimensions_checked_first (rs : RandomSource) (W H : Z) :
  (H `mod` 2 = 0 ∨ H < 3 → KruskalMaze.init_frame rs W H = Raise IllegalHeight) ∧
  (¬ (H `mod` 2 = 0 ∨ H < 3) → W `mod` 2 = 0 ∨ W < 3 →
     KruskalMaze.init_frame rs W H = Raise IllegalWidth) ∧
  (KruskalMaze.init rs 4 H = Raise IllegalHeight ∨
   KruskalMaze.init rs 4 H = Raise IllegalWidth) ∧
  KruskalMaze.init rs W 2 = Raise IllegalHeight ∧
  (KruskalMaze.init rs 1 H = Raise IllegalHeight ∨
   KruskalMaze.init rs 1 H = Raise IllegalWidth) ∧
  (numpy_random rs → ∃ m, KruskalMaze.init rs 5 3 = Ok m) ∧
  (numpy_random rs → W `mod` 2 = 1 → H `mod` 2 = 1 → 3 ≤ W → 3 ≤ H →
     ∃ m, KruskalMaze.init rs W H = Ok m ∧
          KruskalMaze.width m = W ∧ KruskalMaze.height m = H ∧
          shape W H (KruskalMaze.grid m)).
Proof.
  assert (∀ W' H', H' `mod` 2 = 0 ∨ H' < 3 →
            KruskalMaze.init_frame rs W' H' = Raise IllegalHeight) as Hheight.
  { intros W' H' Hbad. unfold KruskalMaze.init_frame, KruskalMaze.check_dimensions.
    by rewrite bool_decide_true. }
  assert (∀ W' H', ¬ (H' `mod` 2 = 0 ∨ H' < 3) → W' `mod` 2 = 0 ∨ W' < 3 →
            KruskalMaze.init_frame rs W' H' = Raise IllegalWidth) as Hwidth.
  { intros W' H' Hgood Hbad. unfold KruskalMaze.init_frame, KruskalMaze.check_dimensions.
    rewrite bool_decide_false by done. by rewrite bool_decide_true. }
  assert (∀ W' H', W' `mod` 2 = 0 ∨ W' < 3 →
            KruskalMaze.init rs W' H' = Raise IllegalHeight ∨
            KruskalMaze.init rs W' H' = Raise IllegalWidth) as Heither.
  { intros W' H' Hbad. unfold KruskalMaze.init.
    destruct (decide (H' `mod` 2 = 0 ∨ H' < 3)) as [Hh|Hh].
    - left. by rewrite Hheight.
    - right. by rewrite Hwidth. }
  assert (∀ W' H', numpy_random rs → W' `mod` 2 = 1 → H' `mod` 2 = 1 → 3 ≤ W' → 3 ≤ H' →
            ∃ m, KruskalMaze.init rs W' H' = Ok m ∧
                 KruskalMaze.width m = W' ∧ KruskalMaze.height m = H' ∧
                 shape W' H' (KruskalMaze.grid m)) as Hok.
  { intros W' H' Hrs HW HH HW3 HH3.
    destruct (init_frame_spec rs W' H' Hrs HW HH HW3 HH3)
      as (g0 & g1 & cd & visited & opened & k & idx & g2 & _ & _ & _ & _ & _ & _
          & _ & _ & _ & _ & _ & Hs & _ & _ & _ & _ & Hinit).
    eexists. unfold KruskalMaze.init. rewrite Hinit. done. }
  split; [apply Hheight|]. split; [apply Hwidth|].
  split; [apply Heither; by left|].
  split; [unfold KruskalMaze.init; rewrite Hheight; [done | by left]|].
  split; [apply Heither; right; lia|].
  split; [|by apply Hok].
  intros Hrs. destruct (Hok 5 3 Hrs) as (m & Hm & _); [done|done|lia|lia|]. by exists m.
Qed.

Lemma dimensions_checked_first_witness :
  (3 `mod` 2 = 0 ∨ 3 < 3 → KruskalMaze.init_frame rs_first 5 3 = Raise IllegalHeight) ∧
  (¬ (3 `mod` 2 = 0 ∨ 3 < 3) → 5 `mod` 2 = 0 ∨ 5 < 3 →
     KruskalMaze.init_frame rs_first 5 3 = Raise IllegalWidth) ∧
  (KruskalMaze.init rs_first 4 3 = Raise IllegalHeight ∨
   KruskalMaze.init rs_first 4 3 = Raise IllegalWidth) ∧
  KruskalMaze.init rs_first 5 2 = Raise IllegalHeight ∧
  (KruskalMaze.init rs_first 1 3 = Raise IllegalHeight ∨
   KruskalMaze.init rs_first 1 3 = Raise IllegalWidth) ∧
  (numpy_random rs_first → ∃ m, KruskalMaze.init rs_first 5 3 = Ok m) ∧
  (numpy_random rs_first → 5 `mod` 2 = 1 → 3 `mod` 2 = 1 → 3 ≤ 5 → 3 ≤ 3 →
     ∃ m, KruskalMaze.init rs_first 5 3 = Ok m ∧
          KruskalMaze.width m = 5 ∧ KruskalMaze.height m = 3 ∧
          shape 5 3 (KruskalMaze.grid m)).
Proof. apply (dimensions_checked_first rs_first 5 3). Defined.

(** C10: from the grid of ones on, each assignment of the three loops
    (over the rooms, inside the loop over the shuffled walls, over the
    chosen junction dots) is made to a cell that holds 1 and leaves 0
    there, all other cells staying as they are; an iteration of the
    loop over the walls that makes no assignment leaves the grid alone.
    Each iteration is taken in the state the iterations before it
    produce.  So the finished grid holds 0 or 1 in every cell, and 0 in
    every room. *)
Theorem grid_only_opens (rs : RandomSource) (W H : Z) :
  numpy_random rs → W `mod` 2 = 1 → H `mod` 2 = 1 → 3 ≤ W → 3 ≤ H →
  ∃ g0 g1 cd k idx m,
    for_each KruskalMaze.open_cell (ones W H) (KruskalMaze.cell_ls W H) = Ok g0 ∧
    (∀ pre c suf, KruskalMaze.cell_ls W H = pre ++ c :: suf →
       ∃ g g', for_each KruskalMaze.open_cell (ones W H) pre = Ok g ∧
               KruskalMaze.open_cell g c = Ok g' ∧ opens W H g c g') ∧
    KruskalMaze.carve (g0, MazeCellDSet.init (KruskalMaze.cell_ls W H) W H)
      (rs_shuffle rs (KruskalMaze.wall_ls W H)) = Ok (g1, cd) ∧
    (∀ pre c suf, rs_shuffle rs (KruskalMaze.wall_ls W H) = pre ++ c :: suf →
       ∃ st, KruskalMaze.carve (g0, MazeCellDSet.init (KruskalMaze.cell_ls W H) W H) pre
             = Ok st ∧
             (MazeCellDSet.count st.2 = 1 ∨
              ∃ st', KruskalMaze.carve_step st c = Ok st' ∧
                     (st'.1 = st.1 ∨ opens W H st.1 c st'.1))) ∧
    KruskalMaze.additional_wall rs W H = Ok k ∧
    choice rs (Z.of_nat (length (KruskalMaze.not_care_ls W H))) k = Ok idx ∧
    for_each (KruskalMaze.open_dot (KruskalMaze.not_care_ls W H)) g1 idx
    = Ok (KruskalMaze.grid m) ∧
    (∀ pre i suf, idx = pre ++ i :: suf →
       ∃ g g' c, for_each (KruskalMaze.open_dot (KruskalMaze.not_care_ls W H)) g1 pre = Ok g ∧
                 list_getitem (KruskalMaze.not_care_ls W H) i = Ok c ∧
                 KruskalMaze.open_dot (KruskalMaze.not_care_ls W H) g i = Ok g' ∧
                 opens W H g c g') ∧
    KruskalMaze.init rs W H = Ok m ∧
    shape W H (KruskalMaze.grid m) ∧
    (∀ c, in_grid W H c →
          cell_at (KruskalMaze.grid m) c = Ok 0 ∨ cell_at (KruskalMaze.grid m) c = Ok 1) ∧
    (∀ c, c ∈ KruskalMaze.cell_ls W H → cell_at (KruskalMaze.grid m) c = Ok 0).
Proof.
  intros Hrs HW HH HW3 HH3.
  destruct (init_frame_spec rs W H Hrs HW HH HW3 HH3)
    as (g0 & g1 & cd & visited & opened & k & idx & g2 & Hfor0 & Hcarve & _ & Hinv0 & Hinv
        & _ & Hadd & Hk & Hch & _ & Hfor2 & Hs2 & Hnd & _ & Hsub & Hcells & Hinit).
  set (nc := KruskalMaze.not_care_ls W H) in *.
  pose proof (shuffle_perm rs Hrs (KruskalMaze.wall_ls W H)) as Hperm.
  assert (Forall (λ i, 0 ≤ i < Z.of_nat (length nc)) idx) as Hidx.
  { unfold choice in Hch. case_bool_decide as Hb; [|done]. injection Hch as <-.
    apply Forall_forall. intros i Hi. apply (choice_range rs Hrs _ k); [lia | done]. }
  pose proof (ci_cells _ _ _ _ _ Hinv) as Hcells1. cbn [fst] in Hcells1.
  exists g0, g1, cd, k, idx,
    {| KruskalMaze.height := H; KruskalMaze.width := W;
       KruskalMaze.index_ls := seqZ 1 (H * W - 1); KruskalMaze.grid := g2 |}.
  cbn [KruskalMaze.grid].
  split; [done|]. split.
  { intros pre c suf Heq.
    destruct (open_cells_prefix W H (KruskalMaze.cell_ls W H) (ones W H)) with pre c suf
      as (g & g' & Hg & Hop); try done.
    - apply ones_shape; lia.
    - apply NoDup_cell_ls.
    - apply Forall_forall. intros c' Hc'. by apply elem_of_cell_ls in Hc' as [? _].
    - intros c' Hc'. apply ones_cell. by apply elem_of_cell_ls in Hc' as [? _].
    - exists g, g'. split; [done|]. split; [|done]. by destruct Hop as (_ & ? & _). }
  split; [done|]. split.
  { intros pre c suf Heq.
    apply (carve_prefix W H (rs_shuffle rs (KruskalMaze.wall_ls W H))) with suf; try done.
    - rewrite Hperm. apply NoDup_wall_ls.
    - intros c' Hc'. by rewrite Hperm in Hc'. }
  split; [done|]. split; [done|]. split; [by rewrite open_dots|]. split.
  { intros pre i suf Heq.
    assert (Forall (λ i, 0 ≤ i < Z.of_nat (length nc)) pre ∧ 0 ≤ i < Z.of_nat (length nc))
      as [Hpre Hi].
    { rewrite Heq in Hidx. apply Forall_app in Hidx as [? Hi].
      by apply Forall_cons in Hi as [? _]. }
    destruct (lookup_lt_is_Some_2 nc (Z.to_nat i)) as [c Hc]; [lia|].
    assert (dots_of nc idx = dots_of nc pre ++ c :: dots_of nc suf) as Hdots.
    { rewrite Heq. unfold dots_of. by rewrite fmap_app, fmap_cons, Hc. }
    destruct (open_cells_prefix W H (dots_of nc idx) g1) with (dots_of nc pre) c (dots_of nc suf)
      as (g & g' & Hg & Hop); try done.
    - apply (ci_shape _ _ _ _ _ Hinv).
    - apply Forall_forall. intros c' Hc'. apply Hsub in Hc'.
      by apply elem_of_not_care_ls in Hc' as [? _].
    - intros c' Hc'. apply Hsub in Hc'.
      assert (in_grid W H c') as Hg by (by apply elem_of_not_care_ls in Hc' as [? _]).
      rewrite (Hcells1 c' Hg). rewrite decide_False; [done|].
      intros [Hroom|Hop]; [by apply dot_not_room in Hc'|].
      apply dot_not_wall in Hc'. apply Hc'.
      by apply (ci_walls _ _ _ _ _ Hinv), (ci_opened _ _ _ _ _ Hinv).
    - exists g, g', c. split; [by rewrite open_dots|].
      assert (list_getitem nc i = Ok c) as Hget.
      { unfold list_getitem. by rewrite np_index_ok, bind_Ok, Hc by lia. }
      split; [done|]. split; [|done].
      unfold KruskalMaze.open_dot. rewrite Hget, bind_Ok. by destruct Hop as (_ & ? & _). }
  split; [unfold KruskalMaze.init; by rewrite Hinit|]. split; [done|].
  assert (∀ c, in_grid W H c → cell_at g1 c = Ok 0 ∨ cell_at g1 c = Ok 1) as H01.
  { intros c Hc. rewrite (Hcells1 c Hc). case_decide; eauto. }
  split.
  - intros c Hc. rewrite (Hcells c Hc). case_decide; eauto.
  - intros c Hc.
    assert (in_grid W H c) as Hg by (by apply elem_of_cell_ls in Hc as [? _]).
    rewrite (Hcells c Hg). case_decide; [done|].
    rewrite (Hcells1 c Hg). by rewrite decide_True by (by left).
Qed.

Lemma grid_only_opens_witness :
  ∃ g0 g1 cd k idx m,
    for_each KruskalMaze.open_cell (ones 5 3) (KruskalMaze.cell_ls 5 3) = Ok g0 ∧
    (∀ pre c suf, KruskalMaze.cell_ls 5 3 = pre ++ c :: suf →
       ∃ g g', for_each KruskalMaze.open_cell (ones 5 3) pre = Ok g ∧
               KruskalMaze.open_cell g c = Ok g' ∧ opens 5 3 g c g') ∧
    KruskalMaze.carve (g0, MazeCellDSet.init (KruskalMaze.cell_ls 5 3) 5 3)
      (rs_shuffle rs_last (KruskalMaze.wall_ls 5 3)) = Ok (g1, cd) ∧
    (∀ pre c suf, rs_shuffle rs_last (KruskalMaze.wall_ls 5 3) = pre ++ c :: suf →
       ∃ st, KruskalMaze.carve (g0, MazeCellDSet.init (KruskalMaze.cell_ls 5 3) 5 3) pre
             = Ok st ∧
             (MazeCellDSet.count st.2 = 1 ∨
              ∃ st', KruskalMaze.carve_step st c = Ok st' ∧
                     (st'.1 = st.1 ∨ opens 5 3 st.1 c st'.1))) ∧
    KruskalMaze.additional_wall rs_last 5 3 = Ok k ∧
    choice rs_last (Z.of_nat (length (KruskalMaze.not_care_ls 5 3))) k = Ok idx ∧
    for_each (KruskalMaze.open_dot (KruskalMaze.not_care_ls 5 3)) g1 idx
    = Ok (KruskalMaze.grid m) ∧
    (∀ pre i suf, idx = pre ++ i :: suf →
       ∃ g g' c, for_each (KruskalMaze.open_dot (KruskalMaze.not_care_ls 5 3)) g1 pre = Ok g ∧
                 list_getitem (KruskalMaze.not_care_ls 5 3) i = Ok c ∧
                 KruskalMaze.open_dot (KruskalMaze.not_care_ls 5 3) g i = Ok g' ∧
                 opens 5 3 g c g') ∧
    KruskalMaze.init rs_last 5 3 = Ok m ∧
    shape 5 3 (KruskalMaze.grid m) ∧
    (∀ c, in_grid 5 3 c →
          cell_at (KruskalMaze.grid m) c = Ok 0 ∨ cell_at (KruskalMaze.grid m) c = Ok 1) ∧
    (∀ c, c ∈ KruskalMaze.cell_ls 5 3 → cell_at (KruskalMaze.grid m) c = Ok 0).
Proof.
  apply (grid_only_opens rs_last 5 3);
    [apply rs_last_numpy | reflexivity | reflexivity | lia | lia].
Defined.

(** ** Quick-union without weights *)

Lemma qu_init_fold (l : list Z) (i : Z) : ∀ m : gmap Z Z,
  foldl (λ m i, <[i := i]> m) m l !! i = if decide (i ∈ l) then Some i else m !! i.
Proof.
  induction l as [|x l IH]; intros m.
  - by rewrite decide_False by apply not_elem_of_nil.
  - cbn [foldl]. rewrite IH.
    destruct (decide (i ∈ l)) as [Hi|Hi].
    + by rewrite decide_True by (by right).
    + destruct (decide (i = x)) as [->|Hne].
      * rewrite lookup_insert_eq. by rewrite decide_True by left.
      * rewrite lookup_insert_ne by done.
        rewrite decide_False; [done|]. rewrite elem_of_cons. intros [?|?]; done.
Qed.

(** Both constructors build the same dictionary of parents. *)
Lemma qu_init_parent_map (n : Z) :
  QuickUnionDisjointSet.parent_map (QuickUnionDisjointSet.init n)
  = DSet.parent_map (DSet.init n).
Proof.
  apply map_eq. intros i. rewrite init_parent.
  unfold QuickUnionDisjointSet.init, range. cbn [QuickUnionDisjointSet.parent_map].
  rewrite qu_init_fold, lookup_empty.
  destruct (decide (i ∈ seqZ 0 n)) as [Hi|Hi]; rewrite elem_of_seqZ in Hi;
    [by rewrite decide_True by lia | by rewrite decide_False by lia].
Qed.

Lemma qu_inv_init (n : Z) : 0 ≤ n → qu_inv n [] (QuickUnionDisjointSet.init n).
Proof.
  intros Hn. pose proof (init_wf n) as [Hdom Hroot _].
  split; rewrite ?qu_init_parent_map.
  - done.
  - done.
  - intros x y r r' Hx Hy Hr Hr'. apply init_root_of in Hr as [_ ->].
    apply init_root_of in Hr' as [_ ->]. by rewrite connected_nil.
  - rewrite init_num_roots. cbn. lia.
Qed.

Lemma qu_find_spec (n : Z) (E : list (Z * Z)) (s : QuickUnionDisjointSet.t) (p : Z) :
  qu_inv n E s → 0 ≤ p < n →
  ∃ r, QuickUnionDisjointSet.find s p = Ok r ∧
       root_of (QuickUnionDisjointSet.parent_map s) p r ∧ 0 ≤ r < n ∧ connected E p r.
Proof.
  intros Hinv Hp. destruct (qu_root _ _ _ Hinv p Hp) as [r Hr].
  assert (0 ≤ r < n) as Hrn.
  { apply (qu_dom _ _ _ Hinv). exists r. by eapply root_of_is_root. }
  exists r. split; [by apply find_root_iff|]. split; [done|]. split; [done|].
  apply (qu_conn _ _ _ Hinv p r r r Hp Hrn Hr); [|done].
  apply root_of_root. by eapply root_of_is_root.
Qed.

Lemma qu_find_inv (s : QuickUnionDisjointSet.t) (p r : Z) :
  QuickUnionDisjointSet.find s p = Ok r ↔ root_of (QuickUnionDisjointSet.parent_map s) p r.
Proof. apply find_root_iff. Qed.

Lemma qu_is_connected_spec (n : Z) (E : list (Z * Z)) (s : QuickUnionDisjointSet.t) (p q : Z) :
  qu_inv n E s → 0 ≤ p < n → 0 ≤ q < n →
  ∃ b, QuickUnionDisjointSet.is_connected s p q = Ok b ∧ (b = true ↔ connected E p q).
Proof.
  intros Hinv Hp Hq.
  destruct (qu_find_spec n E s p Hinv Hp) as (a & Hfa & Ha & _).
  destruct (qu_find_spec n E s q Hinv Hq) as (b & Hfb & Hb & _).
  exists (bool_decide (a = b)). split.
  - unfold QuickUnionDisjointSet.is_connected. by rewrite Hfa, bind_Ok, Hfb, bind_Ok.
  - rewrite bool_decide_eq_true. by apply (qu_conn _ _ _ Hinv p q).
Qed.

(** [union(p, q)]: the root of [p] is put under the root of [q]. *)
Lemma qu_union_spec (n : Z) (E : list (Z * Z)) (s : QuickUnionDisjointSet.t) (p q a b : Z) :
  qu_inv n E s → 0 ≤ p < n → 0 ≤ q < n →
  root_of (QuickUnionDisjointSet.parent_map s) p a →
  root_of (QuickUnionDisjointSet.parent_map s) q b →
  QuickUnionDisjointSet.union s p q
  = Ok (if decide (a = b) then s
        else {| QuickUnionDisjointSet._count := QuickUnionDisjointSet._count s - 1;
                QuickUnionDisjointSet.parent_map :=
                  <[a := b]> (QuickUnionDisjointSet.parent_map s) |}) ∧
  qu_inv n ((p, q) :: E)
    (if decide (a = b) then s
     else {| QuickUnionDisjointSet._count := QuickUnionDisjointSet._count s - 1;
             QuickUnionDisjointSet.parent_map :=
               <[a := b]> (QuickUnionDisjointSet.parent_map s) |}).
Proof.
  intros Hinv Hp Hq Ha Hb.
  pose proof (root_of_is_root _ _ _ Ha) as Hra.
  pose proof (root_of_is_root _ _ _ Hb) as Hrb.
  split.
  { unfold QuickUnionDisjointSet.union.
    rewrite (proj2 (qu_find_inv s p a) Ha), bind_Ok.
    rewrite (proj2 (qu_find_inv s q b) Hb), bind_Ok.
    destruct (decide (a = b)) as [->|Hne];
      [by rewrite bool_decide_true | by rewrite bool_decide_false by congruence]. }
  assert (∀ x y, 0 ≤ x < n → 0 ≤ y < n →
            connected ((p, q) :: E) x y ↔
            ∃ rx ry, root_of (QuickUnionDisjointSet.parent_map s) x rx ∧
                     root_of (QuickUnionDisjointSet.parent_map s) y ry ∧
                     (rx = ry ∨ (rx = a ∧ ry = b) ∨ (rx = b ∧ ry = a))) as Hcc.
  { intros x y Hx Hy.
    destruct (qu_root _ _ _ Hinv x Hx) as [rx Hrx].
    destruct (qu_root _ _ _ Hinv y Hy) as [ry Hry].
    rewrite connected_cons.
    rewrite <-(qu_conn _ _ _ Hinv x y rx ry Hx Hy Hrx Hry).
    rewrite <-(qu_conn _ _ _ Hinv x p rx a Hx Hp Hrx Ha).
    rewrite <-(qu_conn _ _ _ Hinv q y b ry Hq Hy Hb Hry).
    rewrite <-(qu_conn _ _ _ Hinv x q rx b Hx Hq Hrx Hb).
    rewrite <-(qu_conn _ _ _ Hinv p y a ry Hp Hy Ha Hry).
    split.
    - intros Hcase. exists rx, ry. split; [done|]. split; [done|].
      destruct Hcase as [?|[[? ?]|[? ?]]]; subst; eauto.
    - intros (rx' & ry' & Hrx' & Hry' & Hcase).
      rewrite (root_of_det _ _ _ _ Hrx Hrx'), (root_of_det _ _ _ _ Hry Hry').
      destruct Hcase as [?|[[? ?]|[? ?]]]; subst; eauto. }
  destruct (decide (a = b)) as [->|Hne].
  - destruct Hinv as [Hdom Hroot Hconn Hcount]. split; try done.
    intros x y r r' Hx Hy Hr Hr'. rewrite (Hcc x y Hx Hy). split.
    + intros ->. exists r', r'. eauto.
    + intros (rx & ry & Hrx & Hry & Hcase).
      rewrite (root_of_det _ _ _ _ Hr Hrx), (root_of_det _ _ _ _ Hr' Hry).
      destruct Hcase as [?|[[? ?]|[? ?]]]; congruence.
  - destruct Hinv as [Hdom Hroot Hconn Hcount].
    split; cbn [QuickUnionDisjointSet.parent_map QuickUnionDisjointSet._count].
    + intros x. rewrite <-Hdom. destruct (decide (x = a)) as [->|Hx].
      * rewrite lookup_insert_eq, Hra. split; eauto.
      * by rewrite lookup_insert_ne.
    + intros x Hx. destruct (Hroot x Hx) as [r Hr].
      eexists. by apply link_root_of.
    + intros x y r r' Hx Hy Hr Hr'. rewrite (Hcc x y Hx Hy).
      destruct (Hroot x Hx) as [rx Hrx]. destruct (Hroot y Hy) as [ry Hry].
      pose proof (link_root_of _ a b _ _ Hra Hrb Hne Hrx) as Hrx'.
      pose proof (link_root_of _ a b _ _ Hra Hrb Hne Hry) as Hry'.
      rewrite (root_of_det _ _ _ _ Hr Hrx'), (root_of_det _ _ _ _ Hr' Hry').
      split.
      * intros Heq. exists rx, ry. split; [done|]. split; [done|].
        repeat case_decide; subst; eauto.
      * intros (rx0 & ry0 & Hrx0 & Hry0 & Hcase).
        rewrite (root_of_det _ _ _ _ Hrx Hrx0), (root_of_det _ _ _ _ Hry Hry0).
        destruct Hcase as [?|[[? ?]|[? ?]]]; subst; repeat case_decide; congruence.
    + rewrite Hcount, link_num_roots by done.
      pose proof (num_roots_pos _ _ Hra). lia.
Qed.

Lemma qu_exec_spec (n : Z) (E : list (Z * Z)) (s : QuickUnionDisjointSet.t) (c : call) :
  qu_inv n E s → in_range n c →
  ∃ a s', QuickUnionDisjointSet.exec s c = Ok (a, s') ∧ qu_inv n (union_edges [c] ++ E) s' ∧
    match c with
    | Union p q =>
        a = ANone ∧
        (connected E p q → s' = s) ∧
        (¬ connected E p q →
           QuickUnionDisjointSet._count s' = QuickUnionDisjointSet._count s - 1)
    | Find p => ∃ r, a = ARoot r ∧ s' = s
    | IsConnected p q => ∃ b, a = ABool b ∧ (b = true ↔ connected E p q) ∧ s' = s
    | Count => a = AInt (QuickUnionDisjointSet._count s) ∧ s' = s
    end.
Proof.
  intros Hinv Hc. destruct c as [p q|p|p q|]; simpl in *.
  - destruct Hc as [Hp Hq].
    destruct (qu_root _ _ _ Hinv p Hp) as [a Ha].
    destruct (qu_root _ _ _ Hinv q Hq) as [b Hb].
    destruct (qu_union_spec n E s p q a b Hinv Hp Hq Ha Hb) as [Hu Hinv'].
    pose proof (qu_conn _ _ _ Hinv p q a b Hp Hq Ha Hb) as Hiff.
    rewrite Hu, bind_Ok. eexists _, _. split; [done|]. split; [done|].
    split; [done|]. split.
    + intros Hcon. by rewrite decide_True by (by apply Hiff).
    + intros Hcon. rewrite decide_False; [done|]. intros Heq. by apply Hcon, Hiff.
  - destruct (qu_find_spec n E s p Hinv Hc) as (r & Hf & _).
    rewrite Hf, bind_Ok. eexists _, _. split; [done|]. split; [done|]. by exists r.
  - destruct Hc as [Hp Hq].
    destruct (qu_is_connected_spec n E s p q Hinv Hp Hq) as (b & Hi & Hb).
    rewrite Hi, bind_Ok. eexists _, _. split; [done|]. split; [done|]. by exists b.
  - eexists _, _. done.
Qed.

Lemma qu_inv_subseteq (n : Z) (E E' : list (Z * Z)) (s : QuickUnionDisjointSet.t) :
  E ⊆ E' → E' ⊆ E → qu_inv n E s → qu_inv n E' s.
Proof.
  intros H1 H2 [Hdom Hroot Hconn Hcount]. split; try done.
  intros x y r r' Hx Hy Hr Hr'. rewrite (Hconn x y r r' Hx Hy Hr Hr').
  split; by apply connected_mono.
Qed.

Lemma union_edges_cons (c : call) (cs : list call) :
  union_edges (c :: cs) = union_edges [c] ++ union_edges cs.
Proof. by destruct c. Qed.

Lemma union_edges_app (cs1 cs2 : list call) :
  union_edges (cs1 ++ cs2) = union_edges cs1 ++ union_edges cs2.
Proof.
  induction cs1 as [|c cs1 IH]; [done|].
  rewrite <-app_comm_cons, union_edges_cons, IH, (union_edges_cons c cs1).
  by rewrite app_assoc.
Qed.

Lemma edges_swap (c : call) (cs : list call) (E : list (Z * Z)) :
  union_edges cs ++ union_edges [c] ++ E ⊆ union_edges (c :: cs) ++ E ∧
  union_edges (c :: cs) ++ E ⊆ union_edges cs ++ union_edges [c] ++ E.
Proof.
  rewrite (union_edges_cons c cs).
  split; intros e; rewrite !elem_of_app; tauto.
Qed.

Lemma qu_run_cons_Ok (s s1 s' : QuickUnionDisjointSet.t) c cs a answers :
  QuickUnionDisjointSet.exec s c = Ok (a, s1) →
  QuickUnionDisjointSet.run s1 cs = Ok (answers, s') →
  QuickUnionDisjointSet.run s (c :: cs) = Ok (a :: answers, s').
Proof. intros H1 H2. simpl. rewrite H1. simpl. by rewrite H2. Qed.

Lemma qu_run_inv (n : Z) (cs : list call) : ∀ (E : list (Z * Z)) s,
  qu_inv n E s → Forall (in_range n) cs →
  ∃ answers s', QuickUnionDisjointSet.run s cs = Ok (answers, s') ∧
                qu_inv n (union_edges cs ++ E) s'.
Proof.
  induction cs as [|c cs IH]; intros E s Hinv Hcs.
  - by exists [], s.
  - apply Forall_cons in Hcs as [Hc Hcs].
    destruct (qu_exec_spec n E s c Hinv Hc) as (a & s1 & He & Hinv1 & _).
    destruct (IH _ _ Hinv1 Hcs) as (answers & s' & Hr & Hinv').
    exists (a :: answers), s'. split; [by apply (qu_run_cons_Ok s s1)|].
    destruct (edges_swap c cs E) as [H1 H2]. by eapply qu_inv_subseteq.
Qed.

Lemma qu_run_init (n : Z) (cs : list call) :
  0 ≤ n → Forall (in_range n) cs →
  ∃ answers s, QuickUnionDisjointSet.run (QuickUnionDisjointSet.init n) cs = Ok (answers, s) ∧
               qu_inv n (union_edges cs) s.
Proof.
  intros Hn Hcs.
  destruct (qu_run_inv n cs [] _ (qu_inv_init n Hn) Hcs) as (answers & s & Hr & Hinv).
  exists answers, s. by rewrite app_nil_r in Hinv.
Qed.

(** The two classes in step: the same calls, the same graph, the same
    count, and the same answers up to the names of the representatives. *)
Lemma run_in_step (n : Z) (cs : list call) :
  ∀ (E : list (Z * Z)) (s : DSet.t) (u : QuickUnionDisjointSet.t),
  inv n E s → qu_inv n E u → DSet._count s = QuickUnionDisjointSet._count u →
  Forall (in_range n) cs →
  ∃ answers s' answers' u',
    run s cs = Ok (answers, s') ∧
    QuickUnionDisjointSet.run u cs = Ok (answers', u') ∧
    observable <$> answers = observable <$> answers' ∧
    inv n (union_edges cs ++ E) s' ∧ qu_inv n (union_edges cs ++ E) u' ∧
    DSet._count s' = QuickUnionDisjointSet._count u'.
Proof.
  induction cs as [|c cs IH]; intros E s u Hinv Hqinv Hcount Hcs.
  - exists [], s, [], u. done.
  - apply Forall_cons in Hcs as [Hc Hcs].
    destruct (exec_spec n E s c Hinv Hc) as (a & s1 & He & Hinv1 & Hans).
    destruct (qu_exec_spec n E u c Hqinv Hc) as (a' & u1 & He' & Hqinv1 & Hans').
    assert (observable a = observable a' ∧
            DSet._count s1 = QuickUnionDisjointSet._count u1) as [Hobs Hcount1].
    { pose proof (inv_wf _ _ _ Hinv) as Hwf.
      destruct c as [p q|p|p q|]; simpl in Hc.
      - destruct Hc as [Hp Hq].
        destruct Hans as (-> & Hsame & Hdiff). destruct Hans' as (-> & Hsame' & Hdiff').
        split; [done|].
        pose proof (inv_conn _ _ _ Hinv p q Hp Hq) as Hiff.
        destruct (wf_root _ _ Hwf p Hp) as [ra Hra].
        destruct (wf_root _ _ Hwf q Hq) as [rb Hrb].
        pose proof (same_set_roots s p q ra rb Hra Hrb) as Hroots.
        destruct (decide (ra = rb)) as [Hs|Hs]; rewrite <-Hroots in Hs.
        + rewrite (sp_count _ _ (Hsame Hs)), Hsame'; [done|]. by apply Hiff.
        + rewrite (Hdiff Hs), Hdiff'; [lia|]. intros Hcon. by apply Hs, Hiff.
      - destruct Hans as (r & -> & _ & Hsp). destruct Hans' as (r' & -> & ->).
        split; [done|]. by rewrite (sp_count _ _ Hsp).
      - destruct Hans as (b & -> & Hb & Hsp). destruct Hans' as (b' & -> & Hb' & ->).
        split; [|by rewrite (sp_count _ _ Hsp)].
        simpl. f_equal. apply eq_true_iff_eq.
        pose proof (inv_conn _ _ _ Hinv p q (proj1 Hc) (proj2 Hc)) as Hiff.
        rewrite Hb, Hb'. done.
      - destruct Hans as [-> ->]. destruct Hans' as [-> ->]. split; [|done].
        simpl. by rewrite Hcount. }
    destruct (IH _ _ _ Hinv1 Hqinv1 Hcount1 Hcs)
      as (answers & s' & answers' & u' & Hr & Hr' & Hobs' & Hinv' & Hqinv' & Hcount').
    exists (a :: answers), s', (a' :: answers'), u'.
    split; [by apply (run_cons_Ok s s1)|].
    split; [by apply (qu_run_cons_Ok u u1)|].
    split; [rewrite !fmap_cons; congruence|].
    destruct (edges_swap c cs E) as [H1 H2].
    split; [by eapply inv_subseteq|]. split; [by eapply qu_inv_subseteq | done].
Qed.

Lemma qu_run_app (cs1 cs2 : list call) : ∀ (s s1 s2 : QuickUnionDisjointSet.t) as1 as2,
  QuickUnionDisjointSet.run s cs1 = Ok (as1, s1) →
  QuickUnionDisjointSet.run s1 cs2 = Ok (as2, s2) →
  QuickUnionDisjointSet.run s (cs1 ++ cs2) = Ok (as1 ++ as2, s2).
Proof.
  induction cs1 as [|c cs1 IH]; intros s s1 s2 as1 as2 H1 H2.
  - simpl in H1. by simplify_eq.
  - simpl in H1. apply bind_inv in H1 as ([a s0] & He & H1).
    apply bind_inv in H1 as ([as0 s0'] & Hr & H1). simplify_eq.
    rewrite <-!app_comm_cons. apply (qu_run_cons_Ok s s0); [done|].
    by apply (IH s0 s1).
Qed.

(** ** Quick-union: what a caller sees *)

(** X1: [QuickUnionDisjointSet].  After any run of calls on elements of
    [[0, n)] every call has returned; [is_connected(p, q)] answers true
    exactly when [p] and [q] lie in one component of the graph of the
    unions made; [find(p)] names a root of [[0, n)] in the component of
    [p]; and [count()] is the number of roots. *)
Theorem quick_union_components (n : Z) (cs : list call) :
  0 ≤ n → Forall (in_range n) cs →
  ∃ answers s,
    QuickUnionDisjointSet.run (QuickUnionDisjointSet.init n) cs = Ok (answers, s) ∧
    (∀ p q, 0 ≤ p < n → 0 ≤ q < n →
       ∃ b, QuickUnionDisjointSet.is_connected s p q = Ok b ∧
            (b = true ↔ connected (union_edges cs) p q)) ∧
    (∀ p, 0 ≤ p < n →
       ∃ r, QuickUnionDisjointSet.find s p = Ok r ∧ 0 ≤ r < n ∧
            QuickUnionDisjointSet.parent_map s !! r = Some r ∧
            connected (union_edges cs) p r) ∧
    QuickUnionDisjointSet.count s
    = Z.of_nat (num_roots (QuickUnionDisjointSet.parent_map s)).
Proof.
  intros Hn Hcs. destruct (qu_run_init n cs Hn Hcs) as (answers & s & Hrun & Hinv).
  exists answers, s. split; [done|]. split; [|split].
  - intros p q Hp Hq. by apply (qu_is_connected_spec n).
  - intros p Hp. destruct (qu_find_spec n _ s p Hinv Hp) as (r & Hf & Hr & Hrn & Hc).
    exists r. split; [done|]. split; [done|]. split; [by eapply root_of_is_root | done].
  - apply (qu_count _ _ _ Hinv).
Qed.

Lemma quick_union_components_witness :
  ∃ answers s,
    QuickUnionDisjointSet.run (QuickUnionDisjointSet.init 3) [Union 0 1; IsConnected 1 0]
    = Ok (answers, s) ∧
    (∀ p q, 0 ≤ p < 3 → 0 ≤ q < 3 →
       ∃ b, QuickUnionDisjointSet.is_connected s p q = Ok b ∧
            (b = true ↔ connected (union_edges [Union 0 1; IsConnected 1 0]) p q)) ∧
    (∀ p, 0 ≤ p < 3 →
       ∃ r, QuickUnionDisjointSet.find s p = Ok r ∧ 0 ≤ r < 3 ∧
            QuickUnionDisjointSet.parent_map s !! r = Some r ∧
            connected (union_edges [Union 0 1; IsConnected 1 0]) p r) ∧
    QuickUnionDisjointSet.count s
    = Z.of_nat (num_roots (QuickUnionDisjointSet.parent_map s)).
Proof.
  apply (quick_union_components 3 [Union 0 1; IsConnected 1 0]); [lia|].
  repeat constructor; simpl; lia.
Defined.

(** X2: [QuickUnionDisjointSet.union(p, q)] in a state reached by calls
    on [[0, n)], where [find(p) = a] and [find(q) = b].  If [a = b] the
    structure is left exactly as it was.  Otherwise the only write is
    [parent_map[a] = b]: the root of [p] goes under the root of [q]
    whatever the sizes of the two trees, count drops by 1, and [find]
    afterwards answers [b] for the elements it answered [a] for and is
    unchanged for all others. *)
Theorem quick_union_puts_p_under_q (n : Z) (cs : list call) (p q : Z) :
  0 ≤ n → Forall (in_range n) cs → 0 ≤ p < n → 0 ≤ q < n →
  ∃ answers s a b s',
    QuickUnionDisjointSet.run (QuickUnionDisjointSet.init n) cs = Ok (answers, s) ∧
    QuickUnionDisjointSet.find s p = Ok a ∧ QuickUnionDisjointSet.find s q = Ok b ∧
    QuickUnionDisjointSet.union s p q = Ok s' ∧
    (a = b → s' = s) ∧
    (a ≠ b →
       QuickUnionDisjointSet.count s' = QuickUnionDisjointSet.count s - 1 ∧
       QuickUnionDisjointSet.parent_map s' = <[a := b]> (QuickUnionDisjointSet.parent_map s) ∧
       ∀ x, 0 ≤ x < n →
         ∃ r, QuickUnionDisjointSet.find s x = Ok r ∧
              QuickUnionDisjointSet.find s' x = Ok (if decide (r = a) then b else r)).
Proof.
  intros Hn Hcs Hp Hq. destruct (qu_run_init n cs Hn Hcs) as (answers & s & Hrun & Hinv).
  destruct (qu_find_spec n _ s p Hinv Hp) as (a & Hfa & Ha & _).
  destruct (qu_find_spec n _ s q Hinv Hq) as (b & Hfb & Hb & _).
  destruct (qu_union_spec n _ s p q a b Hinv Hp Hq Ha Hb) as [Hu _].
  eexists answers, s, a, b, _. split; [done|]. split; [done|]. split; [done|].
  split; [done|]. split.
  - intros Hab. by rewrite decide_True.
  - intros Hab. rewrite decide_False by done. split; [done|]. split; [done|].
    intros x Hx. destruct (qu_find_spec n _ s x Hinv Hx) as (r & Hfr & Hr & _).
    exists r. split; [done|]. apply qu_find_inv. cbn [QuickUnionDisjointSet.parent_map].
    apply link_root_of; [by eapply root_of_is_root..|done|done].
Qed.

Lemma quick_union_puts_p_under_q_witness :
  ∃ answers s a b s',
    QuickUnionDisjointSet.run (QuickUnionDisjointSet.init 4) [Union 0 1; Union 0 2]
    = Ok (answers, s) ∧
    QuickUnionDisjointSet.find s 1 = Ok a ∧ QuickUnionDisjointSet.find s 3 = Ok b ∧
    QuickUnionDisjointSet.union s 1 3 = Ok s' ∧
    (a = b → s' = s) ∧
    (a ≠ b →
       QuickUnionDisjointSet.count s' = QuickUnionDisjointSet.count s - 1 ∧
       QuickUnionDisjointSet.parent_map s' = <[a := b]> (QuickUnionDisjointSet.parent_map s) ∧
       ∀ x, 0 ≤ x < 4 →
         ∃ r, QuickUnionDisjointSet.find s x = Ok r ∧
              QuickUnionDisjointSet.find s' x = Ok (if decide (r = a) then b else r)).
Proof.
  apply (quick_union_puts_p_under_q 4 [Union 0 1; Union 0 2] 1 3); [lia| |lia|lia].
  repeat constructor; simpl; lia.
Defined.

(** X3: the two classes are interchangeable behind the interface.  On
    the same calls, made on elements of [[0, n)],
    [QuickUnionDisjointSet] and [WeightQuickUnionDisjointSet] both
    return from every call and give the same answer to every
    [is_connected] and every [count]; only the representative that
    [find] names may differ.  The states they end in agree on every
    further [is_connected] and on [count]. *)
Theorem both_classes_answer_alike (n : Z) (cs : list call) :
  0 ≤ n → Forall (in_range n) cs →
  ∃ answers s answers' u,
    run (DSet.init n) cs = Ok (answers, s) ∧
    QuickUnionDisjointSet.run (QuickUnionDisjointSet.init n) cs = Ok (answers', u) ∧
    observable <$> answers = observable <$> answers' ∧
    DSet.count s = QuickUnionDisjointSet.count u ∧
    ∀ p q, 0 ≤ p < n → 0 ≤ q < n →
      ∃ b s', DSet.is_connected s p q = Ok (b, s') ∧
              QuickUnionDisjointSet.is_connected u p q = Ok b.
Proof.
  intros Hn Hcs.
  destruct (run_in_step n cs [] (DSet.init n) (QuickUnionDisjointSet.init n)
              (inv_init n Hn) (qu_inv_init n Hn) eq_refl Hcs)
    as (answers & s & answers' & u & Hr & Hr' & Hobs & Hinv & Hqinv & Hcount).
  rewrite app_nil_r in Hinv, Hqinv.
  exists answers, s, answers', u. split; [done|]. split; [done|]. split; [done|].
  split; [done|]. intros p q Hp Hq.
  pose proof (inv_wf _ _ _ Hinv) as Hwf.
  destruct (wf_root _ _ Hwf p Hp) as [a Ha].
  destruct (wf_root _ _ Hwf q Hq) as [b Hb].
  destruct (is_connected_spec n s p q a b Hwf Ha Hb) as (s' & Hi & _).
  destruct (qu_is_connected_spec n _ u p q Hqinv Hp Hq) as (b' & Hi' & Hb').
  exists (bool_decide (a = b)), s'. split; [done|]. rewrite Hi'. f_equal.
  apply eq_true_iff_eq. rewrite Hb', bool_decide_eq_true.
  rewrite <-(inv_conn _ _ _ Hinv p q Hp Hq). by apply same_set_roots.
Qed.

Lemma both_classes_answer_alike_witness :
  ∃ answers s answers' u,
    run (DSet.init 4) [Union 0 1; Union 2 1; Find 0; IsConnected 0 2; Count]
    = Ok (answers, s) ∧
    QuickUnionDisjointSet.run (QuickUnionDisjointSet.init 4)
      [Union 0 1; Union 2 1; Find 0; IsConnected 0 2; Count] = Ok (answers', u) ∧
    observable <$> answers = observable <$> answers' ∧
    DSet.count s = QuickUnionDisjointSet.count u ∧
    ∀ p q, 0 ≤ p < 4 → 0 ≤ q < 4 →
      ∃ b s', DSet.is_connected s p q = Ok (b, s') ∧
              QuickUnionDisjointSet.is_connected u p q = Ok b.
Proof.
  apply (both_classes_answer_alike 4 [Union 0 1; Union 2 1; Find 0; IsConnected 0 2; Count]);
    [lia|].
  repeat constructor; simpl; lia.
Defined.

(** The representatives do differ: after [union(0, 1)] the class
    without weights names 1, the weighted one 0. *)
Lemma representatives_differ :
  (λ r, r.1) <$> run (DSet.init 2) [Union 0 1; Find 0] = Ok [ANone; ARoot 0] ∧
  (λ r, r.1) <$> QuickUnionDisjointSet.run (QuickUnionDisjointSet.init 2) [Union 0 1; Find 0]
  = Ok [ANone; ARoot 1].
Proof. split; vm_compute; reflexivity. Qed.

(** ** Quick-union: a tree as high as a list *)

Lemma unions_from_zero_S (k : nat) :
  unions_from_zero (S k) = unions_from_zero k ++ [Union 0 (Z.of_nat (S k))].
Proof.
  unfold unions_from_zero.
  replace (Z.of_nat (S k)) with (Z.of_nat k + 1) by lia.
  rewrite seqZ_app by lia. rewrite fmap_app. f_equal.
  rewrite seqZ_cons by lia. cbn. do 2 f_equal. lia.
Qed.

Lemma unions_from_zero_chain (n : Z) (k : nat) :
  Z.of_nat k < n →
  ∃ answers s,
    QuickUnionDisjointSet.run (QuickUnionDisjointSet.init n) (unions_from_zero k)
    = Ok (answers, s) ∧
    path (QuickUnionDisjointSet.parent_map s) 0 (Z.of_nat k) k ∧
    (∀ i, Z.of_nat k < i < n → QuickUnionDisjointSet.parent_map s !! i = Some i) ∧
    (∀ i, 0 ≤ i < Z.of_nat k → QuickUnionDisjointSet.parent_map s !! i = Some (i + 1)).
Proof.
  induction k as [|k IH]; intros Hk.
  - exists [], (QuickUnionDisjointSet.init n). split; [done|].
    rewrite qu_init_parent_map. split; [|split].
    + apply path_root. rewrite init_parent. by rewrite decide_True by lia.
    + intros i Hi. rewrite init_parent. by rewrite decide_True by lia.
    + intros i Hi. lia.
  - destruct IH as (answers & s & Hrun & Hpath & Hrest & Hchain); [lia|].
    set (pm := QuickUnionDisjointSet.parent_map s) in *.
    assert (pm !! Z.of_nat k = Some (Z.of_nat k)) as Hroot by (by eapply path_is_root).
    assert (pm !! Z.of_nat (S k) = Some (Z.of_nat (S k))) as Hnext by (apply Hrest; lia).
    assert (QuickUnionDisjointSet.union s 0 (Z.of_nat (S k))
            = Ok {| QuickUnionDisjointSet._count := QuickUnionDisjointSet._count s - 1;
                    QuickUnionDisjointSet.parent_map := <[Z.of_nat k := Z.of_nat (S k)]> pm |})
      as Hu.
    { unfold QuickUnionDisjointSet.union.
      rewrite (proj2 (qu_find_inv s 0 (Z.of_nat k))) by (by exists k).
      rewrite bind_Ok.
      rewrite (proj2 (qu_find_inv s _ (Z.of_nat (S k)))) by (by apply root_of_root).
      rewrite bind_Ok. by rewrite bool_decide_false by lia. }
    eexists _, _. split; [|split; [|split]].
    + rewrite unions_from_zero_S. eapply qu_run_app; [done|].
      cbn [QuickUnionDisjointSet.run QuickUnionDisjointSet.exec]. rewrite Hu. reflexivity.
    + cbn [QuickUnionDisjointSet.parent_map].
      apply (path_link_loser pm (Z.of_nat k) (Z.of_nat (S k)) 0 (Z.of_nat k) k);
        [done | done | lia | done | done].
    + intros i Hi. cbn [QuickUnionDisjointSet.parent_map].
      rewrite lookup_insert_ne by lia. apply Hrest. lia.
    + intros i Hi. cbn [QuickUnionDisjointSet.parent_map].
      destruct (decide (i = Z.of_nat k)) as [->|Hne].
      * rewrite lookup_insert_eq. f_equal. lia.
      * rewrite lookup_insert_ne by done. apply Hchain. lia.
Qed.

(** X4: nothing keeps the trees of [QuickUnionDisjointSet] low.  On [n]
    elements the calls [union(0, 1), union(0, 2), ..., union(0, k)],
    [k < n], all return and leave a single chain [0 → 1 → ... → k]: the
    loop of [find(0)] then takes [k] steps, [n - 1] of them when
    [k = n - 1]. *)
Theorem quick_union_chain (n : Z) (k : nat) :
  Z.of_nat k < n →
  ∃ answers s,
    QuickUnionDisjointSet.run (QuickUnionDisjointSet.init n) (unions_from_zero k)
    = Ok (answers, s) ∧
    path (QuickUnionDisjointSet.parent_map s) 0 (Z.of_nat k) k ∧
    QuickUnionDisjointSet.find s 0 = Ok (Z.of_nat k) ∧
    ∀ i, 0 ≤ i < Z.of_nat k →
      QuickUnionDisjointSet.parent_map s !! i = Some (i + 1).
Proof.
  intros Hk.
  destruct (unions_from_zero_chain n k Hk) as (answers & s & Hrun & Hpath & _ & Hchain).
  exists answers, s. split; [done|]. split; [done|].
  split; [apply qu_find_inv; by exists k | done].
Qed.

Lemma quick_union_chain_witness :
  ∃ answers s,
    QuickUnionDisjointSet.run (QuickUnionDisjointSet.init 4) (unions_from_zero 3)
    = Ok (answers, s) ∧
    path (QuickUnionDisjointSet.parent_map s) 0 (Z.of_nat 3) 3 ∧
    QuickUnionDisjointSet.find s 0 = Ok (Z.of_nat 3) ∧
    ∀ i, 0 ≤ i < Z.of_nat 3 →
      QuickUnionDisjointSet.parent_map s !! i = Some (i + 1).
Proof. apply (quick_union_chain 4 3). lia. Defined.

(** ** Weighted quick-union: the height of the trees *)

Lemma compressed_balanced (n : Z) (s s' : DSet.t) (q : Z) :
  wf n s → balanced s →
  compressed_to q (DSet.parent_map s) (DSet.sz_map s) (DSet.parent_map s') (DSet.sz_map s') →
  balanced s'.
Proof.
  intros Hwf Hbal (Hq & Hpaths & Hpt) y r k v Hpath Hv.
  assert (0 ≤ y < n) as Hy.
  { apply (wf_dom _ _ Hwf). apply path_lookup in Hpath as [z Hz].
    destruct (Hpt y) as [[Heq _] | (y' & Hy' & _)]; [rewrite <-Heq|]; eauto. }
  destruct (wf_root _ _ Hwf y Hy) as (r0 & k0 & Hpath0).
  destruct (Hpaths _ _ _ Hpath0) as (k' & Hle & Hpath').
  destruct (path_det _ _ _ _ _ _ Hpath Hpath') as [-> ->].
  pose proof (path_is_root _ _ _ _ Hpath0) as Hroot.
  assert (DSet.sz_map s !! r0 = Some v) as Hv0.
  { destruct (Hpt r0) as [[_ <-] | (y' & Hy' & Hne & _)]; [done | congruence]. }
  pose proof (Hbal _ _ _ _ Hpath0 Hv0) as Hb.
  etrans; [|exact Hb]. apply Z.pow_le_mono_r; lia.
Qed.

(** The root [l], whose tree is not the larger one, goes under the root
    [w]. *)
Lemma link_balanced (n : Z) (s s' : DSet.t) (l w sl sw : Z) :
  wf n s → balanced s →
  DSet.parent_map s !! l = Some l → DSet.parent_map s !! w = Some w → l ≠ w →
  DSet.sz_map s !! l = Some sl → DSet.sz_map s !! w = Some sw → sl ≤ sw →
  DSet.parent_map s' = <[l := w]> (DSet.parent_map s) →
  DSet.sz_map s' = <[w := sl + sw]> (DSet.sz_map s) →
  balanced s'.
Proof.
  intros Hwf Hbal Hl Hw Hlw Hsl Hsw Hle Hpm Hsz y r k v Hpath Hv.
  rewrite Hpm in Hpath. rewrite Hsz in Hv.
  assert (0 ≤ y < n) as Hy.
  { apply (wf_dom _ _ Hwf). apply path_lookup in Hpath as [z Hz].
    apply lookup_insert_Some in Hz as [[<- _]|[_ Hz]]; eauto. }
  destruct (wf_root _ _ Hwf y Hy) as (r0 & k0 & Hpath0).
  pose proof (Hbal _ _ _ _ (path_root _ _ Hl) Hsl) as Hl1.
  change (2 ^ Z.of_nat 0) with 1 in Hl1.
  destruct (decide (r0 = l)) as [->|Hne].
  - pose proof (path_link_loser _ l w _ _ _ Hl Hw Hlw Hpath0 eq_refl) as Hpath'.
    destruct (path_det _ _ _ _ _ _ Hpath Hpath') as [-> ->].
    rewrite lookup_insert_eq in Hv. injection Hv as <-.
    pose proof (Hbal _ _ _ _ Hpath0 Hsl) as Hb.
    rewrite Nat2Z.inj_succ, Z.pow_succ_r by lia. lia.
  - pose proof (path_link_other _ l w _ _ _ Hl Hpath0 Hne) as Hpath'.
    destruct (path_det _ _ _ _ _ _ Hpath Hpath') as [-> ->].
    destruct (decide (r0 = w)) as [->|Hnw].
    + rewrite lookup_insert_eq in Hv. injection Hv as <-.
      pose proof (Hbal _ _ _ _ Hpath0 Hsw) as Hb. lia.
    + rewrite lookup_insert_ne in Hv by done. by eapply Hbal.
Qed.

Lemma find_balanced (n : Z) (s s' : DSet.t) (p q : Z) :
  wf n s → balanced s → 0 ≤ p < n → DSet.find s p = Ok (q, s') →
  wf n s' ∧ balanced s' ∧ same_partition s s'.
Proof.
  intros Hwf Hbal Hp Hf. destruct (wf_root _ _ Hwf p Hp) as [r Hr].
  destruct (find_spec s p r Hr) as (s1 & Hf1 & Hc1 & Hct1 & _).
  rewrite Hf in Hf1. injection Hf1 as -> <-.
  pose proof (compressed_same_partition _ _ _ Hc1 Hct1) as Hsp.
  split; [by eapply same_partition_wf|]. split; [by eapply compressed_balanced | done].
Qed.

Lemma find_returns (n : Z) (s : DSet.t) (p : Z) :
  wf n s → 0 ≤ p < n → ∃ q s', DSet.find s p = Ok (q, s') ∧ root_of (DSet.parent_map s) p q.
Proof.
  intros Hwf Hp. destruct (wf_root _ _ Hwf p Hp) as [r Hr].
  destruct (find_spec s p r Hr) as (s1 & Hf1 & _). by exists r, s1.
Qed.

Lemma union_balanced (n : Z) (s s' : DSet.t) (p q : Z) :
  wf n s → balanced s → 0 ≤ p < n → 0 ≤ q < n →
  DSet.union s p q = Ok s' → balanced s'.
Proof.
  intros Hwf Hbal Hp Hq Hu.
  destruct (find_returns n s p Hwf Hp) as (a & s1 & Hf1 & Ha).
  destruct (find_balanced n s s1 p a Hwf Hbal Hp Hf1) as (Hwf1 & Hbal1 & Hsp1).
  destruct (find_returns n s1 q Hwf1 Hq) as (b & s2 & Hf2 & Hb).
  destruct (find_balanced n s1 s2 q b Hwf1 Hbal1 Hq Hf2) as (Hwf2 & Hbal2 & Hsp2).
  assert (DSet.parent_map s2 !! a = Some a) as Hra.
  { apply (sp_roots _ _ Hsp2), (sp_roots _ _ Hsp1). by eapply root_of_is_root. }
  assert (DSet.parent_map s2 !! b = Some b) as Hrb.
  { apply (sp_roots _ _ Hsp2). by eapply root_of_is_root. }
  unfold DSet.union in Hu. rewrite Hf1, bind_Ok in Hu. cbn beta iota in Hu.
  rewrite Hf2, bind_Ok in Hu. cbn beta iota in Hu.
  case_bool_decide as Hab; [by simplify_eq|].
  destruct (wf_sz _ _ Hwf2 a) as [sa Hsa]; [apply (wf_dom _ _ Hwf2); eauto|].
  destruct (wf_sz _ _ Hwf2 b) as [sb Hsb]; [apply (wf_dom _ _ Hwf2); eauto|].
  rewrite (getitem_Some _ _ _ Hsa), bind_Ok, (getitem_Some _ _ _ Hsb), bind_Ok in Hu.
  case_bool_decide as Hlt; injection Hu as <-.
  - apply (link_balanced n s2 _ a b sa sb);
      [done | done | done | done | congruence | done | done | lia | done | done].
  - apply (link_balanced n s2 _ b a sb sa);
      [done | done | done | done | done | done | done | lia | done |].
    cbn. f_equal. lia.
Qed.

Lemma exec_balanced (n : Z) (E : list (Z * Z)) (s s' : DSet.t) (c : call) (a : answer) :
  inv n E s → balanced s → in_range n c → exec s c = Ok (a, s') → balanced s'.
Proof.
  intros Hinv Hbal Hc He. pose proof (inv_wf _ _ _ Hinv) as Hwf.
  destruct c as [p q|p|p q|]; simpl in Hc, He.
  - destruct Hc as [Hp Hq]. apply bind_inv in He as (s1 & Hu & He). simplify_eq.
    by apply (union_balanced n s s' p q).
  - apply bind_inv in He as ([r s1] & Hf & He). simplify_eq.
    by destruct (find_balanced n s s' p r Hwf Hbal Hc Hf) as (_ & ? & _).
  - destruct Hc as [Hp Hq]. apply bind_inv in He as ([b s2] & Hi & He). simplify_eq.
    unfold DSet.is_connected in Hi.
    apply bind_inv in Hi as ([ra s1] & Hf1 & Hi). cbn beta iota in Hi.
    apply bind_inv in Hi as ([rb s2] & Hf2 & Hi). simplify_eq.
    destruct (find_balanced n s s1 p ra Hwf Hbal Hp Hf1) as (Hwf1 & Hbal1 & _).
    by destruct (find_balanced n s1 s' q rb Hwf1 Hbal1 Hq Hf2) as (_ & ? & _).
  - by simplify_eq.
Qed.

Lemma run_balanced (n : Z) (cs : list call) : ∀ (E : list (Z * Z)) (s : DSet.t),
  inv n E s → balanced s → Forall (in_range n) cs →
  ∃ answers s', run s cs = Ok (answers, s') ∧ inv n (union_edges cs ++ E) s' ∧ balanced s'.
Proof.
  induction cs as [|c cs IH]; intros E s Hinv Hbal Hcs.
  - by exists [], s.
  - apply Forall_cons in Hcs as [Hc Hcs].
    destruct (exec_spec n E s c Hinv Hc) as (a & s1 & He & Hinv1 & _).
    pose proof (exec_balanced n E s s1 c a Hinv Hbal Hc He) as Hbal1.
    destruct (IH _ _ Hinv1 Hbal1 Hcs) as (answers & s' & Hr & Hinv' & Hbal').
    exists (a :: answers), s'. split; [by apply (run_cons_Ok s s1)|]. split; [|done].
    destruct (edges_swap c cs E) as [H1 H2]. by eapply inv_subseteq.
Qed.

Lemma balanced_init (n : Z) : balanced (DSet.init n).
Proof.
  intros y r k v Hpath Hv.
  assert (root_of (DSet.parent_map (DSet.init n)) y r) as Hr by (by exists k).
  apply init_root_of in Hr as [Hy ->].
  assert (path (DSet.parent_map (DSet.init n)) y y 0) as H0.
  { apply path_root. by rewrite init_parent, decide_True. }
  destruct (path_det _ _ _ _ _ _ Hpath H0) as [_ ->].
  rewrite init_sz, decide_True in Hv by done. injection Hv as <-. done.
Qed.

Lemma tree_of_length (n : Z) (pm : gmap Z Z) (r : Z) :
  0 ≤ n → Z.of_nat (length (tree_of n pm r)) ≤ n.
Proof.
  intros Hn. unfold tree_of.
  pose proof (length_filter (λ x, DSet.find_root (DSet.fuel_of pm) pm x = Ok r) (seqZ 0 n)) as Hl.
  rewrite length_seqZ in Hl. lia.
Qed.

(** X5: union by size keeps the trees low.  In every state reached by
    calls on elements of [[0, n)], a walk of [k] steps from an element
    to its root [r] means that the tree of [r] has at least [2 ^ k]
    elements; so [2 ^ k ≤ n], and the first loop of [find] ends within
    [k + 1] tests, at most [log2 n + 1] of them. *)
Theorem weighted_trees_are_low (n : Z) (cs : list call) :
  0 ≤ n → Forall (in_range n) cs →
  ∃ answers s,
    run (DSet.init n) cs = Ok (answers, s) ∧
    ∀ p, 0 ≤ p < n →
      ∃ r k, path (DSet.parent_map s) p r k ∧
             2 ^ Z.of_nat k ≤ Z.of_nat (length (tree_of n (DSet.parent_map s) r)) ∧
             2 ^ Z.of_nat k ≤ n ∧
             DSet.find_root (S k) (DSet.parent_map s) p = Ok r.
Proof.
  intros Hn Hcs.
  destruct (run_balanced n cs [] _ (inv_init n Hn) (balanced_init n) Hcs)
    as (answers & s & Hrun & Hinv & Hbal).
  exists answers, s. split; [done|]. intros p Hp.
  destruct (wf_root _ _ (inv_wf _ _ _ Hinv) p Hp) as (r & k & Hpath).
  pose proof (inv_size _ _ _ Hinv r (path_is_root _ _ _ _ Hpath)) as Hsz.
  pose proof (Hbal _ _ _ _ Hpath Hsz) as Hb.
  pose proof (tree_of_length n (DSet.parent_map s) r Hn).
  exists r, k. split; [done|]. split; [done|]. split; [lia|].
  apply (find_root_path _ _ _ k); [done | lia].
Qed.

Lemma weighted_trees_are_low_witness :
  ∃ answers s,
    run (DSet.init 4) [Union 0 1; Union 2 3; Union 1 3] = Ok (answers, s) ∧
    ∀ p, 0 ≤ p < 4 →
      ∃ r k, path (DSet.parent_map s) p r k ∧
             2 ^ Z.of_nat k ≤ Z.of_nat (length (tree_of 4 (DSet.parent_map s) r)) ∧
             2 ^ Z.of_nat k ≤ 4 ∧
             DSet.find_root (S k) (DSet.parent_map s) p = Ok r.
Proof.
  apply (weighted_trees_are_low 4 [Union 0 1; Union 2 3; Union 1 3]); [lia|].
  repeat constructor; simpl; lia.
Defined.

(** ** Weighted quick-union: find twice, and missing elements *)

(** X6: [find] is idempotent.  Whatever the state, if [find(p)] returns
    [q] and leaves the state [s'], then in [s'] both [find(p)] and
    [find(q)] return [q] again and write nothing that changes [s']. *)
Theorem find_twice (s s' : DSet.t) (p q : Z) :
  DSet.find s p = Ok (q, s') →
  DSet.find s' p = Ok (q, s') ∧ DSet.find s' q = Ok (q, s').
Proof.
  intros Hf. destruct (find_parts _ _ _ _ Hf) as [Hfr _].
  apply find_root_iff in Hfr as Hr.
  destruct (find_spec s p q Hr) as (s1 & Hf1 & Hc1 & Hct1 & Hv1).
  rewrite Hf in Hf1. injection Hf1 as <-.
  pose proof (compressed_same_partition _ _ _ Hc1 Hct1) as Hsp.
  assert (DSet.parent_map s' !! q = Some q) as Hq.
  { apply (sp_roots _ _ Hsp). by eapply root_of_is_root. }
  assert (DSet.parent_map s' !! p = Some q) as Hp by (apply (Hv1 p), visits_here).
  assert (∀ x s2, root_of (DSet.parent_map s') x q →
            (∀ y, visits (DSet.parent_map s') x y → y = p ∨ y = q) →
            DSet.find s' x = Ok (q, s2) → s2 = s') as Hsame.
  { intros x s2 Hx Hvis Hf2.
    destruct (find_spec s' x q Hx) as (s3 & Hf3 & Hc3 & (_ & _ & Hpt) & Hv3).
    rewrite Hf2 in Hf3. injection Hf3 as <-.
    assert (∀ y, DSet.parent_map s2 !! y = DSet.parent_map s' !! y ∧
                 DSet.sz_map s2 !! y = DSet.sz_map s' !! y) as Heq.
    { intros y. destruct (Hpt y) as [?|(y' & Hy' & Hne & Hpy & Hsy)]; [done|].
      destruct (decide (y = p)) as [->|Hyp]; [|destruct (decide (y = q)) as [->|Hyq]].
      - rewrite Hpy, Hsy, Hp. split; [done|]. symmetry. apply (Hv1 p); [apply visits_here|].
        intros Hpp. assert (q = p) as <-; [|congruence].
        apply (root_of_det (DSet.parent_map s) p q p Hr). by apply root_of_root.
      - congruence.
      - apply (Hv3 y). intros Hvy. by destruct (Hvis y Hvy). }
    destruct s2 as [c2 pm2 sz2], s' as [c' pm' sz']. simpl in *. subst c2. f_equal.
    - apply map_eq. intros y. apply Heq.
    - apply map_eq. intros y. apply Heq. }
  assert (root_of (DSet.parent_map s') p q) as Hp' by (by apply (sp_root_of _ _ Hsp)).
  assert (root_of (DSet.parent_map s') q q) as Hq' by (by apply root_of_root).
  split.
  - destruct (find_spec s' p q Hp') as (s2 & Hf2 & _). rewrite Hf2. do 2 f_equal.
    apply (Hsame p); [done| |done]. intros y Hy.
    apply visits_inv in Hy as [->|(p' & Hpp' & _ & Hy)]; [by left|].
    assert (p' = q) as -> by congruence. right. by eapply visits_root.
  - destruct (find_spec s' q q Hq') as (s2 & Hf2 & _). rewrite Hf2. do 2 f_equal.
    apply (Hsame q); [done| |done]. intros y Hy. right. by eapply visits_root.
Qed.

Lemma find_twice_witness :
  ∃ q s', DSet.find (state_after (DSet.init 4) [Union 0 1; Union 2 3; Union 0 2]) 3 = Ok (q, s') ∧
          DSet.find s' 3 = Ok (q, s') ∧ DSet.find s' q = Ok (q, s').
Proof.
  eexists _, _. split; [vm_compute; reflexivity|].
  apply (find_twice (state_after (DSet.init 4) [Union 0 1; Union 2 3; Union 0 2])).
  vm_compute. reflexivity.
Defined.

Lemma find_missing (s : DSet.t) (p : Z) :
  DSet.parent_map s !! p = None → DSet.find s p = Raise KeyError.
Proof.
  intros Hp. unfold DSet.find, DSet.fuel_of. cbn [DSet.find_root].
  unfold getitem. by rewrite Hp.
Qed.

Lemma second_find_missing (n : Z) (s : DSet.t) (p q : Z) :
  wf n s → ¬ (0 ≤ p < n) →
  DSet.find s q ≫= (λ r, DSet.find r.2 p) = Raise KeyError.
Proof.
  intros Hwf Hp.
  assert (∀ s0, wf n s0 → DSet.parent_map s0 !! p = None) as Hnone.
  { intros s0 Hwf0. apply eq_None_not_Some. by rewrite (wf_dom _ _ Hwf0). }
  destruct (decide (0 ≤ q < n)) as [Hq|Hq].
  - destruct (wf_root _ _ Hwf q Hq) as [r Hr].
    destruct (find_spec s q r Hr) as (s1 & Hf & Hc & Hct & _).
    rewrite Hf, bind_Ok. cbn [snd]. apply find_missing, Hnone.
    eapply same_partition_wf; [done|]. by eapply compressed_same_partition.
  - rewrite (find_missing s q); [done|].
    apply eq_None_not_Some. by rewrite (wf_dom _ _ Hwf).
Qed.

(** X7: elements that were never made raise [KeyError].  In every state
    reached by calls on elements of [[0, n)], [find(p)] for a [p]
    outside [[0, n)] raises [KeyError], and so do [union] and
    [is_connected] as soon as one of their two arguments is such a [p],
    whatever the other argument is. *)
Theorem missing_element_raises (n : Z) (cs : list call) (p : Z) :
  0 ≤ n → Forall (in_range n) cs → ¬ (0 ≤ p < n) →
  ∃ answers s,
    run (DSet.init n) cs = Ok (answers, s) ∧
    DSet.find s p = Raise KeyError ∧
    ∀ q, DSet.union s p q = Raise KeyError ∧ DSet.union s q p = Raise KeyError ∧
         DSet.is_connected s p q = Raise KeyError ∧
         DSet.is_connected s q p = Raise KeyError.
Proof.
  intros Hn Hcs Hp. destruct (run_init n cs Hn Hcs) as (answers & s & Hrun & Hinv).
  pose proof (inv_wf _ _ _ Hinv) as Hwf.
  assert (DSet.find s p = Raise KeyError) as Hf.
  { apply find_missing, eq_None_not_Some. by rewrite (wf_dom _ _ Hwf). }
  exists answers, s. split; [done|]. split; [done|]. intros q.
  pose proof (second_find_missing n s p q Hwf Hp) as Hsecond.
  unfold DSet.union, DSet.is_connected. rewrite Hf. split; [done|].
  destruct (DSet.find s q) as [[r s1]|e].
  - rewrite bind_Ok in Hsecond. cbn [snd] in Hsecond. rewrite !bind_Ok. cbn beta iota.
    by rewrite Hsecond.
  - simpl in Hsecond. by simplify_eq.
Qed.

Lemma missing_element_raises_witness :
  ∃ answers s,
    run (DSet.init 3) [Union 0 1] = Ok (answers, s) ∧
    DSet.find s 3 = Raise KeyError ∧
    ∀ q, DSet.union s 3 q = Raise KeyError ∧ DSet.union s q 3 = Raise KeyError ∧
         DSet.is_connected s 3 q = Raise KeyError ∧
         DSet.is_connected s q 3 = Raise KeyError.
Proof.
  apply (missing_element_raises 3 [Union 0 1] 3); [lia| |lia].
  repeat constructor; simpl; lia.
Defined.

(** ** Quick-find *)

Lemma qf_lookup_app (d1 d2 : QuickFindDisjointSet.dict) (k : QuickFindDisjointSet.key) :
  QuickFindDisjointSet.lookup (d1 ++ d2) k
  = match QuickFindDisjointSet.lookup d1 k with
    | Some v => Some v
    | None => QuickFindDisjointSet.lookup d2 k
    end.
Proof.
  induction d1 as [|[k' v'] d1 IH]; [done|]. simpl. by case_decide.
Qed.

Lemma qf_setitem_new (d : QuickFindDisjointSet.dict) (k : QuickFindDisjointSet.key) (v : Z) :
  QuickFindDisjointSet.lookup d k = None → QuickFindDisjointSet.setitem d k v = d ++ [(k, v)].
Proof.
  induction d as [|[k' v'] d IH]; [done|]. simpl. case_decide; [done|].
  intros Hl. by rewrite IH.
Qed.

Lemma qf_lookup_ints (l : list Z) (k : QuickFindDisjointSet.key) :
  QuickFindDisjointSet.lookup ((λ i, (QuickFindDisjointSet.KInt i, i)) <$> l) k
  = match k with
    | QuickFindDisjointSet.KInt p => if decide (p ∈ l) then Some p else None
    | QuickFindDisjointSet.KItem _ _ => None
    end.
Proof.
  induction l as [|x l IH].
  - destruct k; [|done]. by rewrite decide_False by apply not_elem_of_nil.
  - rewrite fmap_cons. simpl. rewrite IH. destruct k as [p|k v].
    + destruct (decide (x = p)) as [->|Hne].
      * rewrite decide_True by done. by rewrite decide_True by left.
      * rewrite decide_False by congruence.
        destruct (decide (p ∈ l)) as [Hin|Hnin].
        -- by rewrite decide_True by (by right).
        -- rewrite decide_False; [done|]. rewrite elem_of_cons. intros [?|?]; congruence.
    + by rewrite decide_False.
Qed.

Lemma qf_init_fold (l : list Z) : ∀ l0,
  NoDup (l0 ++ l) →
  foldl (λ d i, QuickFindDisjointSet.setitem d (QuickFindDisjointSet.KInt i) i)
        ((λ i, (QuickFindDisjointSet.KInt i, i)) <$> l0) l
  = (λ i, (QuickFindDisjointSet.KInt i, i)) <$> (l0 ++ l).
Proof.
  induction l as [|x l IH]; intros l0 Hnd.
  - by rewrite app_nil_r.
  - cbn [foldl]. rewrite qf_setitem_new.
    + replace (l0 ++ x :: l) with ((l0 ++ [x]) ++ l) in * by (by rewrite <-app_assoc).
      rewrite <-(IH (l0 ++ [x]) Hnd). by rewrite fmap_app.
    + rewrite qf_lookup_ints. rewrite decide_False; [done|].
      apply NoDup_app in Hnd as (_ & Hdisj & _). intros Hin. apply (Hdisj x Hin). left.
Qed.

Lemma qf_init_parent_map (n : Z) :
  QuickFindDisjointSet.parent_map (QuickFindDisjointSet.init n)
  = (λ i, (QuickFindDisjointSet.KInt i, i)) <$> seqZ 1 (n - 1).
Proof.
  unfold QuickFindDisjointSet.init. cbn [QuickFindDisjointSet.parent_map].
  apply (qf_init_fold (seqZ 1 (n - 1)) []). apply NoDup_seqZ.
Qed.

Lemma qf_find_init (n p : Z) :
  QuickFindDisjointSet.find (QuickFindDisjointSet.init n) p
  = if decide (1 ≤ p < n) then QuickFindDisjointSet.Returns p
    else QuickFindDisjointSet.Raises (QuickFindDisjointSet.Builtin KeyError).
Proof.
  unfold QuickFindDisjointSet.find, QuickFindDisjointSet.getitem.
  rewrite qf_init_parent_map, qf_lookup_ints.
  destruct (decide (p ∈ seqZ 1 (n - 1))) as [Hi|Hi]; rewrite elem_of_seqZ in Hi;
    [by rewrite decide_True by lia | by rewrite decide_False by lia].
Qed.

(** X8: [QuickFindDisjointSet(n)] makes the elements [1, ..., n - 1]
    only, its loop being [range(1, n)]: [find(p)] answers [p] for
    [1 ≤ p < n] and raises [KeyError] for every other [p], 0 included,
    while [count()] answers [n].  [is_connected(p, q)] on two elements
    that exist says whether [p = q]. *)
Theorem quick_find_has_no_zero (n p q : Z) :
  QuickFindDisjointSet.count (QuickFindDisjointSet.init n) = n ∧
  length (QuickFindDisjointSet.parent_map (QuickFindDisjointSet.init n)) = Z.to_nat (n - 1) ∧
  QuickFindDisjointSet.find (QuickFindDisjointSet.init n) 0
  = QuickFindDisjointSet.Raises (QuickFindDisjointSet.Builtin KeyError) ∧
  QuickFindDisjointSet.find (QuickFindDisjointSet.init n) p
  = (if decide (1 ≤ p < n) then QuickFindDisjointSet.Returns p
     else QuickFindDisjointSet.Raises (QuickFindDisjointSet.Builtin KeyError)) ∧
  QuickFindDisjointSet.is_connected (QuickFindDisjointSet.init n) p q
  = (if decide (1 ≤ p < n ∧ 1 ≤ q < n)
     then QuickFindDisjointSet.Returns (bool_decide (p = q))
     else QuickFindDisjointSet.Raises (QuickFindDisjointSet.Builtin KeyError)).
Proof.
  split; [done|]. split; [by rewrite qf_init_parent_map, length_fmap, length_seqZ|].
  split; [by rewrite qf_find_init, decide_False by lia|].
  split; [apply qf_find_init|].
  unfold QuickFindDisjointSet.is_connected. rewrite !qf_find_init.
  destruct (decide (1 ≤ p < n ∧ 1 ≤ q < n)) as [[Hp Hq]|Hpq].
  - by rewrite !decide_True by done.
  - destruct (decide (1 ≤ p < n)) as [Hp|Hp]; [|done].
    destruct (decide (1 ≤ q < n)) as [Hq|Hq]; [|done]. by destruct Hpq.
Qed.

(** X9: [QuickFindDisjointSet.union] never merges two sets.  On the
    structure [__init__] returns, [union(p, q)] returns only for
    [p = q] with [1 ≤ p < n], and then leaves the structure as it is; for
    two different elements that exist the loop over
    [self.parent_map.items()] uses the first item, a pair, as a key of
    [parent_map] and raises [KeyError]; with an element that does not
    exist [find] raises [KeyError].  So every call that returns leaves
    the structure [__init__] made, and [count()] stays [n]. *)
Theorem quick_find_union_never_merges (n p q : Z) :
  QuickFindDisjointSet.union (QuickFindDisjointSet.init n) p q
  = (if decide (1 ≤ p < n ∧ p = q)
     then QuickFindDisjointSet.Returns (QuickFindDisjointSet.init n)
     else QuickFindDisjointSet.Raises (QuickFindDisjointSet.Builtin KeyError)) ∧
  (∀ s', QuickFindDisjointSet.union (QuickFindDisjointSet.init n) p q
         = QuickFindDisjointSet.Returns s' →
         s' = QuickFindDisjointSet.init n ∧ QuickFindDisjointSet.count s' = n).
Proof.
  assert (QuickFindDisjointSet.union (QuickFindDisjointSet.init n) p q
          = (if decide (1 ≤ p < n ∧ p = q)
             then QuickFindDisjointSet.Returns (QuickFindDisjointSet.init n)
             else QuickFindDisjointSet.Raises (QuickFindDisjointSet.Builtin KeyError))) as Hu.
  { unfold QuickFindDisjointSet.union. rewrite !qf_find_init.
    destruct (decide (1 ≤ p < n ∧ p = q)) as [[Hp <-]|Hpq].
    { rewrite !decide_True by done. cbn [mbind QuickFindDisjointSet.outcome_bind].
      by rewrite bool_decide_true. }
    destruct (decide (1 ≤ p < n)) as [Hp|Hp]; [|done].
    destruct (decide (1 ≤ q < n)) as [Hq|Hq]; [|done].
    cbn [mbind QuickFindDisjointSet.outcome_bind].
    destruct (decide (p = q)) as [->|Hne]; [by destruct Hpq|].
    - rewrite bool_decide_false by congruence.
      rewrite qf_init_parent_map.
      destruct (seqZ 1 (n - 1)) as [|x l] eqn:Hl.
      { apply (f_equal length) in Hl. rewrite length_seqZ in Hl. simpl in Hl. lia. }
      rewrite <-Hl. set (d := (λ i, (QuickFindDisjointSet.KInt i, i)) <$> seqZ 1 (n - 1)).
      assert (length d = S (length l)) as Hlen.
      { unfold d. by rewrite Hl, length_fmap. }
      assert (d !! 0%nat = Some (QuickFindDisjointSet.KInt x, x)) as H0.
      { unfold d. by rewrite Hl. }
      assert (QuickFindDisjointSet.getitem d
                (QuickFindDisjointSet.KItem (QuickFindDisjointSet.KInt x) x)
              = QuickFindDisjointSet.Raises (QuickFindDisjointSet.Builtin KeyError)) as Hg.
      { unfold QuickFindDisjointSet.getitem, d. by rewrite qf_lookup_ints. }
      rewrite Hlen. cbn [QuickFindDisjointSet.items_loop].
      rewrite bool_decide_false by lia. unfold QuickFindDisjointSet.dict.
      rewrite H0. cbn [fst snd]. by rewrite Hg. }
  split; [done|]. intros s' Hs'. rewrite Hu in Hs'. case_decide; [|done].
  by injection Hs' as <-.
Qed.

Lemma quick_find_union_never_merges_witness :
  QuickFindDisjointSet.union (QuickFindDisjointSet.init 4) 1 2
  = (if decide (1 ≤ 1 < 4 ∧ 1 = 2)
     then QuickFindDisjointSet.Returns (QuickFindDisjointSet.init 4)
     else QuickFindDisjointSet.Raises (QuickFindDisjointSet.Builtin KeyError)) ∧
  (∀ s', QuickFindDisjointSet.union (QuickFindDisjointSet.init 4) 1 2
         = QuickFindDisjointSet.Returns s' →
         s' = QuickFindDisjointSet.init 4 ∧ QuickFindDisjointSet.count s' = 4).
Proof. apply (quick_find_union_never_merges 4 1 2). Defined.

(** ** cell_dset.py: the adapter as a whole *)

Lemma index_map_point (point_ls : list (Z * Z)) (width height : Z) (i : nat) (c : Z * Z) :
  NoDup point_ls → (∀ c, c ∈ point_ls → 0 ≤ c.1 < width) →
  point_ls !! i = Some c →
  MazeCellDSet.index_map (MazeCellDSet.init point_ls width height) !! raw_index width c
  = Some (Z.of_nat i).
Proof.
  intros Hnd Hx Hi. unfold MazeCellDSet.init, MazeCellDSet.enumerate.
  cbn [MazeCellDSet.index_map].
  destruct (index_map_fold width point_ls ∅ 0 Hnd Hx) as [H1 _].
  rewrite (H1 i c Hi). f_equal.
Qed.

Lemma index_map_other (point_ls : list (Z * Z)) (width height : Z) (c : Z * Z) :
  NoDup point_ls → (∀ c, c ∈ point_ls → 0 ≤ c.1 < width) →
  0 ≤ c.1 < width → c ∉ point_ls →
  MazeCellDSet.index_map (MazeCellDSet.init point_ls width height) !! raw_index width c = None.
Proof.
  intros Hnd Hx Hc Hnin. unfold MazeCellDSet.init, MazeCellDSet.enumerate.
  cbn [MazeCellDSet.index_map].
  destruct (index_map_fold width point_ls ∅ 0 Hnd Hx) as [_ H2].
  rewrite H2; [done|]. intros c0 Hc0 Heq. apply Hnin.
  by rewrite <-(raw_index_inj width c0 c (Hx c0 Hc0) Hc Heq).
Qed.

(** X10: the adapter is the disjoint set on positions.  For a list of
    distinct points with [0 ≤ x < width], the point at position [i] of
    the list stands for the element [i]: in every state of the adapter
    (the dictionary [index_map] never changes, only [dset] does),
    [_find], [is_connected] and [union] on the points at positions [i]
    and [j] are [find], [is_connected] and [union] of [dset] on [i] and
    [j], and [count] is the count of [dset], [len(point_ls)] at the
    start. *)
Theorem cell_dset_works_on_positions (point_ls : list (Z * Z)) (width height : Z)
    (d : DSet.t) (i j : nat) (a b : Z * Z) :
  NoDup point_ls → (∀ c, c ∈ point_ls → 0 ≤ c.1 < width) →
  point_ls !! i = Some a → point_ls !! j = Some b →
  MazeCellDSet.count (MazeCellDSet.init point_ls width height)
  = Z.of_nat (length point_ls) ∧
  MazeCellDSet.count (MazeCellDSet.with_dset (MazeCellDSet.init point_ls width height) d)
  = DSet.count d ∧
  MazeCellDSet._find (MazeCellDSet.with_dset (MazeCellDSet.init point_ls width height) d)
    a.1 a.2
  = DSet.find d (Z.of_nat i)
    ≫= (λ r, Ok (r.1, MazeCellDSet.with_dset (MazeCellDSet.init point_ls width height) r.2)) ∧
  MazeCellDSet.is_connected
    (MazeCellDSet.with_dset (MazeCellDSet.init point_ls width height) d) a.1 a.2 b.1 b.2
  = DSet.is_connected d (Z.of_nat i) (Z.of_nat j)
    ≫= (λ r, Ok (r.1, MazeCellDSet.with_dset (MazeCellDSet.init point_ls width height) r.2)) ∧
  MazeCellDSet.union
    (MazeCellDSet.with_dset (MazeCellDSet.init point_ls width height) d) a.1 a.2 b.1 b.2
  = DSet.union d (Z.of_nat i) (Z.of_nat j)
    ≫= (λ d', Ok (MazeCellDSet.with_dset (MazeCellDSet.init point_ls width height) d')).
Proof.
  intros Hnd Hx Hi Hj.
  pose proof (index_map_point point_ls width height i a Hnd Hx Hi) as Hia.
  pose proof (index_map_point point_ls width height j b Hnd Hx Hj) as Hjb.
  set (cd0 := MazeCellDSet.init point_ls width height) in *.
  assert (∀ d0 k c, MazeCellDSet.index_map cd0 !! raw_index width c = Some (Z.of_nat k) →
            MazeCellDSet._find (MazeCellDSet.with_dset cd0 d0) c.1 c.2
            = DSet.find d0 (Z.of_nat k)
              ≫= (λ r, Ok (r.1, MazeCellDSet.with_dset cd0 r.2))) as Hfind.
  { intros d0 k c Hk. unfold MazeCellDSet._find.
    cbn [MazeCellDSet.with_dset MazeCellDSet.width MazeCellDSet.index_map MazeCellDSet.dset].
    change (MazeCellDSet.width cd0) with width. fold (raw_index width c).
    rewrite (getitem_Some _ _ _ Hk), bind_Ok.
    by destruct (DSet.find d0 (Z.of_nat k)) as [[r d1]|e]. }
  split; [done|]. split; [done|]. split; [by apply Hfind|]. split.
  - unfold MazeCellDSet.is_connected, DSet.is_connected.
    rewrite (Hfind d i a Hia).
    destruct (DSet.find d (Z.of_nat i)) as [[r1 d1]|e]; [|done].
    rewrite !bind_Ok. cbn beta iota. cbn [fst snd].
    rewrite (Hfind d1 j b Hjb).
    destruct (DSet.find d1 (Z.of_nat j)) as [[r2 d2]|e]; [|done].
    by rewrite !bind_Ok.
  - unfold MazeCellDSet.union.
    cbn [MazeCellDSet.with_dset MazeCellDSet.width MazeCellDSet.index_map MazeCellDSet.dset].
    change (MazeCellDSet.width cd0) with width.
    fold (raw_index width a). fold (raw_index width b).
    by rewrite (getitem_Some _ _ _ Hia), bind_Ok, (getitem_Some _ _ _ Hjb), bind_Ok.
Qed.

Lemma cell_dset_works_on_positions_witness :
  MazeCellDSet.count (MazeCellDSet.init [(0, 0); (2, 0); (0, 2)] 3 3) = Z.of_nat 3 ∧
  MazeCellDSet.count (MazeCellDSet.with_dset (MazeCellDSet.init [(0, 0); (2, 0); (0, 2)] 3 3)
                        (DSet.init 3))
  = DSet.count (DSet.init 3) ∧
  MazeCellDSet._find (MazeCellDSet.with_dset (MazeCellDSet.init [(0, 0); (2, 0); (0, 2)] 3 3)
                        (DSet.init 3)) 2 0
  = DSet.find (DSet.init 3) (Z.of_nat 1)
    ≫= (λ r, Ok (r.1, MazeCellDSet.with_dset
                        (MazeCellDSet.init [(0, 0); (2, 0); (0, 2)] 3 3) r.2)) ∧
  MazeCellDSet.is_connected
    (MazeCellDSet.with_dset (MazeCellDSet.init [(0, 0); (2, 0); (0, 2)] 3 3) (DSet.init 3))
    2 0 0 2
  = DSet.is_connected (DSet.init 3) (Z.of_nat 1) (Z.of_nat 2)
    ≫= (λ r, Ok (r.1, MazeCellDSet.with_dset
                        (MazeCellDSet.init [(0, 0); (2, 0); (0, 2)] 3 3) r.2)) ∧
  MazeCellDSet.union
    (MazeCellDSet.with_dset (MazeCellDSet.init [(0, 0); (2, 0); (0, 2)] 3 3) (DSet.init 3))
    2 0 0 2
  = DSet.union (DSet.init 3) (Z.of_nat 1) (Z.of_nat 2)
    ≫= (λ d', Ok (MazeCellDSet.with_dset
                    (MazeCellDSet.init [(0, 0); (2, 0); (0, 2)] 3 3) d')).
Proof.
  apply (cell_dset_works_on_positions [(0, 0); (2, 0); (0, 2)] 3 3 (DSet.init 3) 1 2
           (2, 0) (0, 2)).
  - repeat constructor; rewrite ?elem_of_cons, ?elem_of_nil; intuition congruence.
  - intros c Hc. rewrite !elem_of_cons, elem_of_nil in Hc.
    destruct Hc as [->|[->|[->|[]]]]; simpl; lia.
  - reflexivity.
  - reflexivity.
Defined.

(** X11: a cell that is no room has no element.  On the adapter the
    generator makes over the rooms of a [W × H] grid, in every state,
    [_find], [is_connected] and [union] raise [KeyError] when their
    first cell has [0 ≤ x < W] and is not a room (a wall candidate, a
    junction dot, or a cell below the grid); [union] also raises
    [KeyError] when its second cell is such a cell, and [is_connected]
    then returns no answer. *)
Theorem no_element_for_a_wall (W H : Z) (d : DSet.t) (c c' : Z * Z) :
  0 ≤ c.1 < W → c ∉ KruskalMaze.cell_ls W H →
  MazeCellDSet._find
    (MazeCellDSet.with_dset (MazeCellDSet.init (KruskalMaze.cell_ls W H) W H) d) c.1 c.2
  = Raise KeyError ∧
  MazeCellDSet.is_connected
    (MazeCellDSet.with_dset (MazeCellDSet.init (KruskalMaze.cell_ls W H) W H) d)
    c.1 c.2 c'.1 c'.2 = Raise KeyError ∧
  MazeCellDSet.union
    (MazeCellDSet.with_dset (MazeCellDSet.init (KruskalMaze.cell_ls W H) W H) d)
    c.1 c.2 c'.1 c'.2 = Raise KeyError ∧
  MazeCellDSet.union
    (MazeCellDSet.with_dset (MazeCellDSet.init (KruskalMaze.cell_ls W H) W H) d)
    c'.1 c'.2 c.1 c.2 = Raise KeyError ∧
  ∀ r, MazeCellDSet.is_connected
         (MazeCellDSet.with_dset (MazeCellDSet.init (KruskalMaze.cell_ls W H) W H) d)
         c'.1 c'.2 c.1 c.2 ≠ Ok r.
Proof.
  intros Hc Hnin.
  assert (MazeCellDSet.index_map (MazeCellDSet.init (KruskalMaze.cell_ls W H) W H)
            !! raw_index W c = None) as Hnone.
  { apply index_map_other; [apply NoDup_cell_ls| |done|done].
    intros c0 Hc0. by apply elem_of_cell_ls in Hc0 as [[? _] _]. }
  set (cd0 := MazeCellDSet.init (KruskalMaze.cell_ls W H) W H) in *.
  assert (getitem (MazeCellDSet.index_map cd0) (raw_index W c) = Raise KeyError) as Hget.
  { unfold getitem. by rewrite Hnone. }
  assert (∀ d0, MazeCellDSet._find (MazeCellDSet.with_dset cd0 d0) c.1 c.2 = Raise KeyError)
    as Hfind.
  { intros d0. unfold MazeCellDSet._find.
    cbn [MazeCellDSet.with_dset MazeCellDSet.width MazeCellDSet.index_map MazeCellDSet.dset].
    change (MazeCellDSet.width cd0) with W. fold (raw_index W c). by rewrite Hget. }
  split; [apply Hfind|]. split; [|split; [|split]].
  - unfold MazeCellDSet.is_connected. by rewrite Hfind.
  - unfold MazeCellDSet.union.
    cbn [MazeCellDSet.with_dset MazeCellDSet.width MazeCellDSet.index_map MazeCellDSet.dset].
    change (MazeCellDSet.width cd0) with W. fold (raw_index W c). by rewrite Hget.
  - unfold MazeCellDSet.union.
    cbn [MazeCellDSet.with_dset MazeCellDSet.width MazeCellDSet.index_map MazeCellDSet.dset].
    change (MazeCellDSet.width cd0) with W. fold (raw_index W c). fold (raw_index W c').
    destruct (getitem (MazeCellDSet.index_map cd0) (raw_index W c')) as [i1|e] eqn:H1.
    + by rewrite bind_Ok, Hget.
    + unfold getitem in H1. destruct (_ !! raw_index W c'); by simplify_eq.
  - intros r. unfold MazeCellDSet.is_connected.
    destruct (MazeCellDSet._find (MazeCellDSet.with_dset cd0 d) c'.1 c'.2)
      as [[r1 s1]|e] eqn:H1; [|done].
    rewrite bind_Ok. cbn beta iota.
    assert (s1 = MazeCellDSet.with_dset cd0 (MazeCellDSet.dset s1)) as ->.
    { unfold MazeCellDSet._find in H1. apply bind_inv in H1 as (i1 & _ & H1).
      apply bind_inv in H1 as ([r2 d2] & _ & H1). by simplify_eq. }
    by rewrite Hfind.
Qed.

Lemma no_element_for_a_wall_witness :
  MazeCellDSet._find
    (MazeCellDSet.with_dset (MazeCellDSet.init (KruskalMaze.cell_ls 5 3) 5 3) (DSet.init 6)) 1 0
  = Raise KeyError ∧
  MazeCellDSet.is_connected
    (MazeCellDSet.with_dset (MazeCellDSet.init (KruskalMaze.cell_ls 5 3) 5 3) (DSet.init 6))
    1 0 0 0 = Raise KeyError ∧
  MazeCellDSet.union
    (MazeCellDSet.with_dset (MazeCellDSet.init (KruskalMaze.cell_ls 5 3) 5 3) (DSet.init 6))
    1 0 0 0 = Raise KeyError ∧
  MazeCellDSet.union
    (MazeCellDSet.with_dset (MazeCellDSet.init (KruskalMaze.cell_ls 5 3) 5 3) (DSet.init 6))
    0 0 1 0 = Raise KeyError ∧
  ∀ r, MazeCellDSet.is_connected
         (MazeCellDSet.with_dset (MazeCellDSet.init (KruskalMaze.cell_ls 5 3) 5 3) (DSet.init 6))
         0 0 1 0 ≠ Ok r.
Proof.
  apply (no_element_for_a_wall 5 3 (DSet.init 6) (1, 0) (0, 0)); [simpl; lia|].
  rewrite elem_of_cell_ls. simpl. intros (_ & Hodd & _). discriminate Hodd.
Defined.

(** ** The three lists of cells *)

Lemma length_range2 (start stop : Z) :
  length (range2 start stop) = Z.to_nat ((stop - start + 1) `div` 2).
Proof. unfold range2. by rewrite length_fmap, length_seqZ. Qed.

Lemma length_pairs (l1 l2 : list Z) :
  length (l1 ≫= λ x, l2 ≫= λ y, [(x, y)]) = (length l1 * length l2)%nat.
Proof.
  assert (∀ x : Z, length (l2 ≫= λ y, [(x, y)]) = length l2) as Hin.
  { intros x. induction l2 as [|y l2 IH]; [done|]. cbn. by rewrite IH. }
  induction l1 as [|x l1 IH]; [done|].
  cbn. rewrite length_app, Hin. cbn in IH. by rewrite IH.
Qed.

(** X12: the three comprehensions of [__init__] sort the cells of the
    grid by the parity of their coordinates.  Every cell of a
    [width × height] grid is in exactly one of [cell_ls] (both even),
    [wall_ls] (one odd) and [not_care_ls] (both odd), none is listed
    twice, and the lists have [⌈W/2⌉·⌈H/2⌉], [⌊W/2⌋·⌈H/2⌉ + ⌈W/2⌉·⌊H/2⌋]
    and [⌊W/2⌋·⌊H/2⌋] entries, [W·H] in all. *)
Theorem cells_walls_and_dots (W H : Z) (c : Z * Z) :
  0 ≤ W → 0 ≤ H →
  (in_grid W H c ↔
   c ∈ KruskalMaze.cell_ls W H ∨ c ∈ KruskalMaze.wall_ls W H ∨
   c ∈ KruskalMaze.not_care_ls W H) ∧
  NoDup (KruskalMaze.cell_ls W H ++ KruskalMaze.wall_ls W H ++ KruskalMaze.not_care_ls W H) ∧
  Z.of_nat (length (KruskalMaze.cell_ls W H)) = ((W + 1) `div` 2) * ((H + 1) `div` 2) ∧
  Z.of_nat (length (KruskalMaze.wall_ls W H))
  = (W `div` 2) * ((H + 1) `div` 2) + ((W + 1) `div` 2) * (H `div` 2) ∧
  Z.of_nat (length (KruskalMaze.not_care_ls W H)) = (W `div` 2) * (H `div` 2) ∧
  Z.of_nat (length (KruskalMaze.cell_ls W H ++ KruskalMaze.wall_ls W H
                    ++ KruskalMaze.not_care_ls W H)) = W * H.
Proof.
  intros HW HH.
  assert (Z.of_nat (length (KruskalMaze.cell_ls W H))
          = ((W + 1) `div` 2) * ((H + 1) `div` 2)) as Hcells.
  { unfold KruskalMaze.cell_ls. rewrite length_pairs, !length_range2, Nat2Z.inj_mul.
    rewrite !Z2Nat.id by (apply Z.div_pos; lia). f_equal; f_equal; lia. }
  assert (Z.of_nat (length (KruskalMaze.wall_ls W H))
          = (W `div` 2) * ((H + 1) `div` 2) + ((W + 1) `div` 2) * (H `div` 2)) as Hwalls.
  { unfold KruskalMaze.wall_ls.
    rewrite length_app, !length_pairs, !length_range2, Nat2Z.inj_add, !Nat2Z.inj_mul.
    rewrite !Z2Nat.id by (apply Z.div_pos; lia). f_equal; f_equal; f_equal; lia. }
  assert (Z.of_nat (length (KruskalMaze.not_care_ls W H)) = (W `div` 2) * (H `div` 2))
    as Hdots.
  { unfold KruskalMaze.not_care_ls. rewrite length_pairs, !length_range2, Nat2Z.inj_mul.
    rewrite !Z2Nat.id by (apply Z.div_pos; lia). f_equal; f_equal; lia. }
  split; [|split; [|split; [done|split; [done|split; [done|]]]]].
  - rewrite elem_of_cell_ls, elem_of_wall_ls, elem_of_not_care_ls.
    split; [|tauto]. intros Hg.
    assert (c.1 `mod` 2 = 0 ∨ c.1 `mod` 2 = 1) as Hx
      by (Z.to_euclidean_division_equations; lia).
    assert (c.2 `mod` 2 = 0 ∨ c.2 `mod` 2 = 1) as Hy
      by (Z.to_euclidean_division_equations; lia).
    tauto.
  - apply NoDup_app. split; [apply NoDup_cell_ls|]. split.
    + intros x Hx Hin. apply elem_of_app in Hin as [Hin|Hin].
      * by apply wall_not_room in Hin.
      * by apply dot_not_room in Hin.
    + apply NoDup_app. split; [apply NoDup_wall_ls|]. split; [|apply NoDup_not_care_ls].
      intros x Hx Hin. by apply dot_not_wall in Hin.
  - rewrite !length_app, !Nat2Z.inj_add, Hcells, Hwalls, Hdots.
    assert ((W + 1) `div` 2 + W `div` 2 = W) as HWs
      by (Z.to_euclidean_division_equations; lia).
    assert ((H + 1) `div` 2 + H `div` 2 = H) as HHs
      by (Z.to_euclidean_division_equations; lia).
    rewrite <-HWs at 5. rewrite <-HHs at 5. ring.
Qed.

Lemma cells_walls_and_dots_witness :
  (in_grid 5 3 (1, 2) ↔
   (1, 2) ∈ KruskalMaze.cell_ls 5 3 ∨ (1, 2) ∈ KruskalMaze.wall_ls 5 3 ∨
   (1, 2) ∈ KruskalMaze.not_care_ls 5 3) ∧
  NoDup (KruskalMaze.cell_ls 5 3 ++ KruskalMaze.wall_ls 5 3 ++ KruskalMaze.not_care_ls 5 3) ∧
  Z.of_nat (length (KruskalMaze.cell_ls 5 3)) = ((5 + 1) `div` 2) * ((3 + 1) `div` 2) ∧
  Z.of_nat (length (KruskalMaze.wall_ls 5 3))
  = (5 `div` 2) * ((3 + 1) `div` 2) + ((5 + 1) `div` 2) * (3 `div` 2) ∧
  Z.of_nat (length (KruskalMaze.not_care_ls 5 3)) = (5 `div` 2) * (3 `div` 2) ∧
  Z.of_nat (length (KruskalMaze.cell_ls 5 3 ++ KruskalMaze.wall_ls 5 3
                    ++ KruskalMaze.not_care_ls 5 3)) = 5 * 3.
Proof. apply (cells_walls_and_dots 5 3 (1, 2)); lia. Defined.

(** ** The maze is the one Kruskal's pass builds *)

Lemma kruskal_det (opened walls o1 o2 : list (Z * Z)) :
  kruskal opened walls o1 → kruskal opened walls o2 → o1 = o2.
Proof.
  intros H1. revert o2. induction H1 as [opened|opened c walls o1 Hc H1 IH|opened c walls o1 Hc H1 IH];
    intros o2 H2; inversion H2; subst; try done; by apply IH.
Qed.

Lemma kruskal_all_joined (walls opened : list (Z * Z)) :
  (∀ c, c ∈ walls → connected (room_edges opened) (ends c).1 (ends c).2) →
  kruskal opened walls opened.
Proof.
  induction walls as [|c walls IH]; intros Hall; [constructor|].
  apply kruskal_skip; [apply Hall; left|]. apply IH. intros c' Hc'. apply Hall. by right.
Qed.

Lemma forest_cons_inv {V : Type} (u v : V) (E : list (V * V)) :
  forest ((u, v) :: E) → ¬ connected E u v.
Proof. by inversion 1. Qed.

Lemma carve_kruskal (W H : Z) (walls : list (Z * Z)) :
  W `mod` 2 = 1 → H `mod` 2 = 1 →
  ∀ visited opened st,
    carve_inv W H visited opened st → NoDup walls →
    (∀ c, c ∈ walls → c ∈ KruskalMaze.wall_ls W H ∧ c ∉ visited) →
    ∃ st' visited' opened',
      KruskalMaze.carve st walls = Ok st' ∧ carve_inv W H visited' opened' st' ∧
      kruskal opened walls opened'.
Proof.
  intros HW HH. induction walls as [|c walls IH]; intros visited opened st Hinv Hnd Hwalls.
  - exists st, visited, opened. split; [done|]. split; [done | constructor].
  - destruct (decide (MazeCellDSet.count st.2 = 1)) as [Hone|Hmore].
    { exists st, visited, opened. rewrite carve_cons_break by done.
      split; [done|]. split; [done|]. apply kruskal_all_joined. intros c' Hc'.
      destruct (ends_rooms W H c' HW HH (proj1 (Hwalls c' Hc'))) as [Ha Hb].
      by apply (count_one_connected W H visited opened st). }
    apply NoDup_cons in Hnd as [Hc Hnd].
    destruct (Hwalls c ltac:(left)) as [Hcw Hcv].
    destruct (carve_step_spec W H visited opened st c HW HH Hinv Hcw Hcv)
      as (st1 & Hstep & Hcase).
    assert (∀ c', c' ∈ walls → c' ∈ KruskalMaze.wall_ls W H ∧ c' ∉ c :: visited) as Hwalls'.
    { intros c' Hc'. split; [apply Hwalls; by right|].
      intros Hin. apply elem_of_cons in Hin as [->|Hin]; [done|].
      by apply (Hwalls c' ltac:(by right)). }
    destruct Hcase as [[Hinv1 _]|[Hinv1 _]].
    + destruct (IH _ _ _ Hinv1 Hnd Hwalls') as (st' & visited' & opened' & Hcarve & Hinv' & Hk).
      exists st', visited', opened'. rewrite (carve_cons_step st st1) by done.
      split; [done|]. split; [done|]. apply kruskal_skip; [|done].
      apply (ci_visited _ _ _ _ _ Hinv1). left.
    + destruct (IH _ _ _ Hinv1 Hnd Hwalls') as (st' & visited' & opened' & Hcarve & Hinv' & Hk).
      exists st', visited', opened'. rewrite (carve_cons_step st st1) by done.
      split; [done|]. split; [done|]. apply kruskal_open; [|done].
      pose proof (ci_forest _ _ _ _ _ Hinv1) as Hf.
      unfold room_edges in Hf. rewrite fmap_cons in Hf.
      destruct (ends c) as [a b] eqn:He. by apply forest_cons_inv in Hf.
Qed.

(** X13: the maze is a function of the shuffle alone.  For odd
    [width, height ≥ 3], the wall candidates that are passages when the
    loop is left, and in the finished grid, are exactly those that
    Kruskal's pass over the shuffled list opens: a candidate is opened
    when the candidates opened before it do not join its two rooms,
    and left closed otherwise; that pass has one result only. *)
Theorem maze_is_kruskal_of_the_shuffle (rs : RandomSource) (W H : Z) :
  numpy_random rs → W `mod` 2 = 1 → H `mod` 2 = 1 → 3 ≤ W → 3 ≤ H →
  ∃ g1 cd m opened,
    KruskalMaze.carved rs W H = Ok (g1, cd) ∧
    KruskalMaze.init_frame rs W H = Ok (m, cd) ∧
    kruskal [] (rs_shuffle rs (KruskalMaze.wall_ls W H)) opened ∧
    (∀ opened', kruskal [] (rs_shuffle rs (KruskalMaze.wall_ls W H)) opened' →
                opened' = opened) ∧
    (∀ c, c ∈ KruskalMaze.wall_ls W H → cell_at g1 c = Ok 0 ↔ c ∈ opened) ∧
    (∀ c, c ∈ KruskalMaze.wall_ls W H → cell_at (KruskalMaze.grid m) c = Ok 0 ↔ c ∈ opened).
Proof.
  intros Hrs HW HH HW3 HH3.
  destruct (init_frame_spec rs W H Hrs HW HH HW3 HH3)
    as (g0 & g1 & cd & visited0 & opened0 & k & idx & g2 & _ & Hcarve & Hcarved & Hinv0 & _
        & _ & _ & _ & _ & _ & _ & _ & _ & _ & Hsub & Hcells & Hinit).
  pose proof (shuffle_perm rs Hrs (KruskalMaze.wall_ls W H)) as Hperm.
  destruct (carve_kruskal W H (rs_shuffle rs (KruskalMaze.wall_ls W H)) HW HH [] [] _ Hinv0)
    as (st' & visited & opened & Hcarve' & Hinv & Hk).
  { rewrite Hperm. apply NoDup_wall_ls. }
  { intros c Hc. rewrite Hperm in Hc. split; [done | apply not_elem_of_nil]. }
  rewrite Hcarve in Hcarve'. injection Hcarve' as <-.
  assert (∀ c, c ∈ KruskalMaze.wall_ls W H → cell_at g1 c = Ok 0 ↔ c ∈ opened) as Hg1.
  { intros c Hc. pose proof Hc as Hc'. apply elem_of_wall_ls in Hc' as [Hg _].
    pose proof (ci_cells _ _ _ _ _ Hinv c Hg) as Hcell. cbn [fst] in Hcell. rewrite Hcell.
    apply wall_not_room in Hc. case_decide as Hd.
    - split; [|done]. intros _. by destruct Hd.
    - split; [done|]. intros Hin. destruct Hd. by right. }
  eexists g1, cd, _, opened. split; [done|]. split; [done|]. split; [done|].
  split; [intros opened' Hk'; by apply (kruskal_det _ _ _ _ Hk' Hk)|]. split; [done|].
  intros c Hc. cbn [KruskalMaze.grid]. rewrite <-(Hg1 c Hc).
  pose proof Hc as Hc'. apply elem_of_wall_ls in Hc' as [Hg _].
  rewrite (Hcells c Hg). rewrite decide_False; [done|].
  intros Hd. by apply Hsub, dot_not_wall in Hd.
Qed.

Lemma maze_is_kruskal_of_the_shuffle_witness :
  ∃ g1 cd m opened,
    KruskalMaze.carved rs_last 5 3 = Ok (g1, cd) ∧
    KruskalMaze.init_frame rs_last 5 3 = Ok (m, cd) ∧
    kruskal [] (rs_shuffle rs_last (KruskalMaze.wall_ls 5 3)) opened ∧
    (∀ opened', kruskal [] (rs_shuffle rs_last (KruskalMaze.wall_ls 5 3)) opened' →
                opened' = opened) ∧
    (∀ c, c ∈ KruskalMaze.wall_ls 5 3 → cell_at g1 c = Ok 0 ↔ c ∈ opened) ∧
    (∀ c, c ∈ KruskalMaze.wall_ls 5 3 → cell_at (KruskalMaze.grid m) c = Ok 0 ↔ c ∈ opened).
Proof.
  apply (maze_is_kruskal_of_the_shuffle rs_last 5 3);
    [apply rs_last_numpy | reflexivity | reflexivity | lia | lia].
Defined.

(** ** Walking through the grid *)

Lemma open_step_sym (W H : Z) (g : list (list Z)) (a b : Z * Z) :
  open_step W H g a b → open_step W H g b a.
Proof.
  unfold open_step, adjacent. intros (? & ? & ? & ? & ?).
  split; [done|]. split; [done|]. split; [lia | done].
Qed.

Lemma open_walk_sym (W H : Z) (g : list (list Z)) (a b : Z * Z) :
  rtc (open_step W H g) a b → rtc (open_step W H g) b a.
Proof.
  induction 1 as [|a z b Haz _ IH]; [done|].
  etrans; [exact IH|]. by apply rtc_once, open_step_sym.
Qed.

Lemma ends_adjacent (c : Z * Z) : adjacent (ends c).1 c ∧ adjacent c (ends c).2.
Proof. unfold ends, adjacent. case_bool_decide; simpl; lia. Qed.

(** X14: the finished maze can be walked.  For odd [width, height ≥ 3],
    the grid [__init__] returns has [width] rows of [height] cells, its
    rooms lie inside it and hold 0, and any two of them, the corners
    [(0, 0)] and [(width - 1, height - 1)] among them, are joined by a
    walk that stays inside the grid, goes from a cell to one of its
    four neighbours and only through cells that hold 0. *)
Theorem rooms_joined_by_open_cells (rs : RandomSource) (W H : Z) :
  numpy_random rs → W `mod` 2 = 1 → H `mod` 2 = 1 → 3 ≤ W → 3 ≤ H →
  ∃ m, KruskalMaze.init rs W H = Ok m ∧
       shape W H (KruskalMaze.grid m) ∧
       (∀ a, a ∈ KruskalMaze.cell_ls W H →
             in_grid W H a ∧ cell_at (KruskalMaze.grid m) a = Ok 0) ∧
       (∀ a b, a ∈ KruskalMaze.cell_ls W H → b ∈ KruskalMaze.cell_ls W H →
               rtc (open_step W H (KruskalMaze.grid m)) a b) ∧
       rtc (open_step W H (KruskalMaze.grid m)) (0, 0) (W - 1, H - 1).
Proof.
  intros Hrs HW HH HW3 HH3.
  destruct (init_frame_spec rs W H Hrs HW HH HW3 HH3)
    as (g0 & g1 & cd & visited & opened & k & idx & g2 & _ & _ & _ & _ & Hinv & Hone
        & _ & _ & _ & _ & _ & Hs & _ & _ & _ & Hcells & Hinit).
  assert (∀ c, in_grid W H c → c ∈ KruskalMaze.cell_ls W H ∨ c ∈ opened →
               cell_at g2 c = Ok 0) as Hopen.
  { intros c Hg Hc. rewrite (Hcells c Hg). case_decide; [done|].
    pose proof (ci_cells _ _ _ _ _ Hinv c Hg) as Hcell. cbn [fst] in Hcell.
    by rewrite Hcell, decide_True. }
  assert (∀ c, c ∈ opened →
               rtc (open_step W H g2) (ends c).1 (ends c).2) as Hwall.
  { intros c Hc.
    assert (c ∈ KruskalMaze.wall_ls W H) as Hcw
      by (by apply (ci_walls _ _ _ _ _ Hinv), (ci_opened _ _ _ _ _ Hinv)).
    destruct (ends_rooms W H c HW HH Hcw) as [Ha Hb].
    destruct (ends_adjacent c) as [Hac Hcb].
    assert (in_grid W H c) as Hg by (by apply elem_of_wall_ls in Hcw as [? _]).
    assert (cell_at g2 c = Ok 0) as H0 by (apply Hopen; [done | by right]).
    assert (in_grid W H (ends c).1) as Hg1 by (by apply elem_of_cell_ls in Ha as [? _]).
    assert (in_grid W H (ends c).2) as Hg2 by (by apply elem_of_cell_ls in Hb as [? _]).
    assert (cell_at g2 (ends c).1 = Ok 0) as H1 by (apply Hopen; [done | by left]).
    assert (cell_at g2 (ends c).2 = Ok 0) as H2 by (apply Hopen; [done | by left]).
    apply (rtc_l _ _ c); [done|]. by apply rtc_once. }
  assert (∀ a b, connected (room_edges opened) a b → rtc (open_step W H g2) a b) as Hwalk.
  { intros a b Hab. induction Hab as [a|a z b Haz _ IH]; [done|].
    etrans; [|exact IH].
    destruct Haz as [Haz|Haz]; apply list_elem_of_fmap in Haz as (c & Heq & Hc);
      pose proof (Hwall c Hc) as Hw; rewrite <-Heq in Hw; cbn [fst snd] in Hw; [done|].
    by apply open_walk_sym. }
  assert (∀ a b, a ∈ KruskalMaze.cell_ls W H → b ∈ KruskalMaze.cell_ls W H →
                 rtc (open_step W H g2) a b) as Hall.
  { intros a b Ha Hb. apply Hwalk.
    by apply (count_one_connected W H visited opened (g1, cd)). }
  eexists. split; [unfold KruskalMaze.init; by rewrite Hinit|]. cbn [KruskalMaze.grid fst].
  split; [done|]. split.
  { intros a Ha. assert (in_grid W H a) as Hg by (by apply elem_of_cell_ls in Ha as [? _]).
    split; [done|]. apply Hopen; [done | by left]. }
  split; [done|]. apply Hall; apply elem_of_cell_ls; unfold in_grid; cbn [fst snd];
    (split; [lia|]); split; try done; Z.to_euclidean_division_equations; lia.
Qed.

Lemma rooms_joined_by_open_cells_witness :
  ∃ m, KruskalMaze.init rs_last 5 3 = Ok m ∧
       shape 5 3 (KruskalMaze.grid m) ∧
       (∀ a, a ∈ KruskalMaze.cell_ls 5 3 →
             in_grid 5 3 a ∧ cell_at (KruskalMaze.grid m) a = Ok 0) ∧
       (∀ a b, a ∈ KruskalMaze.cell_ls 5 3 → b ∈ KruskalMaze.cell_ls 5 3 →
               rtc (open_step 5 3 (KruskalMaze.grid m)) a b) ∧
       rtc (open_step 5 3 (KruskalMaze.grid m)) (0, 0) (5 - 1, 3 - 1).
Proof.
  apply (rooms_joined_by_open_cells rs_last 5 3);
    [apply rs_last_numpy | reflexivity | reflexivity | lia | lia].
Defined.

(** ** The test drivers *)

Lemma connected_subseteq {V : Type} (E E' : list (V * V)) (x y : V) :
  E ⊆ E' → E' ⊆ E → connected E x y ↔ connected E' x y.
Proof. intros H1 H2. split; by apply connected_mono. Qed.

(** An edge between two vertices that are joined already adds nothing. *)
Lemma connected_cons_inside {V : Type} (E : list (V * V)) (p q x y : V) :
  connected E p q → connected ((p, q) :: E) x y ↔ connected E x y.
Proof.
  intros Hpq. rewrite connected_cons. split; [|by left].
  intros [?|[[? ?]|[? ?]]]; eauto using connected_trans, connected_sym.
Qed.

Lemma weight_line_spec (n : Z) (uf : DSet.t) (printed : list (Z * Z)) (p q : Z) :
  inv n (reverse printed) uf → 0 ≤ p < n → 0 ≤ q < n →
  ∃ uf' printed',
    weight_quick_union_line (uf, printed) (p, q) = Ok (uf', printed') ∧
    inv n (reverse printed') uf' ∧
    ((connected (reverse printed) p q ∧ printed' = printed ∧
      DSet._count uf' = DSet._count uf) ∨
     (¬ connected (reverse printed) p q ∧ printed' = printed ++ [(p, q)] ∧
      DSet._count uf' = DSet._count uf - 1)).
Proof.
  intros Hinv Hp Hq. pose proof (inv_wf _ _ _ Hinv) as Hwf.
  destruct (wf_root _ _ Hwf p Hp) as [a Ha].
  destruct (wf_root _ _ Hwf q Hq) as [b Hb].
  destruct (is_connected_spec n uf p q a b Hwf Ha Hb) as (s1 & Hi & Hsp).
  pose proof (inv_same_partition _ _ _ _ Hinv Hsp) as Hinv1.
  pose proof (inv_conn _ _ _ Hinv p q Hp Hq) as Hiff.
  rewrite (same_set_roots uf p q a b Ha Hb) in Hiff.
  unfold weight_quick_union_line. rewrite Hi, bind_Ok. cbn beta iota.
  case_bool_decide as Hab.
  - exists s1, printed. split; [done|]. split; [done|]. left.
    split; [by apply Hiff|]. split; [done | apply (sp_count _ _ Hsp)].
  - destruct (union_inv n _ s1 p q Hinv1 Hp Hq) as (s2 & Hu & Hinv2 & _ & Hcount).
    exists s2, (printed ++ [(p, q)]). rewrite Hu, bind_Ok.
    split; [done|]. rewrite reverse_snoc. split; [done|]. right.
    split; [by rewrite <-Hiff|]. split; [done|].
    rewrite Hcount, (sp_count _ _ Hsp); [done|].
    rewrite (inv_conn _ _ _ Hinv1 p q Hp Hq). by rewrite <-Hiff.
Qed.

Lemma quick_line_spec (n : Z) (u : QuickUnionDisjointSet.t) (printed : list (Z * Z)) (p q : Z) :
  qu_inv n (reverse printed) u → 0 ≤ p < n → 0 ≤ q < n →
  ∃ u' printed',
    quick_union_line (u, printed) (p, q) = Ok (u', printed') ∧
    qu_inv n (reverse printed') u' ∧
    ((connected (reverse printed) p q ∧ printed' = printed ∧
      QuickUnionDisjointSet._count u' = QuickUnionDisjointSet._count u) ∨
     (¬ connected (reverse printed) p q ∧ printed' = printed ++ [(p, q)] ∧
      QuickUnionDisjointSet._count u' = QuickUnionDisjointSet._count u - 1)).
Proof.
  intros Hinv Hp Hq.
  destruct (qu_is_connected_spec n _ u p q Hinv Hp Hq) as (b & Hi & Hb).
  unfold quick_union_line. rewrite Hi, bind_Ok. destruct b.
  - exists u, printed. split; [done|]. split; [done|]. left. split; [by apply Hb | done].
  - assert (¬ connected (reverse printed) p q) as Hn by (intros Hc; by apply Hb in Hc).
    destruct (qu_exec_spec n _ u (Union p q) Hinv (conj Hp Hq))
      as (a & u' & He & Hinv' & _ & _ & Hcount).
    cbn [QuickUnionDisjointSet.exec] in He.
    apply bind_inv in He as (u0 & Hu & He). injection He as _ <-.
    exists u0, (printed ++ [(p, q)]). rewrite Hu, bind_Ok.
    split; [done|]. rewrite reverse_snoc. split; [done|]. right.
    split; [done|]. split; [done | by apply Hcount].
Qed.

(** The loops of the two drivers, side by side. *)
Lemma drivers_in_step (n : Z) (pairs : list (Z * Z)) :
  ∀ (uf : DSet.t) (u : QuickUnionDisjointSet.t) (printed : list (Z * Z)),
  inv n (reverse printed) uf → qu_inv n (reverse printed) u →
  forest (reverse printed) →
  DSet._count uf = n - Z.of_nat (length printed) →
  QuickUnionDisjointSet._count u = n - Z.of_nat (length printed) →
  pairs_in_range n pairs →
  ∃ uf' u' new,
    for_each weight_quick_union_line (uf, printed) pairs = Ok (uf', printed ++ new) ∧
    for_each quick_union_line (u, printed) pairs = Ok (u', printed ++ new) ∧
    inv n (reverse (printed ++ new)) uf' ∧ qu_inv n (reverse (printed ++ new)) u' ∧
    forest (reverse (printed ++ new)) ∧
    DSet._count uf' = n - Z.of_nat (length (printed ++ new)) ∧
    QuickUnionDisjointSet._count u' = n - Z.of_nat (length (printed ++ new)) ∧
    sublist new pairs ∧
    ∀ x y, connected (reverse (printed ++ new)) x y
           ↔ connected (pairs ++ reverse printed) x y.
Proof.
  induction pairs as [|[p q] pairs IH]; intros uf u printed Hinv Hqinv Hf Hc Hqc Hpairs.
  - exists uf, u, []. rewrite app_nil_r. done.
  - apply Forall_cons in Hpairs as [[Hp Hq] Hpairs]. cbn [fst snd] in Hp, Hq.
    destruct (weight_line_spec n uf printed p q Hinv Hp Hq) as (uf1 & pr1 & Hl & Hinv1 & Hcase).
    destruct (quick_line_spec n u printed p q Hqinv Hp Hq) as (u1 & pr1' & Hl' & Hqinv1 & Hcase').
    assert (pr1' = pr1) as ->.
    { destruct Hcase as [(? & -> & _)|(? & -> & _)], Hcase' as [(? & -> & _)|(? & -> & _)];
        done. }
    assert (forest (reverse pr1) ∧
            DSet._count uf1 = n - Z.of_nat (length pr1) ∧
            QuickUnionDisjointSet._count u1 = n - Z.of_nat (length pr1) ∧
            (∃ new1, pr1 = printed ++ new1 ∧ sublist new1 [(p, q)]) ∧
            ∀ x y, connected (reverse pr1) x y ↔ connected ((p, q) :: reverse printed) x y)
      as (Hf1 & Hc1 & Hqc1 & (new1 & Hnew1 & Hsub1) & Hconn1).
    { destruct Hcase as [(Hcon & -> & Hcount)|(Hcon & -> & Hcount)];
        destruct Hcase' as [(Hcon' & _ & Hcount')|(Hcon' & _ & Hcount')]; try done.
      - split; [done|]. split; [lia|]. split; [lia|]. split.
        + exists []. rewrite app_nil_r. split; [done|]. apply sublist_nil_l.
        + intros x y. by rewrite connected_cons_inside.
      - rewrite reverse_snoc. split; [by apply forest_cons|].
        rewrite length_app. cbn [length]. split; [lia|]. split; [lia|]. split; [|done].
        by exists [(p, q)]. }
    destruct (IH uf1 u1 pr1 Hinv1 Hqinv1 Hf1 Hc1 Hqc1 Hpairs)
      as (uf' & u' & new & Hfor & Hfor' & Hinv' & Hqinv' & Hf' & Hc' & Hqc' & Hsub & Hconn).
    exists uf', u', (new1 ++ new). rewrite app_assoc, <-Hnew1.
    split; [by rewrite (for_each_cons _ _ _ _ _ Hl)|].
    split; [by rewrite (for_each_cons _ _ _ _ _ Hl')|].
    split; [done|]. split; [done|]. split; [done|]. split; [done|]. split; [done|]. split.
    + change ((p, q) :: pairs) with ([(p, q)] ++ pairs). by apply sublist_app.
    + intros x y. rewrite (Hconn x y).
      assert (∀ E1 E2 : list (Z * Z),
                (∀ a b, connected E1 a b ↔ connected E2 a b) →
                ∀ l a b, connected (l ++ E1) a b ↔ connected (l ++ E2) a b) as Hext.
      { intros E1 E2 HE l. induction l as [|[e1 e2] l IHl]; intros a b; [apply HE|].
        cbn [app]. by rewrite !connected_cons, !IHl. }
      rewrite (Hext _ _ Hconn1 pairs x y).
      apply connected_subseteq; intros e; rewrite ?elem_of_cons, !elem_of_app, ?elem_of_cons;
        tauto.
Qed.

Lemma find_all_run (ps : list Z) : ∀ (s s' : DSet.t) answers,
  run s (Find <$> ps) = Ok (answers, s') →
  for_each (λ uf i, snd <$> DSet.find uf i) s ps = Ok s'.
Proof.
  induction ps as [|p ps IH]; intros s s' answers Hrun.
  - simpl in Hrun. by simplify_eq.
  - rewrite fmap_cons in Hrun. cbn [run exec] in Hrun.
    apply bind_inv in Hrun as ([a s1] & He & Hrun).
    apply bind_inv in He as ([r s0] & Hf & He). injection He as _ <-.
    apply bind_inv in Hrun as ([as' s2] & Hr & Hrun). injection Hrun as _ <-.
    cbn [for_each]. rewrite Hf. cbn. by apply (IH s0 s2 as').
Qed.

Lemma find_all_spec (n : Z) (E : list (Z * Z)) (uf : DSet.t) :
  inv n E uf →
  ∃ uf', find_all uf n = Ok uf' ∧ inv n E uf' ∧ DSet._count uf' = DSet._count uf ∧
         ∀ y, 0 ≤ y < n → flat_at (DSet.parent_map uf') y.
Proof.
  intros Hinv.
  destruct (find_each_flat n E (range n) uf Hinv) as (answers & uf' & Hrun & Hinv' & _ & Hflat).
  { apply Forall_forall. intros p Hp. apply elem_of_seqZ in Hp. lia. }
  exists uf'. split; [by apply (find_all_run _ _ _ answers)|]. split; [done|]. split.
  - rewrite (inv_count _ _ _ Hinv), (inv_count _ _ _ Hinv').
    clear Hflat. revert uf Hinv Hrun. generalize (range n) as ps. intros ps.
    revert answers. induction ps as [|p ps IH]; intros answers uf Hinv Hrun.
    + simpl in Hrun. by simplify_eq.
    + rewrite fmap_cons in Hrun. cbn [run] in Hrun.
      apply bind_inv in Hrun as ([a s1] & He & Hrun).
      apply bind_inv in Hrun as ([as' s2] & Hr & Hrun). injection Hrun as _ <-.
      cbn [exec] in He. apply bind_inv in He as ([r s0] & Hf & He). injection He as _ <-.
      destruct (find_parts _ _ _ _ Hf) as [Hfr _]. apply find_root_iff in Hfr.
      destruct (find_spec uf p r Hfr) as (s0' & Hf' & Hc & Hct & _).
      rewrite Hf in Hf'. injection Hf' as <-.
      pose proof (compressed_same_partition _ _ _ Hc Hct) as Hsp.
      rewrite (IH as' s0 (inv_same_partition _ _ _ _ Hinv Hsp) Hr).
      by rewrite (same_partition_num_roots _ _ Hsp).
  - intros y Hy. apply Hflat. apply elem_of_seqZ. lia.
Qed.

Lemma value_map_of_spec (pm : gmap Z Z) (v : Z) :
  (value_map_of pm !! v = Some true ↔ ∃ k, pm !! k = Some v) ∧
  (value_map_of pm !! v = None ∨ value_map_of pm !! v = Some true).
Proof.
  unfold value_map_of.
  apply (map_fold_weak_ind
           (λ (r : gmap Z bool) (m : gmap Z Z),
              (r !! v = Some true ↔ ∃ k, m !! k = Some v) ∧
              (r !! v = None ∨ r !! v = Some true))).
  - split; [|by left]. rewrite lookup_empty. split; [done|].
    intros [k Hk]. by rewrite lookup_empty in Hk.
  - intros i x m r Hi [IH1 IH2]. destruct (decide (x = v)) as [->|Hne].
    + rewrite lookup_insert_eq. split; [|by right]. split; [|done].
      intros _. exists i. by rewrite lookup_insert_eq.
    + rewrite lookup_insert_ne by done. split; [|done]. rewrite IH1. split.
      * intros [k Hk]. exists k. rewrite lookup_insert_ne; [done|]. congruence.
      * intros [k Hk]. apply lookup_insert_Some in Hk as [[_ ?]|[_ Hk]]; [done|]. by exists k.
Qed.

(** With every parent a root, the values of [parent_map] are its roots. *)
Lemma value_map_roots (n : Z) (uf : DSet.t) :
  wf n uf → (∀ y, 0 ≤ y < n → flat_at (DSet.parent_map uf) y) →
  dom (value_map_of (DSet.parent_map uf)) = dom (roots (DSet.parent_map uf)).
Proof.
  intros Hwf Hflat. apply set_eq. intros v. rewrite !elem_of_dom.
  destruct (value_map_of_spec (DSet.parent_map uf) v) as [Hiff Hcase].
  split.
  - intros [b Hb]. assert (value_map_of (DSet.parent_map uf) !! v = Some true) as Ht.
    { destruct Hcase as [Hn|?]; [congruence | done]. }
    apply Hiff in Ht as [k Hk]. exists v. apply roots_lookup. split; [done|].
    assert (0 ≤ k < n) as Hkn by (apply (wf_dom _ _ Hwf); eauto).
    destruct (Hflat k Hkn) as (r & Hr & Hroot). congruence.
  - intros [x Hx]. apply roots_lookup in Hx as [_ Hx]. exists true. apply Hiff. by exists v.
Qed.

(** X16: the drivers print a spanning forest, whichever class they
    use.  On a file that names elements of [[0, array_len)] only,
    [test_tiny_quick_union] and [test_tiny_weight_quick_union] (and
    their [medium] twins, whose loops are the same) return, print the
    same pairs and the same number of components.  The pairs printed
    are pairs of the file in the order of the file; each joins two
    elements that the pairs printed before it do not join, so they
    form a forest; they join exactly what all the pairs of the file
    join; and the number printed is [array_len] less the number of
    pairs printed. *)
Theorem drivers_print_a_spanning_forest (array_len : Z) (pairs : list (Z * Z)) :
  0 ≤ array_len → pairs_in_range array_len pairs →
  ∃ printed components u uf,
    test_tiny_quick_union array_len pairs = Ok (printed, components, u) ∧
    test_tiny_weight_quick_union array_len pairs = Ok (printed, components, uf) ∧
    sublist printed pairs ∧
    forest (reverse printed) ∧
    (∀ x y, connected printed x y ↔ connected pairs x y) ∧
    components = array_len - Z.of_nat (length printed) ∧
    (∀ y, 0 ≤ y < array_len → flat_at (DSet.parent_map uf) y).
Proof.
  intros Hn Hpairs.
  destruct (drivers_in_step array_len pairs (DSet.init array_len)
              (QuickUnionDisjointSet.init array_len) [])
    as (uf1 & u & printed & Hfor & Hfor' & Hinv & Hqinv & Hf & Hc & Hqc & Hsub & Hconn);
    [by apply inv_init | by apply qu_inv_init | constructor | cbn; lia | cbn; lia | done |].
  rewrite app_nil_l in *.
  destruct (find_all_spec array_len _ uf1 Hinv) as (uf & Hfind & Hinv' & Hcount & Hflat).
  exists printed, (array_len - Z.of_nat (length printed)), u, uf.
  split; [|split; [|split; [done|split; [done|split; [|done]]]]].
  - unfold test_tiny_quick_union. rewrite Hfor', bind_Ok. cbn beta iota.
    unfold QuickUnionDisjointSet.count. by rewrite Hqc.
  - unfold test_tiny_weight_quick_union. rewrite Hfor, bind_Ok. cbn beta iota.
    rewrite Hfind, bind_Ok. unfold DSet.count. by rewrite Hcount, Hc.
  - intros x y. etrans; [|etrans; [apply (Hconn x y)|]].
    + apply connected_subseteq; intros e; by rewrite elem_of_reverse.
    + apply connected_subseteq; intros e;
        rewrite elem_of_app, elem_of_reverse, elem_of_nil; tauto.
Qed.

Lemma drivers_print_a_spanning_forest_witness :
  ∃ printed components u uf,
    test_tiny_quick_union 4 [(0, 1); (1, 0); (2, 3)] = Ok (printed, components, u) ∧
    test_tiny_weight_quick_union 4 [(0, 1); (1, 0); (2, 3)] = Ok (printed, components, uf) ∧
    sublist printed [(0, 1); (1, 0); (2, 3)] ∧
    forest (reverse printed) ∧
    (∀ x y, connected printed x y ↔ connected [(0, 1); (1, 0); (2, 3)] x y) ∧
    components = 4 - Z.of_nat (length printed) ∧
    (∀ y, 0 ≤ y < 4 → flat_at (DSet.parent_map uf) y).
Proof.
  apply (drivers_print_a_spanning_forest 4 [(0, 1); (1, 0); (2, 3)]); [lia|].
  repeat constructor; simpl; lia.
Defined.

(** X17: [test_test_medium_weight_quick_union] counts the components
    twice and gets the same number.  After the finds on every element,
    the keys of [value_map] (the values of [parent_map]) are exactly the
    roots: there are as many of them as the number of components
    printed, each element of [[0, array_len)] is joined by the pairs of
    the file to one of them, and no two of them are joined. *)
Theorem value_map_counts_components (array_len : Z) (pairs : list (Z * Z)) :
  0 ≤ array_len → pairs_in_range array_len pairs →
  ∃ printed components value_map,
    test_test_medium_weight_quick_union array_len pairs
    = Ok (printed, components, value_map) ∧
    Z.of_nat (size value_map) = components ∧
    components = array_len - Z.of_nat (length printed) ∧
    (∀ v, is_Some (value_map !! v) → value_map !! v = Some true ∧ 0 ≤ v < array_len) ∧
    (∀ x, 0 ≤ x < array_len → ∃ v, value_map !! v = Some true ∧ connected pairs x v) ∧
    (∀ v v', is_Some (value_map !! v) → is_Some (value_map !! v') →
             connected pairs v v' → v = v').
Proof.
  intros Hn Hpairs.
  destruct (drivers_in_step array_len pairs (DSet.init array_len)
              (QuickUnionDisjointSet.init array_len) [])
    as (uf1 & u & printed & Hfor & _ & Hinv & _ & _ & Hc & _ & _ & Hconn);
    [by apply inv_init | by apply qu_inv_init | constructor | cbn; lia | cbn; lia | done |].
  rewrite app_nil_l in *.
  destruct (find_all_spec array_len _ uf1 Hinv) as (uf & Hfind & Hinv' & Hcount & Hflat).
  pose proof (inv_wf _ _ _ Hinv') as Hwf.
  pose proof (value_map_roots array_len uf Hwf Hflat) as Hdom.
  set (vm := value_map_of (DSet.parent_map uf)) in *.
  assert (∀ v, is_Some (vm !! v) ↔ DSet.parent_map uf !! v = Some v) as Hkeys.
  { intros v. rewrite <-elem_of_dom, Hdom, elem_of_dom. split.
    - intros [x Hx]. by apply roots_lookup in Hx as [_ ?].
    - intros Hv. exists v. by apply roots_lookup. }
  assert (∀ x y, 0 ≤ x < array_len → 0 ≤ y < array_len →
                 same_set uf x y ↔ connected pairs x y) as Hsame.
  { intros x y Hx Hy. rewrite (inv_conn _ _ _ Hinv' x y Hx Hy), (Hconn x y).
    apply connected_subseteq; intros e;
      rewrite elem_of_app, elem_of_reverse, elem_of_nil; tauto. }
  exists printed, (array_len - Z.of_nat (length printed)), vm.
  split; [|split; [|split; [done|split; [|split]]]].
  - unfold test_test_medium_weight_quick_union. rewrite Hfor, bind_Ok. cbn beta iota.
    rewrite Hfind, bind_Ok. unfold DSet.count. by rewrite Hcount, Hc.
  - rewrite <-Hc, <-Hcount, (inv_count _ _ _ Hinv'). unfold num_roots.
    by rewrite <-!size_dom, Hdom.
  - intros v Hv. split.
    + destruct (value_map_of_spec (DSet.parent_map uf) v) as [_ [Hnone|?]]; [|done].
      destruct Hv as [b Hb]. unfold vm in Hb. congruence.
    + apply (wf_dom _ _ Hwf). apply Hkeys in Hv. eauto.
  - intros x Hx. destruct (wf_root _ _ Hwf x Hx) as [r Hr].
    pose proof (root_of_is_root _ _ _ Hr) as Hroot.
    assert (0 ≤ r < array_len) as Hrn by (apply (wf_dom _ _ Hwf); eauto).
    exists r. split.
    + destruct (value_map_of_spec (DSet.parent_map uf) r) as [Hiff _]. apply Hiff. eauto.
    + apply (Hsame x r Hx Hrn). exists r. split; [done | by apply root_of_root].
  - intros v v' Hv Hv' Hcon. apply Hkeys in Hv, Hv'.
    assert (0 ≤ v < array_len) as Hvn by (apply (wf_dom _ _ Hwf); eauto).
    assert (0 ≤ v' < array_len) as Hvn' by (apply (wf_dom _ _ Hwf); eauto).
    apply (Hsame v v' Hvn Hvn') in Hcon as (r & Hr & Hr').
    pose proof (root_of_root_eq _ _ _ Hv Hr). pose proof (root_of_root_eq _ _ _ Hv' Hr').
    congruence.
Qed.

Lemma value_map_counts_components_witness :
  ∃ printed components value_map,
    test_test_medium_weight_quick_union 4 [(0, 1); (1, 0); (2, 3)]
    = Ok (printed, components, value_map) ∧
    Z.of_nat (size value_map) = components ∧
    components = 4 - Z.of_nat (length printed) ∧
    (∀ v, is_Some (value_map !! v) → value_map !! v = Some true ∧ 0 ≤ v < 4) ∧
    (∀ x, 0 ≤ x < 4 → ∃ v, value_map !! v = Some true ∧
                           connected [(0, 1); (1, 0); (2, 3)] x v) ∧
    (∀ v v', is_Some (value_map !! v) → is_Some (value_map !! v') →
             connected [(0, 1); (1, 0); (2, 3)] v v' → v = v').
Proof.
  apply (value_map_counts_components 4 [(0, 1); (1, 0); (2, 3)]); [lia|].
  repeat constructor; simpl; lia.
Defined.
